(** * Ducker Native: scene store, clip stack, batch sorting and line geometry

    A shallow embedding of [DuckerNative.cpp] (the retained-mode 2D scene
    engine) and the properties of its scene-management core.

    Conventions of the embedding:
    - the process-wide [static RendererState* state] is the field [state] of
      a [World]; [None] is [nullptr];
    - [uint32_t] and [int] values are [Z]; where the source does arithmetic
      on them the wrap-around is written out ([wrap_uint32], [wrap_int32]);
    - [float] is a type [F] with the operations of [FloatOps]; [binary32] is
      the IEEE 754 single-precision instance built on [SpecFloat];
    - [fast_vector<T>] is [list T]: [push_back] appends at the end, [back] is
      [last], [pop_back] is [removelast], [v[i]] is [v !! i];
    - [std::map<K,V>] is [gmap K V];
    - collaborators outside the engine (libm, stb_truetype, stb_image, the
      shader compiler) are the fields of [External]; the OpenGL context is
      reduced to the names it has handed out ([GLContext]). *)

From Stdlib Require Import ZArith QArith Qround Qminmax Lqa Lia List Permutation Sorted.
From Stdlib Require Import Floats.SpecFloat.
From stdpp Require Import gmap strings list.

Local Open Scope Z_scope.

(** ** Machine integers *)

Definition wrap_uint32 (z : Z) : Z := z mod 2 ^ 32.

Definition wrap_int32 (z : Z) : Z := (z + 2 ^ 31) mod 2 ^ 32 - 2 ^ 31.

(** Little-endian bytes of a 32-bit pattern. *)
Definition le_bytes32 (b : Z) : list Z :=
  [b mod 256; (b / 256) mod 256; (b / 65536) mod 256; (b / 16777216) mod 256].

(** ** The [float] interface *)

Class FloatOps (F : Type) := {
  f_of_int : Z -> F;            (* static_cast<float>(int), integer literals *)
  f_to_int : F -> Z;            (* static_cast<int>(float) *)
  flit : positive -> Z -> F;    (* the literal whose float value is m * 2^e *)
  fneg : F -> F;
  fadd : F -> F -> F;
  fsub : F -> F -> F;
  fmul : F -> F -> F;
  fdiv : F -> F -> F;
  fsqrt : F -> F;
  flt : F -> F -> bool;         (* a < b *)
  feq : F -> F -> bool;         (* a == b *)
  fbytes : F -> list Z          (* object representation, sizeof(float) bytes *)
}.

(** IEEE 754 binary32 on [spec_float]; round to nearest, ties to even. *)
Module Binary32.
Definition prec : Z := 24.
Definition emax : Z := 128.

Definition of_int (z : Z) : spec_float := binary_normalize prec emax z 0 false.

Definition lit (m : positive) (e : Z) : spec_float :=
  binary_normalize prec emax (Zpos m) e false.

(** Truncation toward zero; a value outside [int] (or NaN) gives the
    "integer indefinite" value of the x86 conversion. *)
Definition to_int (f : spec_float) : Z :=
  match f with
  | S754_zero _ => 0
  | S754_finite s m e =>
      let mag := Z.shiftl (Zpos m) e in
      let v := if s then - mag else mag in
      if (- 2 ^ 31 <=? v) && (v <? 2 ^ 31) then v else - 2 ^ 31
  | _ => - 2 ^ 31
  end.

Definition sign_bit (s : bool) : Z := if s then 2 ^ 31 else 0.

(** The bit pattern; [spec_float] has a single NaN, taken as the quiet NaN
    0x7FC00000. *)
Definition bits (f : spec_float) : Z :=
  match f with
  | S754_zero s => sign_bit s
  | S754_infinity s => sign_bit s + 2139095040
  | S754_nan => 2143289344
  | S754_finite s m e =>
      sign_bit s +
      (if Zpos m <? 2 ^ 23 then Zpos m
       else (e + 150) * 2 ^ 23 + (Zpos m - 2 ^ 23))
  end.

Definition bytes (f : spec_float) : list Z := le_bytes32 (bits f).
End Binary32.

#[export] Instance binary32 : FloatOps spec_float := {|
  f_of_int := Binary32.of_int;
  f_to_int := Binary32.to_int;
  flit := Binary32.lit;
  fneg := SFopp;
  fadd := SFadd Binary32.prec Binary32.emax;
  fsub := SFsub Binary32.prec Binary32.emax;
  fmul := SFmul Binary32.prec Binary32.emax;
  fdiv := SFdiv Binary32.prec Binary32.emax;
  fsqrt := SFsqrt Binary32.prec Binary32.emax;
  flt := SFltb;
  feq := SFeqb;
  fbytes := Binary32.bytes
|}.

(** Exact rational arithmetic: the same interface without rounding, NaN or
    infinities.  It serves to state what holds of the formulas themselves.
    Square roots are not rational; [fsqrt] keeps the radicand's sign only. *)
Module ExactQ.
Definition ltb (a b : Q) : bool := if Qlt_le_dec a b then true else false.
Definition eqb (a b : Q) : bool := Qeq_bool a b.
(** Truncation toward zero. *)
Definition to_int (a : Q) : Z := if Qlt_le_dec a 0 then Qceiling a else Qfloor a.
Definition lit (m : positive) (e : Z) : Q := inject_Z (Zpos m) * Qpower 2 e.
Definition sqrt_sign (a : Q) : Q := if ltb 0 a then 1%Q else 0%Q.
End ExactQ.

Definition exactQ : FloatOps Q := {|
  f_of_int := inject_Z;
  f_to_int := ExactQ.to_int;
  flit := ExactQ.lit;
  fneg := Qopp;
  fadd := Qplus;
  fsub := Qminus;
  fmul := Qmult;
  fdiv := Qdiv;
  fsqrt := ExactQ.sqrt_sign;
  flt := ExactQ.ltb;
  feq := ExactQ.eqb;
  fbytes := fun _ => []
|}.

(** [std::max] and [std::min] as <algorithm> defines them:
    [max(a,b) = (a < b) ? b : a] and [min(a,b) = (b < a) ? b : a]. *)
Definition std_max {F} `{FloatOps F} (a b : F) : F := if flt a b then b else a.
Definition std_min {F} `{FloatOps F} (a b : F) : F := if flt b a then b else a.

(** ** Plain data of the header *)

Inductive UniformType :=
  UNIFORM_FLOAT | UNIFORM_VEC2 | UNIFORM_VEC3 | UNIFORM_VEC4 | UNIFORM_INT.

Inductive LineMode := Straight | Curved.

Definition LineMode_to_Z (m : LineMode) : Z :=
  match m with Straight => 0 | Curved => 1 end.

Record Vec2 (F : Type) := mkVec2 { vx : F; vy : F }.
Record Vec3 (F : Type) := mkVec3 { v3x : F; v3y : F; v3z : F }.
Record Vec4 (F : Type) := mkVec4 { cx : F; cy : F; cz : F; cw : F }.
Record RectF (F : Type) := mkRectF { rx : F; ry : F; rw : F; rh : F }.

Arguments mkVec2 {F}.
Arguments vx {F}.
Arguments vy {F}.
Arguments mkVec3 {F}.
Arguments v3x {F}.
Arguments v3y {F}.
Arguments v3z {F}.
Arguments mkVec4 {F}.
Arguments cx {F}.
Arguments cy {F}.
Arguments cz {F}.
Arguments cw {F}.
Arguments mkRectF {F}.
Arguments rx {F}.
Arguments ry {F}.
Arguments rw {F}.
Arguments rh {F}.

Inductive ObjectType := Rect | RoundedRect | Circle | Glyph | Line.

Definition ObjectType_to_Z (t : ObjectType) : Z :=
  match t with Rect => 0 | RoundedRect => 1 | Circle => 2 | Glyph => 3 | Line => 4 end.

#[export] Instance ObjectType_eq_dec : EqDecision ObjectType.
Proof. solve_decision. Defined.

#[export] Instance LineMode_eq_dec : EqDecision LineMode.
Proof. solve_decision. Defined.

Record ShaderProgram := mkShaderProgram { program_id : Z }.

Record UniformValue := mkUniformValue { utype : UniformType; data : list Z }.

Record ShadowLayer (F : Type) := mkShadowLayer {
  opacity : F; yOffset : F; blurRadius : F; spread : F }.
Arguments mkShadowLayer {F}.
Arguments opacity {F}.
Arguments yOffset {F}.
Arguments blurRadius {F}.
Arguments spread {F}.

(** ** Scene entities *)

Record RenderObject (F : Type) := mkRenderObject {
  id : Z;
  type : ObjectType;
  visible : bool;
  zIndex : Z;
  bounds : RectF F;
  color : Vec4 F;
  textureId : Z;
  shaderId : Z;
  scissorRect : RectF F;
  uvRect : RectF F;
  borderWidth : F;
  borderColor : Vec4 F;
  uniforms : gmap string UniformValue;
  elevation : Z;
  rotation : F;
  rotationOrigin : Vec2 F;
  start : Vec2 F;
  end_ : Vec2 F;
  controlPoints : list (Vec2 F);
  lineWidth : F;
  lineMode : LineMode;
  triCount : Z
}.
Arguments mkRenderObject {F}.
Arguments id {F}.
Arguments type {F}.
Arguments visible {F}.
Arguments zIndex {F}.
Arguments bounds {F}.
Arguments color {F}.
Arguments textureId {F}.
Arguments shaderId {F}.
Arguments scissorRect {F}.
Arguments uvRect {F}.
Arguments borderWidth {F}.
Arguments borderColor {F}.
Arguments uniforms {F}.
Arguments elevation {F}.
Arguments rotation {F}.
Arguments rotationOrigin {F}.
Arguments start {F}.
Arguments end_ {F}.
Arguments controlPoints {F}.
Arguments lineWidth {F}.
Arguments lineMode {F}.
Arguments triCount {F}.

(** The quad [stbtt_GetPackedQuad] hands back. *)
Record stbtt_aligned_quad (F : Type) := mkQuad {
  qx0 : F; qy0 : F; qs0 : F; qt0 : F;
  qx1 : F; qy1 : F; qs1 : F; qt1 : F }.
Arguments mkQuad {F}.
Arguments qx0 {F}.
Arguments qy0 {F}.
Arguments qs0 {F}.
Arguments qt0 {F}.
Arguments qx1 {F}.
Arguments qy1 {F}.
Arguments qs1 {F}.
Arguments qt1 {F}.

(** The shader sources are opaque to the engine: the built-in ones are named,
    a custom fragment shader is the client's text. *)
Inductive ShaderSource :=
| UNIVERSAL_VS_SRC | QUAD_VS_SRC
| RECT_FS_SRC | ROUNDED_RECT_FS_SRC | CIRCLE_FS_SRC | GLYPH_FS_SRC | LINE_FS_SRC
| HORIZONTAL_BLUR_FS_SRC | VERTICAL_BLUR_FS_SRC
| CustomSource (text : string).

(** ** Collaborators outside the engine

    [packedchars] is the glyph table [stbtt_packedchar char_data[96 + 256]];
    [load_font_atlas] is the file read followed by [stbtt_PackBegin] and
    [stbtt_PackFontRanges] ([None] when any of them fails);
    [stbi_load] gives width, height and channel count of a decoded image;
    [shader_links] tells whether a vertex/fragment pair compiles and links. *)
Class External (F : Type) := {
  expf : F -> F;
  cosf : F -> F;
  sinf : F -> F;
  packedchars : Type;
  stbtt_GetPackedQuad :
    packedchars -> Z -> Z -> Z -> F -> F -> bool -> stbtt_aligned_quad F * F * F;
  load_font_atlas : string -> F -> option packedchars;
  stbi_load : string -> option (Z * Z * Z);
  shader_links : ShaderSource -> ShaderSource -> bool
}.

(** The OpenGL context, reduced to object names: [glGen*] hands out the next
    name (never 0), [glDelete*] retires one. *)
Record GLContext := mkGL { gl_next_name : positive; gl_live : list Z }.

Definition glGen (gl : GLContext) : Z * GLContext :=
  (Zpos (gl_next_name gl),
   mkGL (Pos.succ (gl_next_name gl)) (gl_live gl ++ [Zpos (gl_next_name gl)])).

Definition glDelete (name : Z) (gl : GLContext) : GLContext :=
  mkGL (gl_next_name gl) (filter (fun n => n ≠ name) (gl_live gl)).

Section Engine.
Context {F : Type} {FO : FloatOps F} {EX : External F}.

Record Font := mkFont {
  size : F;
  char_data : packedchars;
  font_textureId : Z;
  atlasWidth : Z;
  atlasHeight : Z
}.

Definition mat4 := list (list F).

Record RendererState := mkState {
  screenWidth : Z;
  screenHeight : Z;
  vao : Z;
  vbo : Z;
  projectionMatrix : mat4;
  nextCustomShaderId : Z;
  shaders : gmap Z ShaderProgram;
  nextFontId : Z;
  fonts : gmap Z Font;
  objects : list (RenderObject F);
  objectIdToIndex : gmap Z nat;
  nextObjectId : Z;
  needsSort : bool;
  scissorStack : list (RectF F);
  containerStack : list (Vec2 F);
  shadowFBO : Z;
  shadowTexture : Z;
  intermediateFBO : Z;
  intermediateTexture : Z;
  blurHorizontal : ShaderProgram;
  blurVertical : ShaderProgram;
  quadVAO : Z;
  quadVBO : Z;
  shadowPresets : gmap Z (list (ShadowLayer F))
}.

(** The process: the engine pointer and the GL context. *)
Record World := mkWorld { state : option RendererState; gl : GLContext }.

(** *** Field updates *)

Definition set_scene (objs : list (RenderObject F)) (m : gmap Z nat)
    (next : Z) (dirty : bool) (s : RendererState) : RendererState :=
  mkState (screenWidth s) (screenHeight s) (vao s) (vbo s) (projectionMatrix s)
    (nextCustomShaderId s) (shaders s) (nextFontId s) (fonts s)
    objs m next dirty (scissorStack s) (containerStack s)
    (shadowFBO s) (shadowTexture s) (intermediateFBO s) (intermediateTexture s)
    (blurHorizontal s) (blurVertical s) (quadVAO s) (quadVBO s) (shadowPresets s).

Definition set_stacks (sc : list (RectF F)) (ct : list (Vec2 F))
    (s : RendererState) : RendererState :=
  mkState (screenWidth s) (screenHeight s) (vao s) (vbo s) (projectionMatrix s)
    (nextCustomShaderId s) (shaders s) (nextFontId s) (fonts s)
    (objects s) (objectIdToIndex s) (nextObjectId s) (needsSort s) sc ct
    (shadowFBO s) (shadowTexture s) (intermediateFBO s) (intermediateTexture s)
    (blurHorizontal s) (blurVertical s) (quadVAO s) (quadVBO s) (shadowPresets s).

Definition set_screen (w h : Z) (pm : mat4) (s : RendererState) : RendererState :=
  mkState w h (vao s) (vbo s) pm
    (nextCustomShaderId s) (shaders s) (nextFontId s) (fonts s)
    (objects s) (objectIdToIndex s) (nextObjectId s) (needsSort s)
    (scissorStack s) (containerStack s)
    (shadowFBO s) (shadowTexture s) (intermediateFBO s) (intermediateTexture s)
    (blurHorizontal s) (blurVertical s) (quadVAO s) (quadVBO s) (shadowPresets s).

Definition set_shaders (next : Z) (sh : gmap Z ShaderProgram)
    (s : RendererState) : RendererState :=
  mkState (screenWidth s) (screenHeight s) (vao s) (vbo s) (projectionMatrix s)
    next sh (nextFontId s) (fonts s)
    (objects s) (objectIdToIndex s) (nextObjectId s) (needsSort s)
    (scissorStack s) (containerStack s)
    (shadowFBO s) (shadowTexture s) (intermediateFBO s) (intermediateTexture s)
    (blurHorizontal s) (blurVertical s) (quadVAO s) (quadVBO s) (shadowPresets s).

Definition set_fonts (next : Z) (fs : gmap Z Font)
    (s : RendererState) : RendererState :=
  mkState (screenWidth s) (screenHeight s) (vao s) (vbo s) (projectionMatrix s)
    (nextCustomShaderId s) (shaders s) next fs
    (objects s) (objectIdToIndex s) (nextObjectId s) (needsSort s)
    (scissorStack s) (containerStack s)
    (shadowFBO s) (shadowTexture s) (intermediateFBO s) (intermediateTexture s)
    (blurHorizontal s) (blurVertical s) (quadVAO s) (quadVBO s) (shadowPresets s).

Definition with_state (w : World) (s : RendererState) : World :=
  mkWorld (Some s) (gl w).
End Engine.

(** *** Assignments to the fields of a [RenderObject] *)

Section ObjectFields.
Context {F : Type}.

Definition set_id (v : Z) (o : RenderObject F) : RenderObject F :=
  mkRenderObject v (type o) (visible o) (zIndex o) (bounds o) (color o)
    (textureId o) (shaderId o) (scissorRect o) (uvRect o) (borderWidth o)
    (borderColor o) (uniforms o) (elevation o) (rotation o)
    (rotationOrigin o) (start o) (end_ o) (controlPoints o) (lineWidth o)
    (lineMode o) (triCount o).

Definition set_type (v : ObjectType) (o : RenderObject F) : RenderObject F :=
  mkRenderObject (id o) v (visible o) (zIndex o) (bounds o) (color o)
    (textureId o) (shaderId o) (scissorRect o) (uvRect o) (borderWidth o)
    (borderColor o) (uniforms o) (elevation o) (rotation o)
    (rotationOrigin o) (start o) (end_ o) (controlPoints o) (lineWidth o)
    (lineMode o) (triCount o).

Definition set_visible (v : bool) (o : RenderObject F) : RenderObject F :=
  mkRenderObject (id o) (type o) v (zIndex o) (bounds o) (color o)
    (textureId o) (shaderId o) (scissorRect o) (uvRect o) (borderWidth o)
    (borderColor o) (uniforms o) (elevation o) (rotation o)
    (rotationOrigin o) (start o) (end_ o) (controlPoints o) (lineWidth o)
    (lineMode o) (triCount o).

Definition set_zIndex (v : Z) (o : RenderObject F) : RenderObject F :=
  mkRenderObject (id o) (type o) (visible o) v (bounds o) (color o)
    (textureId o) (shaderId o) (scissorRect o) (uvRect o) (borderWidth o)
    (borderColor o) (uniforms o) (elevation o) (rotation o)
    (rotationOrigin o) (start o) (end_ o) (controlPoints o) (lineWidth o)
    (lineMode o) (triCount o).

Definition set_bounds (v : RectF F) (o : RenderObject F) : RenderObject F :=
  mkRenderObject (id o) (type o) (visible o) (zIndex o) v (color o)
    (textureId o) (shaderId o) (scissorRect o) (uvRect o) (borderWidth o)
    (borderColor o) (uniforms o) (elevation o) (rotation o)
    (rotationOrigin o) (start o) (end_ o) (controlPoints o) (lineWidth o)
    (lineMode o) (triCount o).

Definition set_color (v : Vec4 F) (o : RenderObject F) : RenderObject F :=
  mkRenderObject (id o) (type o) (visible o) (zIndex o) (bounds o) v
    (textureId o) (shaderId o) (scissorRect o) (uvRect o) (borderWidth o)
    (borderColor o) (uniforms o) (elevation o) (rotation o)
    (rotationOrigin o) (start o) (end_ o) (controlPoints o) (lineWidth o)
    (lineMode o) (triCount o).

Definition set_textureId (v : Z) (o : RenderObject F) : RenderObject F :=
  mkRenderObject (id o) (type o) (visible o) (zIndex o) (bounds o) (color o)
    v (shaderId o) (scissorRect o) (uvRect o) (borderWidth o)
    (borderColor o) (uniforms o) (elevation o) (rotation o)
    (rotationOrigin o) (start o) (end_ o) (controlPoints o) (lineWidth o)
    (lineMode o) (triCount o).

Definition set_shaderId (v : Z) (o : RenderObject F) : RenderObject F :=
  mkRenderObject (id o) (type o) (visible o) (zIndex o) (bounds o) (color o)
    (textureId o) v (scissorRect o) (uvRect o) (borderWidth o)
    (borderColor o) (uniforms o) (elevation o) (rotation o)
    (rotationOrigin o) (start o) (end_ o) (controlPoints o) (lineWidth o)
    (lineMode o) (triCount o).

Definition set_scissorRect (v : RectF F) (o : RenderObject F) : RenderObject F :=
  mkRenderObject (id o) (type o) (visible o) (zIndex o) (bounds o) (color o)
    (textureId o) (shaderId o) v (uvRect o) (borderWidth o) (borderColor o)
    (uniforms o) (elevation o) (rotation o) (rotationOrigin o) (start o)
    (end_ o) (controlPoints o) (lineWidth o) (lineMode o) (triCount o).

Definition set_uvRect (v : RectF F) (o : RenderObject F) : RenderObject F :=
  mkRenderObject (id o) (type o) (visible o) (zIndex o) (bounds o) (color o)
    (textureId o) (shaderId o) (scissorRect o) v (borderWidth o)
    (borderColor o) (uniforms o) (elevation o) (rotation o)
    (rotationOrigin o) (start o) (end_ o) (controlPoints o) (lineWidth o)
    (lineMode o) (triCount o).

Definition set_borderWidth (v : F) (o : RenderObject F) : RenderObject F :=
  mkRenderObject (id o) (type o) (visible o) (zIndex o) (bounds o) (color o)
    (textureId o) (shaderId o) (scissorRect o) (uvRect o) v (borderColor o)
    (uniforms o) (elevation o) (rotation o) (rotationOrigin o) (start o)
    (end_ o) (controlPoints o) (lineWidth o) (lineMode o) (triCount o).

Definition set_borderColor (v : Vec4 F) (o : RenderObject F) : RenderObject F :=
  mkRenderObject (id o) (type o) (visible o) (zIndex o) (bounds o) (color o)
    (textureId o) (shaderId o) (scissorRect o) (uvRect o) (borderWidth o) v
    (uniforms o) (elevation o) (rotation o) (rotationOrigin o) (start o)
    (end_ o) (controlPoints o) (lineWidth o) (lineMode o) (triCount o).

Definition set_uniforms (v : gmap string UniformValue) (o : RenderObject F) : RenderObject F :=
  mkRenderObject (id o) (type o) (visible o) (zIndex o) (bounds o) (color o)
    (textureId o) (shaderId o) (scissorRect o) (uvRect o) (borderWidth o)
    (borderColor o) v (elevation o) (rotation o) (rotationOrigin o)
    (start o) (end_ o) (controlPoints o) (lineWidth o) (lineMode o)
    (triCount o).

Definition set_elevation (v : Z) (o : RenderObject F) : RenderObject F :=
  mkRenderObject (id o) (type o) (visible o) (zIndex o) (bounds o) (color o)
    (textureId o) (shaderId o) (scissorRect o) (uvRect o) (borderWidth o)
    (borderColor o) (uniforms o) v (rotation o) (rotationOrigin o) (start o)
    (end_ o) (controlPoints o) (lineWidth o) (lineMode o) (triCount o).

Definition set_rotation (v : F) (o : RenderObject F) : RenderObject F :=
  mkRenderObject (id o) (type o) (visible o) (zIndex o) (bounds o) (color o)
    (textureId o) (shaderId o) (scissorRect o) (uvRect o) (borderWidth o)
    (borderColor o) (uniforms o) (elevation o) v (rotationOrigin o)
    (start o) (end_ o) (controlPoints o) (lineWidth o) (lineMode o)
    (triCount o).

Definition set_rotationOrigin (v : Vec2 F) (o : RenderObject F) : RenderObject F :=
  mkRenderObject (id o) (type o) (visible o) (zIndex o) (bounds o) (color o)
    (textureId o) (shaderId o) (scissorRect o) (uvRect o) (borderWidth o)
    (borderColor o) (uniforms o) (elevation o) (rotation o) v (start o)
    (end_ o) (controlPoints o) (lineWidth o) (lineMode o) (triCount o).

Definition set_start (v : Vec2 F) (o : RenderObject F) : RenderObject F :=
  mkRenderObject (id o) (type o) (visible o) (zIndex o) (bounds o) (color o)
    (textureId o) (shaderId o) (scissorRect o) (uvRect o) (borderWidth o)
    (borderColor o) (uniforms o) (elevation o) (rotation o)
    (rotationOrigin o) v (end_ o) (controlPoints o) (lineWidth o)
    (lineMode o) (triCount o).

Definition set_end (v : Vec2 F) (o : RenderObject F) : RenderObject F :=
  mkRenderObject (id o) (type o) (visible o) (zIndex o) (bounds o) (color o)
    (textureId o) (shaderId o) (scissorRect o) (uvRect o) (borderWidth o)
    (borderColor o) (uniforms o) (elevation o) (rotation o)
    (rotationOrigin o) (start o) v (controlPoints o) (lineWidth o)
    (lineMode o) (triCount o).

Definition set_controlPoints (v : list (Vec2 F)) (o : RenderObject F) : RenderObject F :=
  mkRenderObject (id o) (type o) (visible o) (zIndex o) (bounds o) (color o)
    (textureId o) (shaderId o) (scissorRect o) (uvRect o) (borderWidth o)
    (borderColor o) (uniforms o) (elevation o) (rotation o)
    (rotationOrigin o) (start o) (end_ o) v (lineWidth o) (lineMode o)
    (triCount o).

Definition set_lineWidth (v : F) (o : RenderObject F) : RenderObject F :=
  mkRenderObject (id o) (type o) (visible o) (zIndex o) (bounds o) (color o)
    (textureId o) (shaderId o) (scissorRect o) (uvRect o) (borderWidth o)
    (borderColor o) (uniforms o) (elevation o) (rotation o)
    (rotationOrigin o) (start o) (end_ o) (controlPoints o) v (lineMode o)
    (triCount o).

Definition set_lineMode (v : LineMode) (o : RenderObject F) : RenderObject F :=
  mkRenderObject (id o) (type o) (visible o) (zIndex o) (bounds o) (color o)
    (textureId o) (shaderId o) (scissorRect o) (uvRect o) (borderWidth o)
    (borderColor o) (uniforms o) (elevation o) (rotation o)
    (rotationOrigin o) (start o) (end_ o) (controlPoints o) (lineWidth o) v
    (triCount o).

Definition set_triCount (v : Z) (o : RenderObject F) : RenderObject F :=
  mkRenderObject (id o) (type o) (visible o) (zIndex o) (bounds o) (color o)
    (textureId o) (shaderId o) (scissorRect o) (uvRect o) (borderWidth o)
    (borderColor o) (uniforms o) (elevation o) (rotation o)
    (rotationOrigin o) (start o) (end_ o) (controlPoints o) (lineWidth o)
    (lineMode o) v.

End ObjectFields.

(** ** The scene store *)

Section SceneStore.
Context {F : Type} {FO : FloatOps F} {EX : External F}.

Definition f0 : F := f_of_int 0.
Definition f1 : F := f_of_int 1.
Definition f2 : F := f_of_int 2.
Definition f_half : F := flit 1 (-1).           (* 0.5f *)

(** [sizeof]-sized payloads as [memcpy] stores them. *)
Definition bytes_vec2 (v : Vec2 F) : list Z := fbytes (vx v) ++ fbytes (vy v).
Definition bytes_vec4 (v : Vec4 F) : list Z :=
  fbytes (cx v) ++ fbytes (cy v) ++ fbytes (cz v) ++ fbytes (cw v).
Definition bytes_rect (r : RectF F) : list Z :=
  fbytes (rx r) ++ fbytes (ry r) ++ fbytes (rw r) ++ fbytes (rh r).
Definition bytes_int (i : Z) : list Z := le_bytes32 (wrap_uint32 i).

Definition uniform_float (v : F) : UniformValue :=
  mkUniformValue UNIFORM_FLOAT (fbytes v).
Definition uniform_vec2 (v : Vec2 F) : UniformValue :=
  mkUniformValue UNIFORM_VEC2 (bytes_vec2 v).
Definition uniform_vec4 (v : Vec4 F) : UniformValue :=
  mkUniformValue UNIFORM_VEC4 (bytes_vec4 v).
Definition uniform_int (i : Z) : UniformValue :=
  mkUniformValue UNIFORM_INT (bytes_int i).

(** A default-constructed [RenderObject]: the member initialisers of the
    struct; the members without one ([id], [type], [bounds], [scissorRect],
    [start], [end]) are indeterminate in C++ and zero here. *)
Definition RenderObject_default : RenderObject F :=
  mkRenderObject 0 Rect true 0 (mkRectF f0 f0 f0 f0) (mkVec4 f1 f1 f1 f1)
    0 0 (mkRectF f0 f0 f0 f0) (mkRectF f0 f0 f1 f1) f0 (mkVec4 f0 f0 f0 f0)
    ∅ 0 f0 (mkVec2 f_half f_half) (mkVec2 f0 f0) (mkVec2 f0 f0) [] f1
    Straight 2.

(** [FindObject] returns [&state->objects[index]]: the slot of the pool the
    pointer designates, or [None] for [nullptr]. *)
Definition FindObject (k : Z) (w : World) : option nat :=
  match state w with
  | None => None
  | Some s => objectIdToIndex s !! k
  end.

(** The object behind the pointer [FindObject] returns. *)
Definition deref (w : World) (p : option nat) : option (RenderObject F) :=
  match state w, p with
  | Some s, Some i => objects s !! i
  | _, _ => None
  end.

Definition full_screen (s : RendererState) : RectF F :=
  mkRectF f0 f0 (f_of_int (screenWidth s)) (f_of_int (screenHeight s)).

Definition AddObjectInternal (obj : RenderObject F) (w : World) : World * Z :=
  match state w with
  | None => (w, 0)
  | Some s =>
      let clip :=
        match last (scissorStack s) with
        | Some top => top
        | None => full_screen s
        end in
      let obj1 := set_id (nextObjectId s) (set_scissorRect clip obj) in
      let newIndex := length (objects s) in
      (with_state w
         (set_scene (objects s ++ [obj1])
            (<[id obj1 := newIndex]> (objectIdToIndex s))
            (wrap_uint32 (nextObjectId s + 1)) true s),
       id obj1)
  end.

Definition border_uniforms (borderWidth : F) (borderColor : Vec4 F)
    (u : gmap string UniformValue) : gmap string UniformValue :=
  <["borderColor" := uniform_vec4 borderColor]>
    (<["borderWidth" := uniform_float borderWidth]> u).

Definition DuckerNative_AddRect (bounds : RectF F) (color : Vec4 F) (zIndex textureId : Z)
    (uvRect : RectF F) (borderWidth : F) (borderColor : Vec4 F)
    (w : World) : World * Z :=
  let obj := set_type Rect RenderObject_default in
  let obj := set_bounds bounds obj in
  let obj := set_color color obj in
  let obj := set_zIndex zIndex obj in
  let obj := set_textureId textureId obj in
  let obj := set_uvRect uvRect obj in
  let obj := set_borderWidth borderWidth obj in
  let obj := set_borderColor borderColor obj in
  let obj := set_rotation f0 obj in
  let obj := set_rotationOrigin (mkVec2 f_half f_half) obj in
  let obj := set_uniforms (border_uniforms borderWidth borderColor (uniforms obj)) obj in
  AddObjectInternal obj w.

Definition DuckerNative_AddRoundedRect (bounds : RectF F) (shapeSize : Vec2 F) (color : Vec4 F)
    (cornerRadius blur : F) (inset : bool) (zIndex textureId : Z)
    (uvRect : RectF F) (borderWidth : F) (borderColor : Vec4 F)
    (w : World) : World * Z :=
  let obj := set_type RoundedRect RenderObject_default in
  let obj := set_bounds bounds obj in
  let obj := set_color color obj in
  let obj := set_zIndex zIndex obj in
  let obj := set_textureId textureId obj in
  let obj := set_uvRect uvRect obj in
  let obj := set_borderWidth borderWidth obj in
  let obj := set_borderColor borderColor obj in
  let obj := set_rotation f0 obj in
  let obj := set_rotationOrigin (mkVec2 f_half f_half) obj in
  let u := <["quadSize" := uniform_vec2 (mkVec2 (rw bounds) (rh bounds))]> (uniforms obj) in
  let u := <["shapeSize" := uniform_vec2 shapeSize]> u in
  let u := <["cornerRadius" := uniform_float cornerRadius]> u in
  let u := <["blur" := uniform_float blur]> u in
  let u := <["inset" := uniform_int (if inset then 1 else 0)]> u in
  let obj := set_uniforms (border_uniforms borderWidth borderColor u) obj in
  AddObjectInternal obj w.

Definition DuckerNative_AddCircle (bounds : RectF F) (color : Vec4 F) (radius blur : F)
    (inset : bool) (zIndex textureId : Z) (borderWidth : F)
    (borderColor : Vec4 F) (w : World) : World * Z :=
  let obj := set_type Circle RenderObject_default in
  let obj := set_bounds bounds obj in
  let obj := set_color color obj in
  let obj := set_zIndex zIndex obj in
  let obj := set_textureId textureId obj in
  let obj := set_borderWidth borderWidth obj in
  let obj := set_borderColor borderColor obj in
  let obj := set_rotation f0 obj in
  let obj := set_rotationOrigin (mkVec2 f_half f_half) obj in
  let u := <["shapeRadius" := uniform_float radius]> (uniforms obj) in
  let u := <["blur" := uniform_float blur]> u in
  let u := <["inset" := uniform_int (if inset then 1 else 0)]> u in
  let obj := set_uniforms (border_uniforms borderWidth borderColor u) obj in
  AddObjectInternal obj w.

(** Swap-with-last removal.  [it] stays valid across the assignment to
    [objectIdToIndex[lastObject.id]], so the erased key is [objectId]. *)
Definition DuckerNative_RemoveObject (objectId : Z) (w : World) : World :=
  match state w with
  | None => w
  | Some s =>
      match objectIdToIndex s !! objectId with
      | None => w
      | Some indexToRemove =>
          let n := length (objects s) in
          let moved :=
            if ((1 <? n) && (indexToRemove <? n - 1))%nat then
              match last (objects s) with
              | Some lastObject =>
                  (<[indexToRemove := lastObject]> (objects s),
                   <[id lastObject := indexToRemove]> (objectIdToIndex s))
              | None => (objects s, objectIdToIndex s)
              end
            else (objects s, objectIdToIndex s) in
          with_state w
            (set_scene (removelast (fst moved)) (delete objectId (snd moved))
               (nextObjectId s) (needsSort s) s)
      end
  end.

(** [obj->field = ...] through the pointer [FindObject] returned, with the
    value [dirty] stored into [needsSort] when [mark] holds of the object. *)
Definition update_object (objectId : Z) (f : RenderObject F -> RenderObject F)
    (mark : RenderObject F -> bool) (w : World) : World :=
  match state w, FindObject objectId w with
  | Some s, Some i =>
      match objects s !! i with
      | Some o =>
          with_state w
            (set_scene (<[i := f o]> (objects s)) (objectIdToIndex s)
               (nextObjectId s) (if mark o then true else needsSort s) s)
      | None => w
      end
  | _, _ => w
  end.

Definition DuckerNative_SetObjectCornerRadius (objectId : Z) (radius : F) (w : World) : World :=
  update_object objectId
    (fun o =>
       if decide (type o = RoundedRect)
       then set_uniforms (<["cornerRadius" := uniform_float radius]> (uniforms o)) o
       else o)
    (fun _ => false) w.

Definition DuckerNative_SetObjectRotation (objectId : Z) (rotation : F) (w : World) : World :=
  update_object objectId (set_rotation rotation) (fun _ => false) w.

Definition DuckerNative_SetObjectRotationOrigin (objectId : Z) (origin : Vec2 F)
    (w : World) : World :=
  update_object objectId (set_rotationOrigin origin) (fun _ => false) w.

Definition DuckerNative_SetObjectRotationAndOrigin (objectId : Z) (rotation : F)
    (origin : Vec2 F) (w : World) : World :=
  update_object objectId
    (fun o => set_rotationOrigin origin (set_rotation rotation o))
    (fun _ => false) w.

Definition DuckerNative_SetObjectElevation (objectId : Z) (elevation : Z) (w : World) : World :=
  update_object objectId (set_elevation elevation) (fun _ => true) w.

Definition DuckerNative_SetObjectShader (objectId : Z) (newShaderId : Z) (w : World) : World :=
  update_object objectId
    (fun o => if shaderId o =? newShaderId then o else set_shaderId newShaderId o)
    (fun o => negb (shaderId o =? newShaderId)) w.
End SceneStore.

(** ** Uniforms, borders, containers, screen *)

Section Containers.
Context {F : Type} {FO : FloatOps F} {EX : External F}.

Definition uniform_size (t : UniformType) : nat :=
  match t with
  | UNIFORM_FLOAT => 4
  | UNIFORM_VEC2 => 8
  | UNIFORM_VEC3 => 12
  | UNIFORM_VEC4 => 16
  | UNIFORM_INT => 4
  end%nat.

(** [raw] is the memory behind [const void* data]; the first
    [uniform_size type] bytes are copied. *)
Definition DuckerNative_SetObjectUniform (objectId : Z) (name : string)
    (t : UniformType) (raw : list Z) (w : World) : World :=
  update_object objectId
    (fun o =>
       if (0 <? uniform_size t)%nat
       then set_uniforms
              (<[name := mkUniformValue t (take (uniform_size t) raw)]> (uniforms o)) o
       else o)
    (fun _ => false) w.

Definition DuckerNative_SetObjectBorder (objectId : Z) (borderWidth : F)
    (borderColor : Vec4 F) (w : World) : World :=
  update_object objectId
    (fun o =>
       let o := set_borderWidth borderWidth o in
       let o := set_borderColor borderColor o in
       set_uniforms (border_uniforms borderWidth borderColor (uniforms o)) o)
    (fun _ => false) w.

(** The rectangle [BeginContainer] pushes: [bounds] translated by the
    container offset, intersected with the parent clip when there is one,
    width and height clamped at zero. *)
Definition clip_rect (bounds : RectF F) (offset : Vec2 F)
    (parent : option (RectF F)) : RectF F :=
  let newScissor :=
    mkRectF (fadd (rx bounds) (vx offset)) (fadd (ry bounds) (vy offset))
      (rw bounds) (rh bounds) in
  let newScissor :=
    match parent with
    | Some parentScissor =>
        let r1 := fadd (rx newScissor) (rw newScissor) in
        let r2 := fadd (rx parentScissor) (rw parentScissor) in
        let b1 := fadd (ry newScissor) (rh newScissor) in
        let b2 := fadd (ry parentScissor) (rh parentScissor) in
        let x := std_max (rx newScissor) (rx parentScissor) in
        let y := std_max (ry newScissor) (ry parentScissor) in
        mkRectF x y (fsub (std_min r1 r2) x) (fsub (std_min b1 b2) y)
    | None => newScissor
    end in
  mkRectF (rx newScissor) (ry newScissor)
    (std_max f0 (rw newScissor)) (std_max f0 (rh newScissor)).

Definition DuckerNative_BeginContainer (bounds : RectF F) (w : World) : World :=
  match state w with
  | None => w
  | Some s =>
      let offset :=
        match last (containerStack s) with
        | Some top => top
        | None => mkVec2 f0 f0
        end in
      let newScissor := clip_rect bounds offset (last (scissorStack s)) in
      let newOffset :=
        mkVec2 (fadd (rx bounds) (vx offset)) (fadd (ry bounds) (vy offset)) in
      with_state w
        (set_stacks (scissorStack s ++ [newScissor])
           (containerStack s ++ [newOffset]) s)
  end.

Definition DuckerNative_EndContainer (w : World) : World :=
  match state w with
  | None => w
  | Some s =>
      match containerStack s with
      | [] => w
      | _ =>
          with_state w
            (set_stacks (removelast (scissorStack s))
               (removelast (containerStack s)) s)
      end
  end.

Definition DuckerNative_Clear (w : World) : World :=
  match state w with
  | None => w
  | Some s =>
      with_state w
        (set_stacks [] [] (set_scene [] ∅ (nextObjectId s) (needsSort s) s))
  end.

Definition projection (screenWidth screenHeight : Z) : mat4 :=
  let L := f0 in
  let R := f_of_int screenWidth in
  let B := f_of_int screenHeight in
  let T := f0 in
  [ [fdiv f2 (fsub R L); f0; f0; f0];
    [f0; fdiv f2 (fsub T B); f0; f0];
    [f0; f0; fneg f1; f0];
    [fdiv (fneg (fadd R L)) (fsub R L); fdiv (fneg (fadd T B)) (fsub T B); f0; f1] ].

(** [UpdateProjectionMatrix] followed by [ResizeFBOTextures]; the latter
    only re-allocates the storage of two textures that keep their names. *)
Definition DuckerNative_SetScreenSize (screenWidth screenHeight : Z)
    (w : World) : World :=
  match state w with
  | None => w
  | Some s =>
      with_state w
        (set_screen screenWidth screenHeight
           (projection screenWidth screenHeight) s)
  end.
End Containers.

(** ** Line geometry *)

Section Lines.
Context {F : Type} {FO : FloatOps F} {EX : External F}.

Definition f_eps6 : F := flit 8796093 (-43).     (* 1e-6f *)
Definition f_eps3 : F := flit 8589935 (-33).     (* 0.001f *)
Definition f_pi : F := flit 13176795 (-22).      (* 3.1415926535f *)
Definition num_per_segment : nat := 20.

Definition point_at (pts : list (Vec2 F)) (i : nat) : Vec2 F :=
  nth i pts (mkVec2 f0 f0).

(** [start, control points..., end]. *)
Definition line_points (start : Vec2 F) (controls : list (Vec2 F))
    (end_ : Vec2 F) : list (Vec2 F) :=
  (start :: controls) ++ [end_].

(** The control polygon of a curved line: with no control point and a
    start-to-end distance above 1e-6, one midpoint displaced
    perpendicularly by a quarter of that distance is synthesised. *)
Definition curve_polygon (start : Vec2 F) (controls : list (Vec2 F))
    (end_ : Vec2 F) : list (Vec2 F) :=
  match controls with
  | [] =>
      let dirx := fsub (vx end_) (vx start) in
      let diry := fsub (vy end_) (vy start) in
      let len := fsqrt (fadd (fmul dirx dirx) (fmul diry diry)) in
      if flt f_eps6 len then
        let perpx := fdiv (fneg diry) len in
        let perpy := fdiv dirx len in
        let midx := fdiv (fadd (vx start) (vx end_)) f2 in
        let midy := fdiv (fadd (vy start) (vy end_)) f2 in
        let quarter := fdiv len (f_of_int 4) in
        [start;
         mkVec2 (fadd midx (fmul perpx quarter)) (fadd midy (fmul perpy quarter));
         end_]
      else line_points start controls end_
  | _ => line_points start controls end_
  end.

(** One coordinate of the Catmull-Rom sample, as the source writes it. *)
Definition catmull_rom (t a0 a1 a2 a3 : F) : F :=
  let t2 := fmul t t in
  let t3 := fmul t2 t in
  let c0 := fsub (fadd (fneg t3) (fmul f2 t2)) t in
  let c1 := fadd (fsub (fmul (f_of_int 3) t3) (fmul (f_of_int 5) t2)) f2 in
  let c2 := fadd (fadd (fmul (f_of_int (-3)) t3) (fmul (f_of_int 4) t2)) t in
  let c3 := fsub t3 t2 in
  fmul f_half
    (fadd (fadd (fadd (fmul c0 a0) (fmul c1 a1)) (fmul c2 a2)) (fmul c3 a3)).

Definition curve_sample (pts : list (Vec2 F)) (i k : nat) : Vec2 F :=
  let n := length pts in
  let p0 := point_at pts (if (0 <? i)%nat then i - 1 else 0)%nat in
  let p1 := point_at pts i in
  let p2 := point_at pts (i + 1) in
  let p3 := point_at pts (if (i + 1 <? n - 1)%nat then i + 2 else n - 1)%nat in
  let t := fdiv (f_of_int (Z.of_nat k))
                (f_of_int (Z.of_nat (num_per_segment - 1))) in
  mkVec2 (catmull_rom t (vx p0) (vx p1) (vx p2) (vx p3))
         (catmull_rom t (vy p0) (vy p1) (vy p2) (vy p3)).

(** The samples in the order the two nested loops push them. *)
Definition curve_samples (pts : list (Vec2 F)) : list (Vec2 F) :=
  flat_map (fun i => map (curve_sample pts i) (seq 0 num_per_segment))
           (seq 0 (length pts - 1)).

(** [if (!points.empty()) points.back() = end]. *)
Definition force_back (pts : list (Vec2 F)) (end_ : Vec2 F) : list (Vec2 F) :=
  match pts with
  | [] => []
  | _ => removelast pts ++ [end_]
  end.

(** The point sequence both [AddLine] (as [approx_points]) and
    [RenderObjects] (as [points]) build for a line. *)
Definition tessellate (mode : LineMode) (start : Vec2 F)
    (controls : list (Vec2 F)) (end_ : Vec2 F) : list (Vec2 F) :=
  match mode with
  | Straight => line_points start controls end_
  | Curved =>
      force_back (curve_samples (curve_polygon start controls end_)) end_
  end.

(** [int num_segments = points.size() > 1 ? points.size() - 1 : 0]. *)
Definition num_segments (pts : list (Vec2 F)) : Z :=
  if (1 <? length pts)%nat then wrap_int32 (Z.of_nat (length pts) - 1) else 0.

(** The running extent [minX, maxX, minY, maxY]. *)
Record Extent := mkExtent { minX : F; maxX : F; minY : F; maxY : F }.

Definition extend (e : Extent) (p : Vec2 F) : Extent :=
  mkExtent (std_min (minX e) (vx p)) (std_max (maxX e) (vx p))
           (std_min (minY e) (vy p)) (std_max (maxY e) (vy p)).

Definition extent_of (start : Vec2 F) (pts : list (Vec2 F)) : Extent :=
  fold_left extend pts (mkExtent (vx start) (vx start) (vy start) (vy start)).

Definition line_bounds (e : Extent) (width : F) : RectF F :=
  mkRectF (fsub (minX e) (fdiv width f2)) (fsub (minY e) (fdiv width f2))
          (fadd (fsub (maxX e) (minX e)) width)
          (fadd (fsub (maxY e) (minY e)) width).

(** The object [AddLine] hands to [AddObjectInternal].  [controls] is the
    array of [numControls] points.  In curved mode the extent runs over the
    samples as computed, before the last one is replaced by [end]. *)
Definition line_object (start end_ : Vec2 F) (color : Vec4 F) (width : F)
    (mode : LineMode) (controls : list (Vec2 F)) (zIndex : Z) : RenderObject F :=
  let obj := set_type Line RenderObject_default in
  let obj := set_start start obj in
  let obj := set_end end_ obj in
  let obj := set_lineWidth width obj in
  let obj := set_lineMode mode obj in
  let obj := set_color color obj in
  let obj := set_zIndex zIndex obj in
  let obj := set_textureId 0 obj in
  let obj := set_controlPoints controls obj in
  let obj := set_rotation f0 obj in
  let obj := set_rotationOrigin (mkVec2 f_half f_half) obj in
  let measured :=
    match mode with
    | Straight => line_points start controls end_
    | Curved => curve_samples (curve_polygon start controls end_)
    end in
  let obj :=
    set_triCount
      (wrap_int32 (num_segments (tessellate mode start controls end_) * 2)) obj in
  set_bounds (line_bounds (extent_of start measured) width) obj.

Definition DuckerNative_AddLine (start end_ : Vec2 F) (color : Vec4 F)
    (width : F) (mode : LineMode) (controls : list (Vec2 F)) (zIndex : Z)
    (w : World) : World * Z :=
  match state w with
  | None => (w, 0)
  | Some _ =>
      AddObjectInternal
        (line_object start end_ color width mode controls zIndex) w
  end.
End Lines.

(** ** Sorting and rendering *)

Section Batcher.
Context {F : Type} {FO : FloatOps F} {EX : External F}.

(** [memcmp]: the sign of the first differing byte pair. *)
Fixpoint memcmp (a b : list Z) : Z :=
  match a, b with
  | x :: a', y :: b' => if x =? y then memcmp a' b' else x - y
  | _, _ => 0
  end.

(** The shader a batch is drawn with: the override when set, else 5 for a
    line and [type + 1] for the other shapes. *)
Definition effective_shader (o : RenderObject F) : Z :=
  if negb (shaderId o =? 0) then shaderId o
  else if decide (type o = Line) then 5
  else wrap_uint32 (ObjectType_to_Z (type o) + 1).

(** The comparator handed to [std::sort] in [Render]. *)
Definition sort_less (a b : RenderObject F) : bool :=
  if negb (zIndex a =? zIndex b) then zIndex a <? zIndex b
  else
    let shader_a := effective_shader a in
    let shader_b := effective_shader b in
    if negb (shader_a =? shader_b) then shader_a <? shader_b
    else if negb (textureId a =? textureId b) then textureId a <? textureId b
    else
      let by_clip :=
        memcmp (bytes_rect (scissorRect a)) (bytes_rect (scissorRect b)) <? 0 in
      if decide (type a = Line /\ type b = Line) then
        if negb (LineMode_to_Z (lineMode a) =? LineMode_to_Z (lineMode b))
        then LineMode_to_Z (lineMode a) <? LineMode_to_Z (lineMode b)
        else if negb (feq (lineWidth a) (lineWidth b))
        then flt (lineWidth a) (lineWidth b)
        else by_clip
      else by_clip.

(** [std::sort] fixes the result only up to the order of equivalent
    elements; the embedding takes insertion sort, which is one of the
    orders it may produce. *)
Fixpoint sort_insert {A} (less : A -> A -> bool) (x : A) (l : list A) : list A :=
  match l with
  | [] => [x]
  | y :: l' => if less y x then y :: sort_insert less x l' else x :: l
  end.

Definition std_sort {A} (less : A -> A -> bool) (l : list A) : list A :=
  fold_right (sort_insert less) [] l.

(** [for (i...) objectIdToIndex[objects[i].id] = i]. *)
Fixpoint rebuild_index (i : nat) (objs : list (RenderObject F))
    (m : gmap Z nat) : gmap Z nat :=
  match objs with
  | [] => m
  | o :: rest => rebuild_index (S i) rest (<[id o := i]> m)
  end.

(** What [Render] does to the engine state: the lazy resort.  The draw
    calls that follow read the state and write only to the GL context. *)
Definition DuckerNative_Render (w : World) : World :=
  match state w with
  | None => w
  | Some s =>
      match objects s with
      | [] => w
      | _ =>
          if needsSort s then
            let sorted := std_sort sort_less (objects s) in
            with_state w
              (set_scene sorted (rebuild_index 0 sorted (objectIdToIndex s))
                 (nextObjectId s) false s)
          else w
      end
  end.

(** *** The Gaussian kernel of [ApplyGaussianBlurAndComposite] *)






End Batcher.

(** ** Resources: shaders, textures, fonts, text *)

(** The result of a loop the embedding runs on fuel: [Undefined] is undefined
    behaviour of the source (a read past the terminating NUL). *)
Inductive Outcome (A : Type) := Done (a : A) | Undefined | OutOfFuel.
Arguments Done {A}.
Arguments Undefined {A}.
Arguments OutOfFuel {A}.

Section Resources.
Context {F : Type} {FO : FloatOps F} {EX : External F}.

Definition CreateShaderProgramInternal (vsSrc fsSrc : ShaderSource)
    (g : GLContext) : ShaderProgram * GLContext :=
  if shader_links vsSrc fsSrc then
    let '(name, g) := glGen g in (mkShaderProgram name, g)
  else (mkShaderProgram 0, g).

Definition DuckerNative_CreateShader (fragmentShaderSource : string)
    (w : World) : World * Z :=
  match state w with
  | None => (w, 0)
  | Some s =>
      let '(prog, g) :=
        CreateShaderProgramInternal UNIVERSAL_VS_SRC
          (CustomSource fragmentShaderSource) (gl w) in
      if program_id prog =? 0 then (mkWorld (Some s) g, 0)
      else
        let k := nextCustomShaderId s in
        (mkWorld
           (Some (set_shaders (wrap_uint32 (k + 1)) (<[k := prog]> (shaders s)) s))
           g, k)
  end.

Definition DuckerNative_DeleteShader (shaderId : Z) (w : World) : World :=
  match state w with
  | None => w
  | Some s =>
      if shaderId <? 100 then w
      else
        match shaders s !! shaderId with
        | Some prog =>
            mkWorld
              (Some (set_shaders (nextCustomShaderId s) (delete shaderId (shaders s)) s))
              (glDelete (program_id prog) (gl w))
        | None => w
        end
  end.

(** [LoadTexture] never reads [state].  The result is the texture name and,
    when the file decodes, the width and height written through
    [outWidth] and [outHeight]. *)
Definition DuckerNative_LoadTexture (filepath : string) (w : World)
    : World * (Z * option (Z * Z)) :=
  match stbi_load filepath with
  | None => (w, (0, None))
  | Some (width, height, nrChannels) =>
      let '(textureID, g) := glGen (gl w) in
      (mkWorld (state w) g, (textureID, Some (width, height)))
  end.

Definition DuckerNative_DeleteTexture (textureId : Z) (w : World) : World :=
  if 0 <? textureId then mkWorld (state w) (glDelete textureId (gl w)) else w.

Definition DuckerNative_LoadFont (filepath : string) (size : F)
    (w : World) : World * Z :=
  match state w with
  | None => (w, 0)
  | Some s =>
      match load_font_atlas filepath size with
      | None => (w, 0)
      | Some table =>
          let '(tex, g) := glGen (gl w) in
          let font := mkFont size table tex 4096 4096 in
          let fontId := nextFontId s in
          (mkWorld
             (Some (set_fonts (wrap_uint32 (fontId + 1))
                      (<[fontId := font]> (fonts s)) s))
             g, fontId)
      end
  end.

Definition DuckerNative_DeleteFont (fontId : Z) (w : World) : World :=
  match state w with
  | None => w
  | Some s =>
      match fonts s !! fontId with
      | Some font =>
          mkWorld (Some (set_fonts (nextFontId s) (delete fontId (fonts s)) s))
                  (glDelete (font_textureId font) (gl w))
      | None => w
      end
  end.

(** *** UTF-8 *)

(** The C string held in a buffer: the bytes before the first NUL. *)
Fixpoint c_str (raw : list Z) : list Z :=
  match raw with
  | [] => []
  | b :: rest => if b =? 0 then [] else b :: c_str rest
  end.

(** [s[i]] of a NUL-terminated string given by its bytes before the NUL;
    the byte just after them is the terminator. *)
Definition byte_at (p : list Z) (i : nat) : Z := nth i p 0.

(** The code point at [p] and the number of bytes [p] advances by. *)
Definition utf8_to_codepoint (p : list Z) : Z * nat :=
  let s0 := byte_at p 0 in
  let s1 := byte_at p 1 in
  let s2 := byte_at p 2 in
  let s3 := byte_at p 3 in
  if s0 <? 128 then (s0, 1%nat)
  else if Z.land s0 224 =? 192 then
    (Z.lor (Z.shiftl (Z.land s0 31) 6) (Z.land s1 63), 2%nat)
  else if Z.land s0 240 =? 224 then
    (Z.lor (Z.lor (Z.shiftl (Z.land s0 15) 12) (Z.shiftl (Z.land s1 63) 6))
           (Z.land s2 63), 3%nat)
  else if Z.land s0 248 =? 240 then
    (Z.lor (Z.lor (Z.lor (Z.shiftl (Z.land s0 7) 18) (Z.shiftl (Z.land s1 63) 12))
                  (Z.shiftl (Z.land s2 63) 6))
           (Z.land s3 63), 4%nat)
  else (63, 1%nat).

(** The slot of a code point in the glyph table, [-1] when the atlas has
    no glyph for it (only U+0020..U+007F and U+0400..U+04FF are packed). *)
Definition glyph_index (codepoint : Z) : Z :=
  if (32 <=? codepoint) && (codepoint <? 128) then codepoint - 32
  else if (1024 <=? codepoint) && (codepoint <=? 1279)
  then 96 + (codepoint - 1024)
  else -1.

(** The [Glyph] object [DrawText] builds from the quad of one character. *)
Definition glyph_object (font : Font) (q : stbtt_aligned_quad F)
    (position : Vec2 F) (color : Vec4 F) (zIndex : Z) (cos_a sin_a : F)
    (origin : Vec2 F) : RenderObject F :=
  let px := vx position in
  let py := vy position in
  let rot_x0 := fsub (fsub (qx0 q) px) (vx origin) in
  let rot_y0 := fsub (fsub (qy0 q) py) (vy origin) in
  let rot_x1 := fsub (fsub (qx1 q) px) (vx origin) in
  let rot_y1 := fsub (fsub (qy1 q) py) (vy origin) in
  let turn rx0 ry0 :=
    mkVec2
      (fadd (fadd (fsub (fmul rx0 cos_a) (fmul ry0 sin_a)) px) (vx origin))
      (fadd (fadd (fadd (fmul rx0 sin_a) (fmul ry0 cos_a)) py) (vy origin)) in
  let v0 := turn rot_x0 rot_y0 in
  let v1 := turn rot_x1 rot_y0 in
  let v2 := turn rot_x1 rot_y1 in
  let v3 := turn rot_x0 rot_y1 in
  let obj := set_type Glyph RenderObject_default in
  let obj :=
    set_bounds
      (mkRectF (vx v0) (vy v0) (fsub (vx v1) (vx v0)) (fsub (vy v3) (vy v0))) obj in
  let obj := set_uvRect (mkRectF (qs0 q) (qt0 q) (qs1 q) (qt1 q)) obj in
  let u := <["v0" := uniform_vec2 v0]> (uniforms obj) in
  let u := <["v1" := uniform_vec2 v1]> u in
  let u := <["v2" := uniform_vec2 v2]> u in
  let u := <["v3" := uniform_vec2 v3]> u in
  let obj := set_uniforms u obj in
  let obj := set_color color obj in
  let obj := set_zIndex zIndex obj in
  set_textureId (font_textureId font) obj.

(** The [while] loop of [DrawText], which runs until [*p] is NUL; [p] is the rest of the string and
    [x], [y] the pen position [stbtt_GetPackedQuad] advances. *)
Fixpoint DrawText_loop (fuel : nat) (font : Font) (position : Vec2 F)
    (color : Vec4 F) (zIndex : Z) (cos_a sin_a : F) (origin : Vec2 F)
    (p : list Z) (x y : F) (w : World) : Outcome World :=
  match p with
  | [] => Done w
  | _ :: _ =>
      match fuel with
      | O => OutOfFuel
      | S fuel' =>
          let '(codepoint, n) := utf8_to_codepoint p in
          (* p + n lies beyond the terminator: the next read is out of bounds *)
          if (length p <? n)%nat then Undefined
          else
            let index := glyph_index codepoint in
            if index =? -1 then
              DrawText_loop fuel' font position color zIndex cos_a sin_a origin
                (drop n p) x y w
            else
              let '(q, x', y') :=
                stbtt_GetPackedQuad (char_data font) (atlasWidth font)
                  (atlasHeight font) index x y false in
              let obj :=
                glyph_object font q position color zIndex cos_a sin_a origin in
              DrawText_loop fuel' font position color zIndex cos_a sin_a origin
                (drop n p) x' y' (fst (AddObjectInternal obj w))
      end
  end.

(** [text] is [None] for a null pointer, else the buffer it points to. *)
Definition DuckerNative_DrawText (fontId : Z) (text : option (list Z))
    (position : Vec2 F) (color : Vec4 F) (zIndex : Z) (rotation : F)
    (origin : Vec2 F) (w : World) : Outcome World :=
  match state w, text with
  | Some s, Some bytes =>
      match fonts s !! fontId with
      | None => Done w
      | Some font =>
          let angle := fdiv (fmul rotation f_pi) (f_of_int 180) in
          DrawText_loop (length (c_str bytes)) font position color zIndex
            (cosf angle) (sinf angle) origin (c_str bytes)
            (vx position) (vy position) w
      end
  | _, _ => Done w
  end.

Fixpoint GetTextSize_loop (fuel : nat) (font : Font) (p : list Z)
    (x y min_y max_y : F) : Outcome (Vec2 F) :=
  match p with
  | [] => Done (mkVec2 x (fsub max_y min_y))
  | _ :: _ =>
      match fuel with
      | O => OutOfFuel
      | S fuel' =>
          let '(codepoint, n) := utf8_to_codepoint p in
          (* p + n lies beyond the terminator: the next read is out of bounds *)
          if (length p <? n)%nat then Undefined
          else
            let index := glyph_index codepoint in
            if index =? -1 then GetTextSize_loop fuel' font (drop n p) x y min_y max_y
            else
              let '(q, x', y') :=
                stbtt_GetPackedQuad (char_data font) (atlasWidth font)
                  (atlasHeight font) index x y true in
              GetTextSize_loop fuel' font (drop n p) x' y'
                (if flt (qy0 q) min_y then qy0 q else min_y)
                (if flt max_y (qy1 q) then qy1 q else max_y)
      end
  end.

(** [GetTextSize] dereferences [text] without a null check once the font
    is found. *)
Definition DuckerNative_GetTextSize (fontId : Z) (text : option (list Z))
    (w : World) : Outcome (Vec2 F) :=
  match state w with
  | None => Done (mkVec2 f0 f0)
  | Some s =>
      match fonts s !! fontId with
      | None => Done (mkVec2 f0 f0)
      | Some font =>
          match text with
          | None => Undefined
          | Some bytes =>
              GetTextSize_loop (length (c_str bytes)) font (c_str bytes) f0 f0 f0 f0
          end
      end
  end.
End Resources.

(** ** Lifecycle and the external interface *)

Section Interface.
Context {F : Type} {FO : FloatOps F} {EX : External F}.

Definition shadow_layer (opacity : F) (yOffset blurRadius spread : Z)
    : ShadowLayer F :=
  mkShadowLayer opacity (f_of_int yOffset) (f_of_int blurRadius) (f_of_int spread).

Definition f_020 : F := flit 13421773 (-26).     (* 0.20f *)
Definition f_014 : F := flit 9395241 (-26).      (* 0.14f *)
Definition f_012 : F := flit 16106127 (-27).     (* 0.12f *)

(** The Material elevation presets [Initialize] fills in:
    umbra, penumbra and ambient layer of each level. *)
Definition preset (u p a : Z * Z * Z) : list (ShadowLayer F) :=
  [ shadow_layer f_020 (fst (fst u)) (snd (fst u)) (snd u);
    shadow_layer f_014 (fst (fst p)) (snd (fst p)) (snd p);
    shadow_layer f_012 (fst (fst a)) (snd (fst a)) (snd a) ].

Definition initial_presets : gmap Z (list (ShadowLayer F)) :=
  <[5 := preset (3, 5, -1) (5, 8, 0) (1, 14, 0)]>
  (<[4 := preset (2, 4, -1) (4, 5, 0) (1, 10, 0)]>
  (<[3 := preset (3, 3, -2) (3, 4, 0) (1, 8, 0)]>
  (<[2 := preset (3, 1, -2) (2, 2, 0) (1, 5, 0)]>
  (<[1 := preset (2, 1, -1) (1, 1, 0) (1, 3, 0)]>
  (<[0 := []]> ∅))))).

Definition DuckerNative_Initialize (screenWidth screenHeight : Z)
    (w : World) : World :=
  match state w with
  | Some _ => w
  | None =>
      let g := gl w in
      let '(s1, g) := CreateShaderProgramInternal UNIVERSAL_VS_SRC RECT_FS_SRC g in
      let '(s2, g) :=
        CreateShaderProgramInternal UNIVERSAL_VS_SRC ROUNDED_RECT_FS_SRC g in
      let '(s3, g) := CreateShaderProgramInternal UNIVERSAL_VS_SRC CIRCLE_FS_SRC g in
      let '(s4, g) := CreateShaderProgramInternal UNIVERSAL_VS_SRC GLYPH_FS_SRC g in
      let '(s5, g) := CreateShaderProgramInternal UNIVERSAL_VS_SRC LINE_FS_SRC g in
      let '(bh, g) :=
        CreateShaderProgramInternal QUAD_VS_SRC HORIZONTAL_BLUR_FS_SRC g in
      let '(bv, g) :=
        CreateShaderProgramInternal QUAD_VS_SRC VERTICAL_BLUR_FS_SRC g in
      let '(vao, g) := glGen g in
      let '(vbo, g) := glGen g in
      let '(quadVAO, g) := glGen g in
      let '(quadVBO, g) := glGen g in
      let '(shadowFBO, g) := glGen g in
      let '(shadowTexture, g) := glGen g in
      let '(intermediateFBO, g) := glGen g in
      let '(intermediateTexture, g) := glGen g in
      let sh :=
        <[5 := s5]> (<[4 := s4]> (<[3 := s3]> (<[2 := s2]> (<[1 := s1]> ∅)))) in
      let s :=
        mkState 0 0 vao vbo [] 100 sh 1 ∅ [] ∅ 1 false [] []
          shadowFBO shadowTexture intermediateFBO intermediateTexture
          bh bv quadVAO quadVBO initial_presets in
      DuckerNative_SetScreenSize screenWidth screenHeight (mkWorld (Some s) g)
  end.

Definition nonzero_names (names : list Z) : list Z :=
  filter (fun n => n ≠ 0) names.

Definition DuckerNative_Shutdown (w : World) : World :=
  match state w with
  | None => w
  | Some s =>
      let font_textures := map (fun kv => font_textureId (snd kv)) (map_to_list (fonts s)) in
      let programs := map (fun kv => program_id (snd kv)) (map_to_list (shaders s)) in
      let owned :=
        font_textures ++
        nonzero_names
          (programs ++
           [program_id (blurHorizontal s); program_id (blurVertical s);
            vao s; vbo s; quadVAO s; quadVBO s;
            shadowFBO s; shadowTexture s;
            intermediateFBO s; intermediateTexture s]) in
      mkWorld None (fold_right glDelete (gl w) owned)
  end.

(** The calls of the external interface and what they return. *)
Inductive Call :=
| Initialize (screenWidth screenHeight : Z)
| Shutdown
| Render
| SetScreenSize (screenWidth screenHeight : Z)
| Clear
| AddRect (bounds : RectF F) (color : Vec4 F) (zIndex textureId : Z)
    (uvRect : RectF F) (borderWidth : F) (borderColor : Vec4 F)
| AddRoundedRect (bounds : RectF F) (shapeSize : Vec2 F) (color : Vec4 F)
    (cornerRadius blur : F) (inset : bool) (zIndex textureId : Z)
    (uvRect : RectF F) (borderWidth : F) (borderColor : Vec4 F)
| AddCircle (bounds : RectF F) (color : Vec4 F) (radius blur : F)
    (inset : bool) (zIndex textureId : Z) (borderWidth : F)
    (borderColor : Vec4 F)
| AddLine (start end_ : Vec2 F) (color : Vec4 F) (width : F)
    (mode : LineMode) (controls : list (Vec2 F)) (zIndex : Z)
| RemoveObject (objectId : Z)
| LoadFont (filepath : string) (size : F)
| DrawText (fontId : Z) (text : option (list Z)) (position : Vec2 F)
    (color : Vec4 F) (zIndex : Z) (rotation : F) (origin : Vec2 F)
| GetTextSize (fontId : Z) (text : option (list Z))
| DeleteFont (fontId : Z)
| LoadTexture (filepath : string)
| DeleteTexture (textureId : Z)
| CreateShader (fragmentShaderSource : string)
| SetObjectBorder (objectId : Z) (borderWidth : F) (borderColor : Vec4 F)
| DeleteShader (shaderId : Z)
| SetObjectShader (objectId shaderId : Z)
| SetObjectUniform (objectId : Z) (name : string) (t : UniformType) (raw : list Z)
| SetObjectCornerRadius (objectId : Z) (radius : F)
| SetObjectRotation (objectId : Z) (rotation : F)
| SetObjectRotationOrigin (objectId : Z) (origin : Vec2 F)
| SetObjectRotationAndOrigin (objectId : Z) (rotation : F) (origin : Vec2 F)
| SetObjectElevation (objectId elevation : Z)
| BeginContainer (bounds : RectF F)
| EndContainer.

Inductive Result :=
| RVoid
| RId (k : Z)
| RSize (v : Vec2 F)
| RTexture (k : Z) (dims : option (Z * Z))
| RUndefined.

Definition returning_id (r : World * Z) : World * Result := (fst r, RId (snd r)).

Definition exec (c : Call) (w : World) : World * Result :=
  match c with
  | Initialize sw sh => (DuckerNative_Initialize sw sh w, RVoid)
  | Shutdown => (DuckerNative_Shutdown w, RVoid)
  | Render => (DuckerNative_Render w, RVoid)
  | SetScreenSize sw sh => (DuckerNative_SetScreenSize sw sh w, RVoid)
  | Clear => (DuckerNative_Clear w, RVoid)
  | AddRect b c z t uv bw bc =>
      returning_id (DuckerNative_AddRect b c z t uv bw bc w)
  | AddRoundedRect b ss c cr bl ins z t uv bw bc =>
      returning_id (DuckerNative_AddRoundedRect b ss c cr bl ins z t uv bw bc w)
  | AddCircle b c r bl ins z t bw bc =>
      returning_id (DuckerNative_AddCircle b c r bl ins z t bw bc w)
  | AddLine s e c wd m cs z =>
      returning_id (DuckerNative_AddLine s e c wd m cs z w)
  | RemoveObject k => (DuckerNative_RemoveObject k w, RVoid)
  | LoadFont path sz => returning_id (DuckerNative_LoadFont path sz w)
  | DrawText f t p c z r o =>
      match DuckerNative_DrawText f t p c z r o w with
      | Done w' => (w', RVoid)
      | _ => (w, RUndefined)
      end
  | GetTextSize f t =>
      match DuckerNative_GetTextSize f t w with
      | Done v => (w, RSize v)
      | _ => (w, RUndefined)
      end
  | DeleteFont k => (DuckerNative_DeleteFont k w, RVoid)
  | LoadTexture path =>
      let r := DuckerNative_LoadTexture path w in
      (fst r, RTexture (fst (snd r)) (snd (snd r)))
  | DeleteTexture k => (DuckerNative_DeleteTexture k w, RVoid)
  | CreateShader src => returning_id (DuckerNative_CreateShader src w)
  | SetObjectBorder k bw bc => (DuckerNative_SetObjectBorder k bw bc w, RVoid)
  | DeleteShader k => (DuckerNative_DeleteShader k w, RVoid)
  | SetObjectShader k sh => (DuckerNative_SetObjectShader k sh w, RVoid)
  | SetObjectUniform k n t raw => (DuckerNative_SetObjectUniform k n t raw w, RVoid)
  | SetObjectCornerRadius k r => (DuckerNative_SetObjectCornerRadius k r w, RVoid)
  | SetObjectRotation k r => (DuckerNative_SetObjectRotation k r w, RVoid)
  | SetObjectRotationOrigin k o => (DuckerNative_SetObjectRotationOrigin k o w, RVoid)
  | SetObjectRotationAndOrigin k r o =>
      (DuckerNative_SetObjectRotationAndOrigin k r o w, RVoid)
  | SetObjectElevation k e => (DuckerNative_SetObjectElevation k e w, RVoid)
  | BeginContainer b => (DuckerNative_BeginContainer b w, RVoid)
  | EndContainer => (DuckerNative_EndContainer w, RVoid)
  end.

(** The value a call returns when it does nothing. *)
Definition sentinel (c : Call) : Result :=
  match c with
  | AddRect _ _ _ _ _ _ _ | AddRoundedRect _ _ _ _ _ _ _ _ _ _ _
  | AddCircle _ _ _ _ _ _ _ _ _ | AddLine _ _ _ _ _ _ _
  | LoadFont _ _ | CreateShader _ => RId 0
  | GetTextSize _ _ => RSize (mkVec2 f0 f0)
  | LoadTexture _ => RTexture 0 None
  | _ => RVoid
  end.

(** The calls that read the engine pointer before anything else. *)
Definition consults_state (c : Call) : bool :=
  match c with
  | Initialize _ _ | LoadTexture _ | DeleteTexture _ => false
  | _ => true
  end.

Definition run (cs : list Call) (w : World) : World :=
  fold_left (fun w c => fst (exec c w)) cs w.
End Interface.

(** ** Observers and drivers used to state the properties *)

Section Observers.
Context {F : Type} {FO : FloatOps F} {EX : External F}.

(** The object pool and the id-to-slot map of a world ([nullptr]: none). *)
Definition pool (w : World) : list (RenderObject F) :=
  match state w with Some s => objects s | None => [] end.

Definition slots (w : World) : gmap Z nat :=
  match state w with Some s => objectIdToIndex s | None => ∅ end.

Definition dirty (w : World) : bool :=
  match state w with Some s => needsSort s | None => false end.

Definition clip_stack (w : World) : list (RectF F) :=
  match state w with Some s => scissorStack s | None => [] end.

Definition offset_stack (w : World) : list (Vec2 F) :=
  match state w with Some s => containerStack s | None => [] end.

Definition next_id (w : World) : Z :=
  match state w with Some s => nextObjectId s | None => 0 end.

(** The process before [Initialize]: no engine, an unused GL context. *)
Definition boot : World := mkWorld None (mkGL 1 []).

(** The clip rectangle an insertion captures, and the object it stores. *)
Definition current_clip (s : RendererState) : RectF F :=
  match last (scissorStack s) with
  | Some top => top
  | None => full_screen s
  end.

Definition stored (s : RendererState) (o : RenderObject F) : RenderObject F :=
  set_id (nextObjectId s) (set_scissorRect (current_clip s) o).

(** What an id resolves to: the object behind [FindObject]'s pointer. *)
Definition resolve (k : Z) (w : World) : option (RenderObject F) :=
  deref w (FindObject k w).

Definition screen_size (w : World) : Z * Z :=
  match state w with
  | Some s => (screenWidth s, screenHeight s)
  | None => (0, 0)
  end.

(** The font registered under an id, if the engine is up and has one. *)
Definition loaded_font (fontId : Z) (w : World) : option Font :=
  match state w with
  | Some s => fonts s !! fontId
  | None => None
  end.

(** A run of [Add] calls, each going through [AddObjectInternal], with the
    ids they return. *)
Fixpoint add_all (objs : list (RenderObject F)) (w : World) : World * list Z :=
  match objs with
  | [] => (w, [])
  | o :: rest =>
      let '(w1, k) := AddObjectInternal o w in
      let '(w2, ks) := add_all rest w1 in
      (w2, k :: ks)
  end.

Definition remove_all (ks : list Z) (w : World) : World :=
  fold_left (fun w k => DuckerNative_RemoveObject k w) ks w.

(** The pool is consistent with the map: every slot is indexed under the
    id of the object it holds, and every map entry designates such a slot. *)
Definition store_wf (w : World) : Prop :=
  (forall i o, pool w !! i = Some o -> slots w !! id o = Some i) /\
  (forall k i, slots w !! k = Some i ->
               exists o, pool w !! i = Some o /\ id o = k).

(** A freshly initialised (or cleared-at-start) engine: nothing stored yet,
    ids start at 1. *)
Definition fresh (w : World) : Prop :=
  is_Some (state w) /\ pool w = [] /\ slots w = ∅ /\ next_id w = 1.
End Observers.

(** ** Notions the properties are stated with *)

(** [val] reads the floats of [FO] as rationals and every operation is exact:
    no rounding, no NaN, no infinity.  [fsqrt] and the libm functions are
    left unconstrained. *)
Record Exact {F : Type} (FO : FloatOps F) (val : F -> Q) : Prop := {
  val_of_int : forall z, (val (f_of_int z) == inject_Z z)%Q;
  val_to_int : forall a, f_to_int a = ExactQ.to_int (val a);
  val_neg : forall a, (val (fneg a) == - val a)%Q;
  val_add : forall a b, (val (fadd a b) == val a + val b)%Q;
  val_sub : forall a b, (val (fsub a b) == val a - val b)%Q;
  val_mul : forall a b, (val (fmul a b) == val a * val b)%Q;
  val_div : forall a b, (~ val b == 0 -> val (fdiv a b) == val a / val b)%Q;
  val_lt : forall a b, flt a b = true <-> (val a < val b)%Q;
  val_eq : forall a b, feq a b = true <-> (val a == val b)%Q
}.

Section Notions.
Context {F : Type} {FO : FloatOps F} {EX : External F}.

(** A strict weak order, as [std::sort] requires of its comparator. *)
Definition strict_weak_order {A : Type} (less : A -> A -> bool) : Prop :=
  (forall a, less a a = false) /\
  (forall a b c, less a b = true -> less b c = true -> less a c = true) /\
  (forall a b c,
     less a b = false -> less b a = false ->
     less b c = false -> less c b = false ->
     less a c = false /\ less c a = false).



(** The pool is in draw order when no object precedes one it should
    follow. *)
Definition in_draw_order (objs : list (RenderObject F)) : Prop :=
  forall i j a b, (i < j)%nat -> objs !! i = Some a -> objs !! j = Some b ->
                  sort_less b a = false.







(** The code points [utf8_to_codepoint] decodes from a string, in order. *)
Fixpoint codepoints (fuel : nat) (p : list Z) : Outcome (list Z) :=
  match p with
  | [] => Done []
  | _ :: _ =>
      match fuel with
      | O => OutOfFuel
      | S fuel' =>
          let '(codepoint, n) := utf8_to_codepoint p in
          if (length p <? n)%nat then Undefined
          else
            match codepoints fuel' (drop n p) with
            | Done rest => Done (codepoint :: rest)
            | other => other
            end
      end
  end.

Definition utf8_decode (text : list Z) : Outcome (list Z) :=
  codepoints (length (c_str text)) (c_str text).

Definition in_atlas (codepoint : Z) : bool := negb (glyph_index codepoint =? -1).

Definition is_container_call (c : @Call F) : bool :=
  match c with
  | BeginContainer _ | EndContainer => true
  | _ => false
  end.

(** [m] is a least (greatest) element of [xs] for the comparison [flt]. *)
Definition is_min_of (m : F) (xs : list F) : Prop :=
  m ∈ xs /\ forall x, x ∈ xs -> flt x m = false.

Definition is_max_of (m : F) (xs : list F) : Prop :=
  m ∈ xs /\ forall x, x ∈ xs -> flt m x = false.
End Notions.



(** ** Stand-ins for the collaborators

    They let the engine run on concrete inputs: every file but [missing.*]
    loads, every shader links, every glyph is 8 by 16. *)
Module Stub.
Section Any.
Context {F : Type} {FO : FloatOps F}.

Definition quad (x y : F) : stbtt_aligned_quad F :=
  mkQuad x y (f_of_int 0) (f_of_int 0)
         (fadd x (f_of_int 8)) (fadd y (f_of_int 16)) (f_of_int 1) (f_of_int 1).

Definition collaborators : External F := {|
  expf := fun x => f_of_int 1;
  cosf := fun _ => f_of_int 1;
  sinf := fun _ => f_of_int 0;
  packedchars := unit;
  stbtt_GetPackedQuad := fun _ _ _ _ x y _ => (quad x y, fadd x (f_of_int 8), y);
  load_font_atlas :=
    fun path _ => if String.eqb path "missing.ttf" then None else Some tt;
  stbi_load :=
    fun path => if String.eqb path "missing.png" then None
                else Some (64, 64, 4);
  shader_links := fun _ _ => true
|}.
End Any.
End Stub.

(** A binary32 clip rectangle whose width and height are [+0] or positive
    (in particular not NaN). *)
Definition nonneg32 (x : spec_float) : Prop :=
  x = S754_zero false \/ SFltb (S754_zero false) x = true.

Definition clip_nonneg32 (r : RectF spec_float) : Prop :=
  nonneg32 (rw r) /\ nonneg32 (rh r).

(** ** Concrete inputs *)

Section Scenes.
#[local] Existing Instance Stub.collaborators.

Definition fi (z : Z) : spec_float := f_of_int z.
Definition rect (x y w h : Z) : RectF spec_float :=
  mkRectF (fi x) (fi y) (fi w) (fi h).
Definition white : Vec4 spec_float := mkVec4 (fi 1) (fi 1) (fi 1) (fi 1).
Definition no_colour : Vec4 spec_float := mkVec4 (fi 0) (fi 0) (fi 0) (fi 0).
Definition pt (x y : Z) : Vec2 spec_float := mkVec2 (fi x) (fi y).

(** The engine right after [initialize(800, 600)]. *)
Definition started : @World spec_float Stub.collaborators :=
  DuckerNative_Initialize 800 600 boot.

Definition three_objects : list (RenderObject spec_float) :=
  [set_zIndex 0 RenderObject_default; set_zIndex 1 RenderObject_default;
   set_zIndex 2 RenderObject_default].

(** Two lines of width 1 and 2 and a rectangle drawn with the line shader,
    all on layer 0 without texture, each inside its own container. *)
Definition mixed_batch : list (@Call spec_float) :=
  [ Initialize 800 600;
    BeginContainer (rect 1 0 10 10);
    AddLine (pt 0 0) (pt 5 5) white (fi 1) Straight [] 0;
    EndContainer;
    BeginContainer (rect 2 0 10 10);
    AddLine (pt 0 0) (pt 5 5) white (fi 2) Straight [] 0;
    EndContainer;
    BeginContainer (rect 3 0 10 10);
    AddRect (rect 0 0 5 5) white 0 0 (rect 0 0 1 1) (fi 0) no_colour;
    EndContainer;
    SetObjectShader 3 5 ].

Definition layered (z : Z) : @Call spec_float :=
  AddRect (rect 0 0 5 5) white z 0 (rect 0 0 1 1) (fi 0) no_colour.

(** Three rectangles on layers 0, 1, 2, a frame, then the first removed. *)
Definition remove_after_render : list (@Call spec_float) :=
  [ Initialize 800 600; layered 0; layered 1; layered 2; Render; RemoveObject 1 ].

(** Three objects inserted on layers 2, 1, 0: a pool waiting for a sort. *)
Definition w_unsorted : World := fst (add_all (rev three_objects) started).

Definition w_mixed : World := run mixed_batch boot.
Definition w_removed : World := run remove_after_render boot.

(** A container 3 wide at x = 2^24 and a container opened inside it. *)
Definition nested_far : list (@Call spec_float) :=
  [ Initialize 800 600;
    BeginContainer (rect 16777216 0 3 10);
    BeginContainer (rect 0 0 100 5) ].

Definition w_nested_far : World := run nested_far boot.

(** The process before [Initialize], with the stand-in collaborators. *)
Definition boot32 : @World spec_float Stub.collaborators := boot.

Definition with_font : World :=
  run [Initialize 800 600; LoadFont "sans.ttf" (fi 16)] boot.


Definition scenario_line : @Call spec_float :=
  AddLine (pt 0 0) (pt 100 0) white (fi 4) Straight [] 0.
End Scenes.

(** The same engine over exact rationals. *)
Section ExactScenes.
Definition exact_collaborators : External Q := @Stub.collaborators Q exactQ.



End ExactScenes.

(** ** What a call does to the scene store *)

Section SceneSteps.
Context {F : Type} {FO : FloatOps F} {EX : External F}.



Definition is_shutdown (c : @Call F) : bool :=
  match c with Shutdown => true | _ => false end.

(** One step on the pool, the id-to-slot map and the id counter, other than
    an insertion: nothing, a removal, an assignment through the pointer
    [FindObject] returns (which never touches [id]), [Clear], the resort of
    [Render], or the first [Initialize]. *)
Inductive scene_step (w w' : World) : Prop :=
| scene_kept :
    pool w' = pool w -> slots w' = slots w -> next_id w' = next_id w ->
    (state w = None -> state w' = None) -> scene_step w w'
| scene_removed (k : Z) :
    w' = DuckerNative_RemoveObject k w -> scene_step w w'
| scene_updated (k : Z) (f : RenderObject F -> RenderObject F)
    (mark : RenderObject F -> bool) :
    (forall o, id (f o) = id o) -> w' = update_object k f mark w -> scene_step w w'
| scene_cleared :
    pool w' = [] -> slots w' = ∅ -> next_id w' = next_id w ->
    (state w = None -> state w' = None) -> scene_step w w'
| scene_sorted :
    w' = DuckerNative_Render w -> scene_step w w'
| scene_reset :
    state w = None ->
    pool w' = [] -> slots w' = ∅ -> next_id w' = 1 -> scene_step w w'.

(** A run of such steps and of [n] insertions through [AddObjectInternal]. *)
Inductive scene_steps : nat -> World -> World -> Prop :=
| steps_done (w : World) : scene_steps 0 w w
| steps_add (n : nat) (o : RenderObject F) (w w' : World) :
    is_Some (state w) ->
    scene_steps n (fst (AddObjectInternal o w)) w' -> scene_steps (S n) w w'
| steps_other (n : nat) (w w1 w' : World) :
    scene_step w w1 -> scene_steps n w1 w' -> scene_steps n w w'.

End SceneSteps.

(** ** Classes of calls *)

Section CallClasses.
Context {F : Type}.

(** The object a [SetObject...] call is aimed at. *)
Definition setter_target (c : @Call F) : option Z :=
  match c with
  | SetObjectBorder k _ _ | SetObjectShader k _ | SetObjectUniform k _ _ _
  | SetObjectCornerRadius k _ | SetObjectRotation k _
  | SetObjectRotationOrigin k _ | SetObjectRotationAndOrigin k _ _
  | SetObjectElevation k _ => Some k
  | _ => None
  end.

(** The calls that can set [needsSort], and those that can clear it. *)
Definition raises_dirty (c : @Call F) : bool :=
  match c with
  | AddRect _ _ _ _ _ _ _ | AddRoundedRect _ _ _ _ _ _ _ _ _ _ _
  | AddCircle _ _ _ _ _ _ _ _ _ | AddLine _ _ _ _ _ _ _
  | DrawText _ _ _ _ _ _ _ | SetObjectElevation _ _ | SetObjectShader _ _ => true
  | _ => false
  end.

Definition lowers_dirty (c : @Call F) : bool :=
  match c with
  | Render | Shutdown => true
  | _ => false
  end.

(** The shape insertions of the interface. *)
Definition is_shape_call (c : @Call F) : bool :=
  match c with
  | AddRect _ _ _ _ _ _ _ | AddRoundedRect _ _ _ _ _ _ _ _ _ _ _
  | AddCircle _ _ _ _ _ _ _ _ _ => true
  | _ => false
  end.
End CallClasses.

Section SetterNotions.
Context {F : Type}.

(** The fields no setter writes. *)
Definition same_shape (o o' : RenderObject F) : Prop :=
  id o' = id o /\ type o' = type o /\ visible o' = visible o /\
  zIndex o' = zIndex o /\ bounds o' = bounds o /\ color o' = color o /\
  textureId o' = textureId o /\ scissorRect o' = scissorRect o /\
  uvRect o' = uvRect o /\ start o' = start o /\ end_ o' = end_ o /\
  controlPoints o' = controlPoints o /\ lineWidth o' = lineWidth o /\
  lineMode o' = lineMode o /\ triCount o' = triCount o.
End SetterNotions.

Section ShapeArgs.
Context {F : Type}.

(** What the three shape insertions have in common: the type they create
    and the bounds, colour, layer, texture and border they are given. *)
Definition shape_args (c : @Call F)
    : option (ObjectType * RectF F * Vec4 F * Z * Z * F * Vec4 F) :=
  match c with
  | AddRect b col z tex _ bw bc => Some (Rect, b, col, z, tex, bw, bc)
  | AddRoundedRect b _ col _ _ _ z tex _ bw bc =>
      Some (RoundedRect, b, col, z, tex, bw, bc)
  | AddCircle b col _ _ _ z tex bw bc => Some (Circle, b, col, z, tex, bw, bc)
  | _ => None
  end.
End ShapeArgs.

(** ** Container nesting *)

Section Nesting.
Context {F : Type}.

(** A sequence of calls that closes [d] containers more than it opens, never
    closes one it did not open beyond those [d], and contains neither
    [Clear] nor [Shutdown]. *)
Fixpoint balanced_from (d : nat) (cs : list (@Call F)) : bool :=
  match cs with
  | [] => (d =? 0)%nat
  | BeginContainer _ :: rest => balanced_from (S d) rest
  | EndContainer :: rest =>
      match d with
      | O => false
      | S d' => balanced_from d' rest
      end
  | Clear :: _ | Shutdown :: _ => false
  | _ :: rest => balanced_from d rest
  end.

Definition balanced (cs : list (@Call F)) : bool := balanced_from 0 cs.
End Nesting.

(** ** GL names and the engine's resources *)

Section ResourceNotions.
Context {F : Type} {FO : FloatOps F} {EX : External F}.

(** The names [Initialize] keeps in fields of the state. *)
Definition fixed_names (s : RendererState) : list Z :=
  [program_id (blurHorizontal s); program_id (blurVertical s);
   vao s; vbo s; quadVAO s; quadVBO s;
   shadowFBO s; shadowTexture s; intermediateFBO s; intermediateTexture s].

(** Fonts, shaders and their id counters. *)
Definition registries (w : World)
    : option (gmap Z Font * Z * gmap Z ShaderProgram * Z * list Z) :=
  match state w with
  | None => None
  | Some s =>
      Some (fonts s, nextFontId s, shaders s, nextCustomShaderId s, fixed_names s)
  end.

(** The engine owns a GL name when a font holds it as its atlas texture, a
    registered shader as its program, or a field of the state. *)
Definition owns (w : World) (n : Z) : Prop :=
  match registries w with
  | None => False
  | Some (fs, _, sh, _, fixed) =>
      (exists k font, fs !! k = Some font /\ font_textureId font = n) \/
      (exists k prog, sh !! k = Some prog /\ program_id prog = n) \/
      n ∈ fixed
  end.

(** The registered shader of an id. *)
Definition shader_of (k : Z) (w : World) : option ShaderProgram :=
  match state w with
  | None => None
  | Some s => shaders s !! k
  end.

(** Calls that register a font or a shader. *)
Definition registrations (c : @Call F) : nat :=
  match c with
  | LoadFont _ _ | CreateShader _ => 1
  | _ => 0
  end.

Definition total_registrations (cs : list (@Call F)) : nat :=
  fold_right (fun c n => (registrations c + n)%nat) 0%nat cs.

(** The calls that touch the GL context or the registries. *)
Definition is_resource_call (c : @Call F) : bool :=
  match c with
  | Initialize _ _ | Shutdown | LoadFont _ _ | DeleteFont _
  | LoadTexture _ | DeleteTexture _ | CreateShader _ | DeleteShader _ => true
  | _ => false
  end.

(** The texture names [LoadTexture] handed to the client over a run. *)
Fixpoint loaded_textures (cs : list (@Call F)) (w : World) : list Z :=
  match cs with
  | [] => []
  | c :: rest =>
      match c, snd (exec c w) with
      | LoadTexture _, RTexture k _ => [k]
      | _, _ => []
      end ++ loaded_textures rest (fst (exec c w))
  end.

(** The invariant of the GL context: live names are positive, each is owned
    by the engine or was handed to the client, and the keys of the two
    registries lie below their counters. *)
Definition resource_inv (w : World) (client : list Z) (m : Z) : Prop :=
  (forall n, n ∈ gl_live (gl w) -> 0 < n /\ (owns w n \/ n ∈ client)) /\
  0 <= m /\
  match registries w with
  | None => True
  | Some (fs, nextFont, sh, nextShader, _) =>
      (forall k font, fs !! k = Some font -> 1 <= k < nextFont) /\
      (forall k prog, sh !! k = Some prog ->
         1 <= k <= 5 \/ 100 <= k < nextShader) /\
      1 <= nextFont <= 1 + m /\
      100 <= nextShader <= 100 + m
  end.
End ResourceNotions.


(** A session that loads a font, a texture and a custom shader. *)
Definition resource_session : list (@Call spec_float) :=
  [ Initialize 800 600; LoadFont "sans.ttf" (fi 16); LoadTexture "logo.png";
    CreateShader "void main() {}"; DeleteShader 100; DeleteShader 3;
    LoadTexture "icon.png"; DeleteTexture 17 ].

(** ** UTF-8 as the standard writes it *)

(** The UTF-8 encoding of a code point below [2^21]: one byte below U+0080,
    two below U+0800, three below U+10000, four above. *)
Definition utf8_encode (cp : Z) : list Z :=
  if cp <? 128 then [cp]
  else if cp <? 2048 then [192 + cp / 64; 128 + cp mod 64]
  else if cp <? 65536 then
    [224 + cp / 4096; 128 + (cp / 64) mod 64; 128 + cp mod 64]
  else
    [240 + cp / 262144; 128 + (cp / 4096) mod 64; 128 + (cp / 64) mod 64;
     128 + cp mod 64].

Definition utf8_encode_all (cps : list Z) : list Z := concat (map utf8_encode cps).

(** ** The draw pass: [RenderObjects] *)

(** [memcpy] from bytes into a [float]: the value of a four-byte object
    representation. *)
Class FloatImage (F : Type) := { f_of_bytes : list Z -> F }.

(** The binary32 value of a little-endian bit pattern. *)
Definition binary32_of_bytes (b : list Z) : spec_float :=
  let bits := nth 0 b 0 + 256 * nth 1 b 0 + 65536 * nth 2 b 0
              + 16777216 * nth 3 b 0 in
  let s := 2 ^ 31 <=? bits in
  let e := (bits / 2 ^ 23) mod 256 in
  let m := bits mod 2 ^ 23 in
  if e =? 0 then
    if m =? 0 then S754_zero s else S754_finite s (Z.to_pos m) (-149)
  else if e =? 255 then
    if m =? 0 then S754_infinity s else S754_nan
  else S754_finite s (Z.to_pos (m + 2 ^ 23)) (e - 150).

#[export] Instance binary32_image : FloatImage spec_float :=
  {| f_of_bytes := binary32_of_bytes |}.

Section Drawing.
Context {F : Type} {FO : FloatOps F} {EX : External F} {FI : FloatImage F}.

Record Vertex := mkVertex { pos : Vec2 F; texUv : Vec2 F; geomUv : Vec2 F }.

(** One [glDrawArrays(GL_TRIANGLES, first, count)], with the program in use
    and the texture bound when it is issued.  Uniform uploads are not
    recorded. *)
Record DrawCall := mkDraw {
  draw_program : Z;
  draw_texture : Z;
  draw_first : Z;
  draw_count : Z
}.

(** [memcpy(&v, u.data.data(), sizeof(Vec2))]: [None] when the uniform holds
    fewer than eight bytes and the copy reads past them. *)
Definition read_vec2 (u : UniformValue) : option (Vec2 F) :=
  if (length (data u) <? 8)%nat then None
  else Some (mkVec2 (f_of_bytes (take 4 (data u)))
                    (f_of_bytes (take 4 (drop 4 (data u))))).

(** [obj.uniforms.at(name)] followed by the copy; [None] also when [at]
    throws [std::out_of_range]. *)
Definition corner (obj : RenderObject F) (name : string) : option (Vec2 F) :=
  match uniforms obj !! name with
  | None => None
  | Some u => read_vec2 u
  end.

Definition glyph_vertices (obj : RenderObject F) : option (list Vertex) :=
  match corner obj "v0", corner obj "v1", corner obj "v2", corner obj "v3" with
  | Some v0, Some v1, Some v2, Some v3 =>
      let u1 := rx (uvRect obj) in
      let v1_uv := ry (uvRect obj) in
      let u2 := rw (uvRect obj) in
      let v2_uv := rh (uvRect obj) in
      Some [ mkVertex v0 (mkVec2 u1 v1_uv) (mkVec2 f0 f0);
             mkVertex v3 (mkVec2 u1 v2_uv) (mkVec2 f0 f1);
             mkVertex v1 (mkVec2 u2 v1_uv) (mkVec2 f1 f0);
             mkVertex v1 (mkVec2 u2 v1_uv) (mkVec2 f1 f0);
             mkVertex v2 (mkVec2 u2 v2_uv) (mkVec2 f1 f1);
             mkVertex v3 (mkVec2 u1 v2_uv) (mkVec2 f0 f1) ]
  | _, _, _, _ => None
  end.

(** The length of a segment, and the test that skips it. *)
Definition segment_length (p1 p2 : Vec2 F) : F :=
  let dirx := fsub (vx p2) (vx p1) in
  let diry := fsub (vy p2) (vy p1) in
  fsqrt (fadd (fmul dirx dirx) (fmul diry diry)).

Definition segment_skipped (p1 p2 : Vec2 F) : bool :=
  flt (segment_length p1 p2) f_eps3.

(** The quad of one segment: nothing when the segment is shorter than
    0.001. *)
Definition segment_vertices (lineWidth : F) (p1 p2 : Vec2 F) : list Vertex :=
  let len := segment_length p1 p2 in
  if flt len f_eps3 then []
  else
    let dirx := fdiv (fsub (vx p2) (vx p1)) len in
    let diry := fdiv (fsub (vy p2) (vy p1)) len in
    let perpx := fdiv (fmul (fneg diry) lineWidth) f2 in
    let perpy := fdiv (fmul dirx lineWidth) f2 in
    let v0 := mkVec2 (fadd (vx p1) perpx) (fadd (vy p1) perpy) in
    let v1 := mkVec2 (fsub (vx p1) perpx) (fsub (vy p1) perpy) in
    let v2 := mkVec2 (fsub (vx p2) perpx) (fsub (vy p2) perpy) in
    let v3 := mkVec2 (fadd (vx p2) perpx) (fadd (vy p2) perpy) in
    [ mkVertex v0 (mkVec2 f0 f0) (mkVec2 f0 f1);
      mkVertex v1 (mkVec2 f0 f1) (mkVec2 f0 f0);
      mkVertex v3 (mkVec2 f1 f0) (mkVec2 f1 f1);
      mkVertex v1 (mkVec2 f0 f1) (mkVec2 f0 f0);
      mkVertex v2 (mkVec2 f1 f1) (mkVec2 f1 f0);
      mkVertex v3 (mkVec2 f1 f0) (mkVec2 f1 f1) ].

(** [for (int seg = 0; seg < num_segments; ++seg)] over [points]. *)
Definition polyline_vertices (lineWidth : F) (points : list (Vec2 F))
    : list Vertex :=
  flat_map
    (fun seg =>
       segment_vertices lineWidth (point_at points seg) (point_at points (seg + 1)))
    (seq 0 (Z.to_nat (num_segments points))).

Definition line_vertices (obj : RenderObject F) : list Vertex :=
  let all_points := line_points (start obj) (controlPoints obj) (end_ obj) in
  match lineMode obj with
  | Straight => polyline_vertices (lineWidth obj) all_points
  | Curved =>
      if (length all_points <? 2)%nat then []
      else
        polyline_vertices (lineWidth obj)
          (tessellate Curved (start obj) (controlPoints obj) (end_ obj))
  end.

Definition quad_vertices (obj : RenderObject F) : list Vertex :=
  let x1 := rx (bounds obj) in
  let y1 := ry (bounds obj) in
  let x2 := fadd (rx (bounds obj)) (rw (bounds obj)) in
  let y2 := fadd (ry (bounds obj)) (rh (bounds obj)) in
  let u1 := rx (uvRect obj) in
  let v1_uv := ry (uvRect obj) in
  let u2 := rw (uvRect obj) in
  let v2_uv := rh (uvRect obj) in
  [ mkVertex (mkVec2 x1 y1) (mkVec2 u1 v1_uv) (mkVec2 f0 f0);
    mkVertex (mkVec2 x1 y2) (mkVec2 u1 v2_uv) (mkVec2 f0 f1);
    mkVertex (mkVec2 x2 y1) (mkVec2 u2 v1_uv) (mkVec2 f1 f0);
    mkVertex (mkVec2 x2 y1) (mkVec2 u2 v1_uv) (mkVec2 f1 f0);
    mkVertex (mkVec2 x1 y2) (mkVec2 u1 v2_uv) (mkVec2 f0 f1);
    mkVertex (mkVec2 x2 y2) (mkVec2 u2 v2_uv) (mkVec2 f1 f1) ].

(** The vertices one object contributes: none when it is invisible. *)
Definition object_vertices (obj : RenderObject F) : option (list Vertex) :=
  if negb (visible obj) then Some []
  else
    match type obj with
    | Glyph => glyph_vertices obj
    | Line => Some (line_vertices obj)
    | _ => Some (quad_vertices obj)
    end.

(** The first loop: the vertex buffer, object by object. *)
Fixpoint fill_vertices (objs : list (RenderObject F)) : option (list Vertex) :=
  match objs with
  | [] => Some []
  | obj :: rest =>
      match object_vertices obj, fill_vertices rest with
      | Some vs, Some ws => Some (vs ++ ws)
      | _, _ => None
      end
  end.

(** [isSameBatch] of the inner [while]. *)
Definition isSameBatch (firstInBatch obj : RenderObject F) : bool :=
  let same :=
    visible obj
    && (effective_shader obj =? effective_shader firstInBatch)
    && (textureId obj =? textureId firstInBatch)
    && (memcmp (bytes_rect (scissorRect obj))
               (bytes_rect (scissorRect firstInBatch)) =? 0) in
  if decide (type obj = Line /\ type firstInBatch = Line) then
    same && bool_decide (lineMode obj = lineMode firstInBatch)
         && feq (lineWidth obj) (lineWidth firstInBatch)
  else same.

(** [batchEnd - i]: the objects from [i] on that pass [isSameBatch]. *)
Fixpoint batch_length (firstInBatch : RenderObject F)
    (from_i : list (RenderObject F)) : nat :=
  match from_i with
  | [] => 0
  | obj :: rest =>
      if isSameBatch firstInBatch obj then S (batch_length firstInBatch rest)
      else 0
  end.

(** The vertex count [glDrawArrays] is given for an object. *)
Definition draw_size (obj : RenderObject F) : Z :=
  if decide (type obj = Line) then wrap_int32 (triCount obj * 3) else 6.

(** [for (size_t j = i; j < batchEnd; ++j)]: the draw calls of one batch
    and the vertex offset after it. *)
Fixpoint draw_batch (program : Z) (batch : list (RenderObject F))
    (vertexOffset : Z) : list DrawCall * Z :=
  match batch with
  | [] => ([], vertexOffset)
  | obj :: rest =>
      if negb (visible obj) then draw_batch program rest vertexOffset
      else
        let '(calls, offset) :=
          draw_batch program rest (wrap_int32 (vertexOffset + draw_size obj)) in
        (mkDraw program (textureId obj) vertexOffset (draw_size obj) :: calls,
         offset)
  end.

(** [for (size_t i = 0; i < renderObjects.size(); )]: one step of fuel per
    iteration. *)
Fixpoint draw_loop (fuel : nat) (progs : gmap Z ShaderProgram)
    (objs : list (RenderObject F)) (i : nat) (vertexOffset : Z)
    : Outcome (list DrawCall) :=
  match objs !! i with
  | None => Done []
  | Some firstInBatch =>
      match fuel with
      | O => OutOfFuel
      | S fuel' =>
          if negb (visible firstInBatch) then
            draw_loop fuel' progs objs (i + 1) vertexOffset
          else
            match progs !! effective_shader firstInBatch with
            | None => draw_loop fuel' progs objs (i + 1) vertexOffset
            | Some shader =>
                if program_id shader =? 0 then
                  draw_loop fuel' progs objs (i + 1) vertexOffset
                else
                  let n := batch_length firstInBatch (drop i objs) in
                  let '(calls, offset) :=
                    draw_batch (program_id shader) (take n (drop i objs))
                      vertexOffset in
                  match draw_loop fuel' progs objs (i + n) offset with
                  | Done later => Done (calls ++ later)
                  | other => other
                  end
            end
      end
  end.

(** [RenderObjects]: the buffer handed to [glBufferData] and the draw calls
    in the order they are issued.  [Undefined] when a glyph lacks a corner
    uniform or holds one of fewer than eight bytes. *)
Definition RenderObjects (fuel : nat) (progs : gmap Z ShaderProgram)
    (renderObjects : list (RenderObject F))
    : Outcome (list Vertex * list DrawCall) :=
  match fill_vertices renderObjects with
  | None => Undefined
  | Some vertices =>
      match draw_loop fuel progs renderObjects 0 0 with
      | Done calls => Done (vertices, calls)
      | Undefined => Undefined
      | OutOfFuel => OutOfFuel
      end
  end.

(** The shader registry of a world. *)
Definition programs (w : World) : gmap Z ShaderProgram :=
  match state w with
  | Some s => shaders s
  | None => ∅
  end.

(** The last pass of [Render], [RenderObjects(state->objects, 0)], which
    follows the resort and the shadow passes; [None] when [Render] returns
    at once because the engine is down or the pool empty. *)
Definition main_pass (fuel : nat) (w : World)
    : option (Outcome (list Vertex * list DrawCall)) :=
  let w' := DuckerNative_Render w in
  match pool w' with
  | [] => None
  | objs => Some (RenderObjects fuel (programs w') objs)
  end.

Definition total (sizes : list Z) : Z := fold_right Z.add 0 sizes.

(** The [(first, count)] ranges that lay blocks of the given sizes end to
    end from [first]. *)
Fixpoint spans (first : Z) (sizes : list Z) : list (Z * Z) :=
  match sizes with
  | [] => []
  | n :: rest => (first, n) :: spans (first + n) rest
  end.

Definition shader_ready (progs : gmap Z ShaderProgram) (obj : RenderObject F)
    : bool :=
  match progs !! effective_shader obj with
  | Some shader => negb (program_id shader =? 0)
  | None => false
  end.

(** The program an object is drawn with. *)
Definition program_of (progs : gmap Z ShaderProgram) (obj : RenderObject F) : Z :=
  match progs !! effective_shader obj with
  | Some shader => program_id shader
  | None => 0
  end.

(** The two conditions under which the draw calls match the buffer, as
    checks on a pool: every visible object has a usable shader; every
    visible line has a width equal to itself and is drawn with as many
    vertices as it put into the buffer. *)
Definition all_ready (progs : gmap Z ShaderProgram)
    (objs : list (RenderObject F)) : bool :=
  forallb (fun o => implb (visible o) (shader_ready progs o)) objs.

Definition lines_exact (objs : list (RenderObject F)) : bool :=
  forallb
    (fun o =>
       implb (visible o && bool_decide (type o = Line))
             (feq (lineWidth o) (lineWidth o)
              && (draw_size o =? Z.of_nat (length (line_vertices o)))))
    objs.

(** The number of segments of a polyline that are not skipped. *)
Definition kept_segments (points : list (Vec2 F)) : nat :=
  length (List.filter
            (fun seg => negb (segment_skipped (point_at points seg)
                                (point_at points (seg + 1))))
            (seq 0 (Z.to_nat (num_segments points)))).
End Drawing.

(** ** Pools to draw *)

Section DrawScenes.
#[local] Existing Instance Stub.collaborators.

(** A line whose width is a NaN. *)
Definition nan_line_session : list (@Call spec_float) :=
  [ Initialize 800 600;
    AddLine (pt 0 0) (pt 10 0) white S754_nan Straight [] 0 ].

Definition nan_line : RenderObject spec_float :=
  hd RenderObject_default (pool (DuckerNative_Render (run nan_line_session boot32))).



End DrawScenes.

(** ** [fast_vector.h]

    The container behind the pool and the two stacks, as the template with
    [F = false] (the only way the engine instantiates it).  The heap block
    [m_data] points to is the list of its cells; [nullptr] is the block of
    no cells.  Sizes are natural numbers: an allocation of [2^64] bytes
    fails long before [size_t] wraps. *)
Module FastVector.

(** The outcome of a member function: a result, a thrown exception, or a
    fault (a failed [assert], an access outside the block or to a cell that
    holds no object, overlapping [memcpy]). *)
Inductive Res (A : Type) := Ok (a : A) | Throws | Fails.
Arguments Ok {A}.
Arguments Throws {A}.
Arguments Fails {A}.

#[export] Instance Res_bind : MBind Res := fun A B f m =>
  match m with
  | Ok a => f a
  | Throws => Throws
  | Fails => Fails
  end.

(** A cell of a block: raw memory (never constructed, or destroyed), or an
    object. *)
Inductive Cell (T : Type) := Raw | Obj (x : T).
Arguments Raw {T}.
Arguments Obj {T}.

(** What the template needs to know of [T]: whether it is trivial, its
    size, the object all-zero bytes stand for (trivial types), the
    default-constructed object, and the state a moved-from object is left
    in. *)
Class Element (T : Type) := {
  is_trivial : bool;
  sizeof_T : nat;
  zero : T;
  default_T : T;
  moved_from : T -> T
}.

Section Vec.
Context {T : Type} `{EqDecision T} {E : Element T}.

Record fast_vector := mkVec {
  m_data : list (Cell T);
  m_size : nat;
  m_capacity : nat
}.

(** [fast_vector() = default]. *)
Definition empty_vector : fast_vector := mkVec [] 0 0.

Definition malloc (n : nat) : list (Cell T) := replicate n Raw.

(** [realloc]: the cells kept, the rest raw. *)
Definition realloc (block : list (Cell T)) (n : nat) : list (Cell T) :=
  take n block ++ replicate (n - length block) Raw.

Definition read (block : list (Cell T)) (i : nat) : Res T :=
  match block !! i with
  | Some (Obj x) => Ok x
  | _ => Fails
  end.

Definition write (block : list (Cell T)) (i : nat) (c : Cell T)
    : Res (list (Cell T)) :=
  if (i <? length block)%nat then Ok (<[i := c]> block) else Fails.

(** The objects of [n] cells from [i] on. *)
Fixpoint read_cells (block : list (Cell T)) (i n : nat) : Res (list T) :=
  match n with
  | O => Ok []
  | S n' =>
      x ← read block i;
      rest ← read_cells block (S i) n';
      Ok (x :: rest)
  end.

(** [copy_range], [construct_range], [memcpy] into the block, [memset]:
    objects written to consecutive cells. *)
Fixpoint write_cells (block : list (Cell T)) (i : nat) (xs : list T)
    : Res (list (Cell T)) :=
  match xs with
  | [] => Ok block
  | x :: rest =>
      b ← write block i (Obj x);
      write_cells b (S i) rest
  end.

(** [destruct_range]: each cell must hold an object. *)
Fixpoint destruct_range (block : list (Cell T)) (i n : nat)
    : Res (list (Cell T)) :=
  match n with
  | O => Ok block
  | S n' =>
      _ ← read block i;
      b ← write block i Raw;
      destruct_range b (S i) n'
  end.

(** The non-trivial branch of [reserve] and [shrink_to_fit]: a new block,
    the objects copied over, the old ones destroyed, the old block freed. *)
Definition relocate (v : fast_vector) (n : nat) : Res (list (Cell T)) :=
  xs ← read_cells (m_data v) 0 (m_size v);
  _ ← destruct_range (m_data v) 0 (m_size v);
  write_cells (malloc n) 0 xs.

Definition reserve (new_cap : nat) (v : fast_vector) : Res fast_vector :=
  if (m_capacity v <? new_cap)%nat then
    if is_trivial then
      let old_capacity := m_capacity v in
      b ← write_cells (realloc (m_data v) new_cap) old_capacity
            (replicate ((new_cap - old_capacity) / sizeof_T) zero);
      Ok (mkVec b (m_size v) new_cap)
    else
      b ← relocate v new_cap;
      Ok (mkVec b (m_size v) new_cap)
  else Ok v.

(** [m_capacity] is not written. *)
Definition shrink_to_fit (v : fast_vector) : Res fast_vector :=
  if (0 <? m_size v)%nat && (m_size v <? m_capacity v)%nat then
    if is_trivial then
      Ok (mkVec (realloc (m_data v) (m_size v)) (m_size v) (m_capacity v))
    else
      b ← relocate v (m_size v);
      Ok (mkVec b (m_size v) (m_capacity v))
  else Ok v.

Definition clear (v : fast_vector) : Res fast_vector :=
  if is_trivial then Ok (mkVec (m_data v) 0 (m_capacity v))
  else
    b ← destruct_range (m_data v) 0 (m_size v);
    Ok (mkVec b 0 (m_capacity v)).

(** [value] is not an element of the vector itself. *)
Definition push_back (value : T) (v : fast_vector) : Res fast_vector :=
  v1 ← (if (m_size v =? m_capacity v)%nat
        then reserve (m_capacity v * 2 + 1) v else Ok v);
  b ← write (m_data v1) (m_size v1) (Obj value);
  Ok (mkVec b (S (m_size v1)) (m_capacity v1)).

Definition pop_back (v : fast_vector) : Res fast_vector :=
  if (0 <? m_size v)%nat then
    if is_trivial then Ok (mkVec (m_data v) (m_size v - 1) (m_capacity v))
    else
      b ← destruct_range (m_data v) (m_size v - 1) 1;
      Ok (mkVec b (m_size v - 1) (m_capacity v))
  else Fails.

Definition resize (count : nat) (v : fast_vector) : Res fast_vector :=
  if (count =? m_size v)%nat then Ok v
  else
    v1 ← (if (m_capacity v <? count)%nat then reserve count v else Ok v);
    b ← (if is_trivial then Ok (m_data v1)
         else if (m_size v1 <? count)%nat then
           write_cells (m_data v1) (m_size v1)
             (replicate (count - m_size v1) default_T)
         else destruct_range (m_data v1) count (m_size v1 - count));
    Ok (mkVec b count (m_capacity v1)).

(** [find_item(begin(), end(), value)]: the index of the first cell that
    compares equal, [i + n] (that is [end()]) when there is none. *)
Fixpoint find_item (block : list (Cell T)) (i n : nat) (value : T) : Res nat :=
  match n with
  | O => Ok i
  | S n' =>
      x ← read block i;
      if decide (x = value) then Ok i else find_item block (S i) n' value
  end.

(** The loop that move-assigns [position[1]] to [position[0]] and steps
    [position]. *)
Fixpoint move_down (block : list (Cell T)) (position count : nat)
    : Res (list (Cell T)) :=
  match count with
  | O => Ok block
  | S count' =>
      _ ← read block position;
      x ← read block (S position);
      b ← write block position (Obj x);
      b ← write b (S position) (Obj (moved_from x));
      move_down b (S position) count'
  end.

Definition erase (value : T) (v : fast_vector) : Res (fast_vector * bool) :=
  position ← find_item (m_data v) 0 (m_size v) value;
  if (position <? m_size v)%nat then
    let count := (m_size v - position - 1)%nat in
    b ← (if is_trivial then
           if (0 <? count)%nat then
             (* memcpy(position, position + 1, count * sizeof(T)): the two
                ranges overlap as soon as count is 2 *)
             if (1 <? count)%nat then Fails
             else
               match m_data v !! S position with
               | Some c => write (m_data v) position c
               | None => Fails
               end
           else Ok (m_data v)
         else if (0 <? count)%nat then move_down (m_data v) position count
         else destruct_range (m_data v) position 1);
    Ok (mkVec b (m_size v - 1) (m_capacity v), true)
  else Ok (v, false).

Definition append (values : list T) (v : fast_vector) : Res fast_vector :=
  if (m_capacity v <=? m_size v + length values)%nat then
    foldl (fun r x => v' ← r; push_back x v') (Ok v) values
  else
    b ← write_cells (m_data v) (m_size v) values;
    Ok (mkVec b (m_size v + length values) (m_capacity v)).

(** [operator[]]: the [assert], then the cell. *)
Definition index (pos : nat) (v : fast_vector) : Res T :=
  if (pos <? m_size v)%nat then read (m_data v) pos else Fails.

Definition at_ (pos : nat) (v : fast_vector) : Res T :=
  if (m_size v <=? pos)%nat then Throws else index pos v.

Definition front (v : fast_vector) : Res T :=
  if (0 <? m_size v)%nat then read (m_data v) 0 else Fails.


Definition empty (v : fast_vector) : bool := (m_size v =? 0)%nat.
Definition size (v : fast_vector) : nat := m_size v.
Definition capacity (v : fast_vector) : nat := m_capacity v.

(** The modifiers as one type, to run sequences of them. *)
Inductive Op :=
| Push (value : T) | Pop | Clear | Reserve (new_cap : nat) | Resize (count : nat)
| Erase (value : T) | Append (values : list T) | ShrinkToFit.

Definition step (op : Op) (v : fast_vector) : Res fast_vector :=
  match op with
  | Push value => push_back value v
  | Pop => pop_back v
  | Clear => clear v
  | Reserve new_cap => reserve new_cap v
  | Resize count => resize count v
  | Erase value => r ← erase value v; Ok (fst r)
  | Append values => append values v
  | ShrinkToFit => shrink_to_fit v
  end.

Definition run_ops (ops : list Op) (v : fast_vector) : Res fast_vector :=
  foldl (fun r op => v' ← r; step op v') (Ok v) ops.

(** *** The list the vector stands for *)

(** The first occurrence of [value] removed. *)
Fixpoint remove_first (value : T) (l : list T) : list T :=
  match l with
  | [] => []
  | x :: rest => if decide (x = value) then rest else x :: remove_first value rest
  end.

(** The elements after the first occurrence of [value]. *)
Fixpoint followers (value : T) (l : list T) : nat :=
  match l with
  | [] => 0
  | x :: rest => if decide (x = value) then length rest else followers value rest
  end.

(** What a modifier does to the sequence of elements; [None] where the
    vector has no defined sequence afterwards: [pop_back] on an empty
    vector, growth by [resize] of a trivial type (the new elements are not
    initialised), [erase] of a trivial type with two or more elements to
    move, and [shrink_to_fit]. *)
Definition list_step (op : Op) (l : list T) : option (list T) :=
  match op with
  | Push value => Some (l ++ [value])
  | Pop => match l with [] => None | _ => Some (removelast l) end
  | Clear => Some []
  | Reserve _ => Some l
  | Resize count =>
      if (count <=? length l)%nat then Some (take count l)
      else if is_trivial then None
      else Some (l ++ replicate (count - length l) default_T)
  | Erase value =>
      if is_trivial && (1 <? followers value l)%nat then None
      else Some (remove_first value l)
  | Append values => Some (l ++ values)
  | ShrinkToFit => None
  end.

Fixpoint list_run (ops : list Op) (l : list T) : option (list T) :=
  match ops with
  | [] => Some l
  | op :: rest =>
      match list_step op l with
      | Some l' => list_run rest l'
      | None => None
      end
  end.

(** The vector holds the elements of [l]. *)
Definition represents (v : fast_vector) (l : list T) : Prop :=
  m_size v = length l /\
  length (m_data v) = m_capacity v /\
  take (m_size v) (m_data v) = map Obj l.
End Vec.

(** [char], the element type of [UniformValue::data]. *)
Definition char_element : Element Z := {|
  is_trivial := true;
  sizeof_T := 1;
  zero := 0;
  default_T := 0;
  moved_from := fun c => c
|}.

(** Two bytes in a block of three cells. *)
Definition two_bytes : @fast_vector Z := mkVec [Obj 1; Obj 2; Obj 0] 2 3.
End FastVector.

(** ** The two matrices of the vertex shader *)

Section Matrices.
Context {F : Type} {FO : FloatOps F} {EX : External F}.

Definition CreateRotationMatrix (angle : F) (origin : Vec2 F) (bounds : RectF F)
    : mat4 :=
  let rad := fdiv (fmul angle f_pi) (f_of_int 180) in
  let cosA := cosf rad in
  let sinA := sinf rad in
  let centerX := fadd (rx bounds) (fmul (rw bounds) (vx origin)) in
  let centerY := fadd (ry bounds) (fmul (rh bounds) (vy origin)) in
  [ [cosA; fneg sinA; f0;
     fadd (fsub centerX (fmul cosA centerX)) (fmul sinA centerY)];
    [sinA; cosA; f0;
     fsub (fsub centerY (fmul sinA centerX)) (fmul cosA centerY)];
    [f0; f0; f1; f0];
    [f0; f0; f0; f1] ].

(** The entries of a matrix read as rationals. *)
Definition mat_val (val : F -> Q) (m : mat4) : list (list Q) := map (map val) m.
End Matrices.

(** [m * v] as the vertex shader computes it for a [mat4] uploaded by
    [glUniformMatrix4fv] with [transpose = GL_FALSE]: the four floats of
    [m[j]] are column [j]. *)
Definition gl_entry (m : list (list Q)) (column row : nat) : Q :=
  nth row (nth column m []) 0%Q.

Definition gl_mul (m : list (list Q)) (v : list Q) : list Q :=
  map (fun row =>
         (gl_entry m 0 row * nth 0 v 0 + gl_entry m 1 row * nth 1 v 0
          + gl_entry m 2 row * nth 2 v 0 + gl_entry m 3 row * nth 3 v 0)%Q)
      [0; 1; 2; 3]%nat.

(** [vec4(aPos, 0.0, 1.0)]. *)
Definition gl_point (x y : Q) : list Q := [x; y; 0%Q; 1%Q].

(** ** Glyph corners *)

(** The uniforms [RenderObjects] reads the corners of a glyph from. *)
Definition corner_names : list string := ["v0"; "v1"; "v2"; "v3"]%string.

Section GlyphScenes.
#[local] Existing Instance Stub.collaborators.

(** The text [Hi] drawn with a loaded font. *)
Definition glyph_session : list (@Call spec_float) :=
  [ Initialize 800 600; LoadFont "sans.ttf" (fi 16);
    DrawText 1 (Some [72; 105]) (pt 0 0) white 0 (fi 0) (pt 0 0) ].

(** Its first glyph, the object with id 1. *)
Definition first_glyph : RenderObject spec_float :=
  default RenderObject_default (resolve 1 (run glyph_session boot32)).
End GlyphScenes.

(** * Properties *)

(** ** The scene store: identifiers and slots *)

Section StoreProofs.
Context {F : Type} {FO : FloatOps F} {EX : External F}.
Implicit Types (w : World) (o : RenderObject F) (k : Z) (i : nat).

Lemma FindObject_slots k w : FindObject k w = slots w !! k.
Proof. unfold FindObject, slots. destruct (state w); [done|]. by rewrite lookup_empty. Qed.

Lemma deref_pool w i : deref w (Some i) = pool w !! i.
Proof. unfold deref, pool. destruct (state w); [done|]. done. Qed.

Lemma deref_None w : deref w None = None.
Proof. unfold deref. by destruct (state w). Qed.

Lemma add_uninitialised o w : state w = None -> AddObjectInternal o w = (w, 0).
Proof. intros E. unfold AddObjectInternal. by rewrite E. Qed.

(** What one insertion does to the observable parts of the world. *)
Lemma add_effect o w s :
  state w = Some s ->
  exists o',
    o' = stored s o /\
    id o' = nextObjectId s /\
    snd (AddObjectInternal o w) = nextObjectId s /\
    pool (fst (AddObjectInternal o w)) = pool w ++ [o'] /\
    slots (fst (AddObjectInternal o w)) =
      <[nextObjectId s := length (pool w)]> (slots w) /\
    next_id (fst (AddObjectInternal o w)) = wrap_uint32 (nextObjectId s + 1) /\
    dirty (fst (AddObjectInternal o w)) = true /\
    clip_stack (fst (AddObjectInternal o w)) = clip_stack w /\
    is_Some (state (fst (AddObjectInternal o w))).
Proof.
  intros E. unfold AddObjectInternal, pool, slots, next_id, dirty, clip_stack.
  rewrite E. simpl. eexists. repeat split; eauto.
Qed.

Lemma store_wf_add o w s :
  state w = Some s -> store_wf w -> slots w !! nextObjectId s = None ->
  store_wf (fst (AddObjectInternal o w)).
Proof.
  intros E [W1 W2] Hfresh.
  destruct (add_effect o w s E) as (o' & _ & Hid & _ & Hp & Hs & _).
  split.
  - intros i x. rewrite Hp, Hs. intros Hx.
    apply lookup_app_Some in Hx as [Hx | [Hge Hx]].
    + rewrite lookup_insert_ne; [by apply W1|].
      intros Heq. apply W1 in Hx. rewrite <- Heq, Hfresh in Hx. done.
    + apply list_lookup_singleton_Some in Hx as [Hi ->].
      rewrite Hid, lookup_insert_eq. f_equal. lia.
  - intros k i. rewrite Hp, Hs. intros Hk.
    apply lookup_insert_Some in Hk as [[<- <-] | [Hne Hk]].
    + exists o'. split; [|done]. rewrite lookup_app_r by lia.
      by rewrite Nat.sub_diag.
    + destruct (W2 k i Hk) as (x & Hx & Hidx). exists x. split; [|done].
      by apply lookup_app_l_Some.
Qed.

Lemma remove_absent k w : slots w !! k = None -> DuckerNative_RemoveObject k w = w.
Proof.
  unfold slots, DuckerNative_RemoveObject. destruct (state w); [|done].
  by intros ->.
Qed.

(** Swap-with-last removal on a pool [l ++ [x]]. *)
Lemma remove_effect k w i :
  store_wf w -> slots w !! k = Some i ->
  exists l x,
    pool w = l ++ [x] /\
    pool (DuckerNative_RemoveObject k w) =
      (if decide (i < length l)%nat then <[i := x]> l else l) /\
    slots (DuckerNative_RemoveObject k w) =
      delete k (if decide (i < length l)%nat
                then <[id x := i]> (slots w) else slots w) /\
    dirty (DuckerNative_RemoveObject k w) = dirty w /\
    next_id (DuckerNative_RemoveObject k w) = next_id w.
Proof.
  intros [W1 W2] Hk. destruct (W2 k i Hk) as (o & Ho & _).
  revert Hk Ho. unfold slots, pool, dirty, next_id, DuckerNative_RemoveObject.
  destruct (state w) as [s|]; [|by rewrite lookup_empty].
  intros Hk Ho. rewrite Hk.
  destruct (objects s) as [|o0 l _] using rev_ind; [done|].
  exists l, o0. rewrite length_app, last_snoc. simpl. split; [done|].
  replace ((1 <? length l + 1)%nat && (i <? length l + 1 - 1)%nat)
    with (bool_decide (i < length l)%nat).
  2:{ apply eq_true_iff_eq. rewrite bool_decide_eq_true, andb_true_iff.
      rewrite !Nat.ltb_lt. lia. }
  case_bool_decide; case_decide; try lia; simpl.
  - rewrite insert_app_l by done. by rewrite removelast_last.
  - by rewrite removelast_last.
Qed.

Lemma store_wf_remove k w : store_wf w -> store_wf (DuckerNative_RemoveObject k w).
Proof.
  intros W. destruct (slots w !! k) as [i|] eqn:Hk;
    [|by rewrite remove_absent].
  destruct (remove_effect k w i W Hk) as (l & x & Hp & Hp' & Hs' & _).
  destruct W as [W1 W2]. rewrite Hp in W1, W2.
  assert (Hx : slots w !! id x = Some (length l)).
  { apply W1. rewrite lookup_app_r by lia. by rewrite Nat.sub_diag. }
  assert (Hinj : forall k1 k2 j, slots w !! k1 = Some j -> slots w !! k2 = Some j -> k1 = k2).
  { intros k1 k2 j H1 H2. destruct (W2 _ _ H1) as (o1 & Ho1 & <-).
    destruct (W2 _ _ H2) as (o2 & Ho2 & <-). congruence. }
  split.
  - intros j o. rewrite Hp', Hs'. case_decide as Hi.
    + intros Ho. destruct (decide (j = i)) as [->|Hne].
      * rewrite list_lookup_insert_eq in Ho by done. injection Ho as Ho. subst o.
        rewrite lookup_delete_ne, lookup_insert_eq; [done|].
        intros Heq. rewrite Heq, Hx in Hk. injection Hk as Hk. lia.
      * rewrite list_lookup_insert_ne in Ho by done.
        assert (Hj : slots w !! id o = Some j) by (apply W1; by apply lookup_app_l_Some).
        apply lookup_lt_Some in Ho.
        rewrite lookup_delete_ne, lookup_insert_ne; [done| |].
        -- intros Heq. rewrite Heq, Hj in Hx. injection Hx as ->. lia.
        -- intros Heq. rewrite Heq, Hj in Hk. congruence.
    + intros Ho.
      assert (Hj : slots w !! id o = Some j) by (apply W1; by apply lookup_app_l_Some).
      apply lookup_lt_Some in Ho.
      rewrite lookup_delete_ne; [done|].
      intros Heq. rewrite Heq, Hj in Hk. injection Hk as ->.
      destruct (W2 _ _ Hj) as (o' & Ho' & _). apply lookup_lt_Some in Ho'.
      rewrite length_app in Ho'. simpl in Ho'. lia.
  - intros k' j. rewrite Hp', Hs'. intros Hk'.
    apply lookup_delete_Some in Hk' as [Hne Hk'].
    case_decide as Hi.
    + apply lookup_insert_Some in Hk' as [[<- <-] | [Hne' Hk']].
      * exists x. by rewrite list_lookup_insert_eq.
      * destruct (W2 _ _ Hk') as (o & Ho & Hid).
        assert (j <> i) by (intros ->; by apply Hne, (Hinj _ _ i)).
        assert (j <> length l) by (intros ->; by apply Hne', (Hinj _ _ (length l))).
        exists o. split; [|done]. rewrite list_lookup_insert_ne by done.
        apply lookup_app_Some in Ho as [Ho | [Hge Ho]]; [done|].
        apply list_lookup_singleton_Some in Ho as [? _]. lia.
    + destruct (W2 _ _ Hk') as (o & Ho & Hid).
      destruct (W2 _ _ Hk) as (ok & Hok & _). apply lookup_lt_Some in Hok.
      rewrite length_app in Hok. simpl in Hok.
      assert (i = length l) by lia. subst i.
      assert (j <> length l) by (intros ->; by apply Hne, (Hinj _ _ (length l))).
      exists o. split; [|done].
      apply lookup_app_Some in Ho as [Ho | [Hge Ho]]; [done|].
      apply list_lookup_singleton_Some in Ho as [? _]. lia.
Qed.

Lemma remove_same k w : FindObject k (DuckerNative_RemoveObject k w) = None.
Proof.
  rewrite FindObject_slots. unfold slots, DuckerNative_RemoveObject.
  destruct (state w) as [s|] eqn:E; [|by rewrite E].
  destruct (objectIdToIndex s !! k) eqn:Hk; [|by rewrite E].
  simpl. apply lookup_delete_eq.
Qed.

(** Removing [k] leaves every other id resolving to the same object. *)
Lemma remove_other k k' w :
  store_wf w -> k' <> k ->
  resolve k' (DuckerNative_RemoveObject k w) = resolve k' w.
Proof.
  intros W Hne. destruct (slots w !! k) as [i|] eqn:Hk;
    [|by rewrite remove_absent].
  destruct (remove_effect k w i W Hk) as (l & x & Hp & Hp' & Hs' & _).
  unfold resolve. rewrite !FindObject_slots. destruct W as [W1 W2].
  rewrite Hs', lookup_delete_ne by done.
  assert (Hx : slots w !! id x = Some (length l)).
  { apply W1. rewrite Hp, lookup_app_r by lia. by rewrite Nat.sub_diag. }
  assert (Hinj : forall k1 k2 j, slots w !! k1 = Some j -> slots w !! k2 = Some j -> k1 = k2).
  { intros k1 k2 j H1 H2. destruct (W2 _ _ H1) as (o1 & Ho1 & <-).
    destruct (W2 _ _ H2) as (o2 & Ho2 & <-). congruence. }
  case_decide as Hi.
  - destruct (decide (k' = id x)) as [->|Hne'].
    + rewrite lookup_insert_eq, Hx, !deref_pool, Hp', Hp.
      rewrite list_lookup_insert_eq by done.
      rewrite lookup_app_r by lia. by rewrite Nat.sub_diag.
    + rewrite lookup_insert_ne by done.
      destruct (slots w !! k') as [j|] eqn:Hk'; [|by rewrite !deref_None].
      rewrite !deref_pool, Hp', Hp.
      assert (j <> i) by (intros ->; by apply Hne, (Hinj _ _ i)).
      assert (j <> length l) by (intros ->; by apply Hne', (Hinj _ _ (length l))).
      rewrite list_lookup_insert_ne by done.
      destruct (W2 _ _ Hk') as (o & Ho & _). rewrite Hp in Ho.
      apply lookup_app_Some in Ho as [Ho | [Hge Ho]].
      * by rewrite lookup_app_l by (by eapply lookup_lt_Some).
      * apply list_lookup_singleton_Some in Ho as [? _]. lia.
  - destruct (slots w !! k') as [j|] eqn:Hk'; [|by rewrite !deref_None].
    rewrite !deref_pool, Hp', Hp.
    destruct (W2 _ _ Hk) as (ok & Hok & _). apply lookup_lt_Some in Hok.
    rewrite Hp, length_app in Hok. simpl in Hok.
    assert (i = length l) by lia. subst i.
    assert (j <> length l) by (intros ->; by apply Hne, (Hinj _ _ (length l))).
    destruct (W2 _ _ Hk') as (o & Ho & _). rewrite Hp in Ho.
    apply lookup_app_Some in Ho as [Ho | [Hge Ho]].
    + by rewrite lookup_app_l by (by eapply lookup_lt_Some).
    + apply list_lookup_singleton_Some in Ho as [? _]. lia.
Qed.

Lemma remove_length k w i :
  store_wf w -> slots w !! k = Some i ->
  S (length (pool (DuckerNative_RemoveObject k w))) = length (pool w).
Proof.
  intros W Hk.
  destruct (remove_effect k w i W Hk) as (l & x & Hp & Hp' & _).
  rewrite Hp, Hp', length_app. simpl.
  case_decide; rewrite ?length_insert; lia.
Qed.

(** The object swapped into the hole is found at its new slot. *)
Lemma remove_moves_last k w i l x :
  store_wf w -> FindObject k w = Some i -> pool w = l ++ [x] ->
  (i < length l)%nat ->
  FindObject (id x) (DuckerNative_RemoveObject k w) = Some i /\
  deref (DuckerNative_RemoveObject k w) (Some i) = Some x.
Proof.
  intros W Hk Hp Hi. rewrite FindObject_slots in Hk.
  destruct (remove_effect k w i W Hk) as (l' & x' & Hp1 & Hp' & Hs' & _).
  rewrite Hp in Hp1. apply app_inj_tail in Hp1 as [<- <-].
  rewrite FindObject_slots, deref_pool, Hp', Hs'.
  rewrite !decide_True by done. split.
  - rewrite lookup_delete_ne, lookup_insert_eq; [done|].
    intros Heq. destruct W as [W1 _].
    assert (Hx : slots w !! id x = Some (length l)).
    { apply W1. rewrite Hp, lookup_app_r by lia. by rewrite Nat.sub_diag. }
    rewrite Heq, Hx in Hk. injection Hk as Hk. lia.
  - by rewrite list_lookup_insert_eq.
Qed.

Lemma resolve_Some k w o :
  resolve k w = Some o <->
  exists i, FindObject k w = Some i /\ deref w (Some i) = Some o.
Proof.
  unfold resolve. destruct (FindObject k w) as [i|].
  - split; [eauto|]. by intros (i' & [= <-] & ?).
  - rewrite deref_None. split; [done|]. by intros (i' & ? & ?).
Qed.

Lemma resolve_is_Some k w :
  store_wf w -> is_Some (slots w !! k) <-> is_Some (resolve k w).
Proof.
  intros [W1 W2]. unfold resolve. rewrite FindObject_slots. split.
  - intros [i Hi]. rewrite Hi, deref_pool.
    destruct (W2 _ _ Hi) as (o & -> & _). eauto.
  - destruct (slots w !! k); [eauto|]. rewrite deref_None. by intros [? ?].
Qed.

Lemma resolve_id k w o : store_wf w -> resolve k w = Some o -> id o = k.
Proof.
  intros [W1 W2] (i & Hi & Ho)%resolve_Some.
  rewrite FindObject_slots in Hi. rewrite deref_pool in Ho.
  destruct (W2 _ _ Hi) as (o' & Ho' & <-). congruence.
Qed.

Lemma ids_from_succ (a : Z) (n : nat) :
  map (fun j => a + Z.of_nat j) (seq 0 (S n)) =
  a :: map (fun j => (a + 1) + Z.of_nat j) (seq 0 n).
Proof.
  simpl. rewrite Z.add_0_r. f_equal.
  rewrite <- seq_shift, map_map. apply map_ext. intros j. lia.
Qed.

(** A run of insertions that does not exhaust the 32-bit id space. *)
Lemma add_all_spec objs : forall w,
  is_Some (state w) -> store_wf w ->
  (forall k i, slots w !! k = Some i -> 1 <= k < next_id w) ->
  1 <= next_id w -> next_id w + Z.of_nat (length objs) <= 2 ^ 32 ->
  snd (add_all objs w) =
    map (fun j => next_id w + Z.of_nat j) (seq 0 (length objs)) /\
  is_Some (state (fst (add_all objs w))) /\
  store_wf (fst (add_all objs w)) /\
  (exists new, pool (fst (add_all objs w)) = pool w ++ new /\
               length new = length objs) /\
  (forall k i, slots w !! k = Some i -> slots (fst (add_all objs w)) !! k = Some i) /\
  (forall k, k ∈ snd (add_all objs w) ->
             is_Some (slots (fst (add_all objs w)) !! k)) /\
  (forall k i, slots (fst (add_all objs w)) !! k = Some i ->
               1 <= k < next_id w + Z.of_nat (length objs)).
Proof.
  induction objs as [|o rest IH]; intros w [s E] W Hb H1 Hn.
  - simpl. split_and!; try done.
    + exists []. by rewrite app_nil_r.
    + intros k Hk. by apply elem_of_nil in Hk.
    + intros k i Hk. apply Hb in Hk. lia.
  - destruct (add_effect o w s E) as (o' & _ & Hid & Hret & Hp & Hs & Hnx & _ & _ & E1).
    assert (Hnext : next_id w = nextObjectId s) by (unfold next_id; by rewrite E).
    assert (Hfresh : slots w !! nextObjectId s = None).
    { destruct (slots w !! nextObjectId s) eqn:Hk; [|done].
      apply Hb in Hk. lia. }
    pose proof (store_wf_add o w s E W Hfresh) as W1.
    simpl add_all.
    destruct (AddObjectInternal o w) as [w1 k1] eqn:EA. simpl in Hret, Hp, Hs, Hnx, E1, W1.
    assert (Hb1 : forall k i, slots w1 !! k = Some i -> 1 <= k < next_id w + 1).
    { intros k i. rewrite Hs. intros [[<- _]|[_ H]]%lookup_insert_Some; [lia|].
      apply Hb in H. lia. }
    destruct rest as [|o2 rest].
    + simpl. subst k1. rewrite Hnext, Z.add_0_r. split_and!; try done.
      * exists [o']. by rewrite Hp.
      * intros k i Hk. rewrite Hs, lookup_insert_ne; [done|]. congruence.
      * intros k ->%list_elem_of_singleton. rewrite Hs, lookup_insert_eq. eauto.
      * intros k i Hk. apply Hb1 in Hk. lia.
    + assert (Hw : wrap_uint32 (nextObjectId s + 1) = nextObjectId s + 1).
      { unfold wrap_uint32. apply Z.mod_small. rewrite !length_cons in Hn. lia. }
      rewrite Hw in Hnx.
      destruct (IH w1) as (Hids & Hst & Hwf & (new & Hnew & Hlen) & Hkeep & Hdom & Hbound);
        try done.
      * intros k i Hk. apply Hb1 in Hk. lia.
      * lia.
      * rewrite Hnx. rewrite !length_cons in *. lia.
      * destruct (add_all (o2 :: rest) w1) as [w2 ks] eqn:EB.
        simpl fst in *. simpl snd in *.
        split_and!; try done.
        -- rewrite Hids, Hret, Hnext, Hnx.
           change (length (o :: o2 :: rest)) with (S (length (o2 :: rest))).
           by rewrite ids_from_succ.
        -- exists (o' :: new). rewrite Hnew, Hp, <- app_assoc. split; [done|].
           simpl. by rewrite Hlen.
        -- intros k i Hk. apply Hkeep. rewrite Hs, lookup_insert_ne; [done|]. congruence.
        -- intros k [->|Hk]%elem_of_cons; [|by apply Hdom].
           exists (length (pool w)). apply Hkeep. rewrite Hret, Hs. apply lookup_insert_eq.
        -- intros k i Hk. apply Hbound in Hk. rewrite Hnx in Hk.
           rewrite !length_cons in *. lia.
Qed.

Lemma remove_all_spec ks : forall w,
  store_wf w -> NoDup ks -> (forall k, k ∈ ks -> is_Some (slots w !! k)) ->
  store_wf (remove_all ks w) /\
  (forall k, k ∈ ks -> FindObject k (remove_all ks w) = None) /\
  (forall k, k ∉ ks -> resolve k (remove_all ks w) = resolve k w) /\
  (length (pool (remove_all ks w)) + length ks = length (pool w))%nat.
Proof.
  induction ks as [|k ks IH]; intros w W Hnd Hin.
  - simpl. split_and!; try done.
    intros k Hk. by apply elem_of_nil in Hk.
  - apply NoDup_cons in Hnd as [Hk Hnd]. simpl.
    pose proof (store_wf_remove k w W) as W1.
    destruct (IH (DuckerNative_RemoveObject k w)) as (Hwf & Hgone & Hkeep & Hlen);
      try done.
    { intros k' Hk'. apply resolve_is_Some; [done|].
      rewrite remove_other; [|done|by intros ->].
      apply resolve_is_Some; [done|]. apply Hin. by right. }
    split_and!; try done.
    + intros k' [->|Hk']%elem_of_cons; [|by apply Hgone].
      pose proof (Hkeep k Hk) as Hr.
      unfold resolve in Hr at 2. rewrite remove_same, deref_None in Hr.
      rewrite FindObject_slots.
      destruct (slots (remove_all ks (DuckerNative_RemoveObject k w)) !! k) eqn:Hs; [|done].
      assert (is_Some (resolve k (remove_all ks (DuckerNative_RemoveObject k w)))) as [? Hx].
      { apply resolve_is_Some; [done|]. eauto. }
      rewrite Hr in Hx. done.
    + intros k' Hk'. apply not_elem_of_cons in Hk' as [Hne Hk'].
      fold (remove_all ks (DuckerNative_RemoveObject k w)).
      rewrite Hkeep by done. by apply remove_other.
    + destruct (Hin k) as [i Hi]; [by left|].
      pose proof (remove_length k w i W Hi).
      fold (remove_all ks (DuckerNative_RemoveObject k w)). lia.
Qed.

Lemma fresh_store_wf w : fresh w -> store_wf w.
Proof.
  intros (_ & Hp & Hm & _). unfold store_wf. rewrite Hp, Hm.
  split; [by intros i o Hi|]. intros k i Hk. by rewrite lookup_empty in Hk.
Qed.

(** C1 (Scene Store id/slot integrity).  On a fresh engine, after any run of
    fewer than 2^32 insertions followed by the removal of any duplicate-free
    selection of the issued ids: the ids issued are 1, 2, ..., N; every id
    that was not removed is found, in a slot of the pool that holds the
    object of that id, the very object it designated before the removals;
    every removed id is not found; the pool holds N minus the number of
    removed objects; and removing one more object that is not in the last
    slot makes the id of the formerly last object resolve to the vacated
    slot, which now holds that object. *)
Theorem scene_store_identity_roundtrip
    (w0 : World) (objs : list (RenderObject F)) (removed : list Z) :
  fresh w0 ->
  Z.of_nat (length objs) < 2 ^ 32 ->
  NoDup removed ->
  (forall k, k ∈ removed -> k ∈ snd (add_all objs w0)) ->
  snd (add_all objs w0) = map Z.of_nat (seq 1 (length objs)) /\
  (forall k, k ∈ snd (add_all objs w0) -> k ∉ removed ->
     exists i o,
       FindObject k (remove_all removed (fst (add_all objs w0))) = Some i /\
       deref (remove_all removed (fst (add_all objs w0))) (Some i) = Some o /\
       id o = k /\
       resolve k (fst (add_all objs w0)) = Some o) /\
  (forall k, k ∈ removed ->
     FindObject k (remove_all removed (fst (add_all objs w0))) = None) /\
  length (pool (remove_all removed (fst (add_all objs w0)))) =
    (length objs - length removed)%nat /\
  (forall k i l x,
     FindObject k (remove_all removed (fst (add_all objs w0))) = Some i ->
     pool (remove_all removed (fst (add_all objs w0))) = l ++ [x] ->
     (i < length l)%nat ->
     FindObject (id x)
       (DuckerNative_RemoveObject k (remove_all removed (fst (add_all objs w0))))
       = Some i /\
     deref
       (DuckerNative_RemoveObject k (remove_all removed (fst (add_all objs w0))))
       (Some i) = Some x).
Proof.
  intros Hf Hn Hnd Hsub. pose proof (fresh_store_wf w0 Hf) as W0.
  destruct Hf as (E & Hp0 & Hm & Hnext).
  destruct (add_all_spec objs w0) as (Hids & _ & W1 & (new & Hnew & Hlen) & _ & Hdom & _).
  { done. }
  { done. }
  { intros k i. by rewrite Hm, lookup_empty. }
  { lia. }
  { lia. }
  destruct (remove_all_spec removed (fst (add_all objs w0)))
    as (W2 & Hgone & Hkeep & Hlen2); [done|done|by auto|].
  split_and!.
  - rewrite Hids, Hnext, <- seq_shift, map_map. apply map_ext. intros j. lia.
  - intros k Hk Hnk.
    destruct (proj1 (resolve_is_Some k _ W1) (Hdom k Hk)) as [o Hr].
    pose proof (Hkeep k Hnk) as Hr2. rewrite Hr in Hr2.
    apply resolve_Some in Hr2 as (i & Hi & Hd).
    exists i, o. split_and!; try done.
    by apply (resolve_id k (fst (add_all objs w0))).
  - done.
  - rewrite Hnew, Hp0 in Hlen2. simpl in Hlen2. lia.
  - intros k i l x Hk Hp Hi. by apply remove_moves_last with l.
Qed.
End StoreProofs.

(** Three insertions into a fresh engine, then the removal of the first:
    id 3 moves to slot 0, id 1 is gone, two objects remain. *)
Lemma scene_store_identity_roundtrip_witness :
  fresh started /\
  FindObject 3 (remove_all [1] (fst (add_all three_objects started))) = Some 0%nat /\
  FindObject 1 (remove_all [1] (fst (add_all three_objects started))) = None /\
  length (pool (remove_all [1] (fst (add_all three_objects started)))) = 2%nat.
Proof.
  assert (Hf : fresh started).
  { assert (Hn : next_id started = 1) by (vm_compute; reflexivity).
    split_and!; [|vm_compute; reflexivity..].
    unfold next_id in Hn. by destruct (state started). }
  split; [exact Hf|].
  destruct (scene_store_identity_roundtrip started three_objects [1] Hf)
    as (_ & Hkeep & Hgone & Hlen & _).
  - simpl. lia.
  - apply NoDup_singleton.
  - intros k ->%list_elem_of_singleton. vm_compute. left.
  - split_and!.
    + destruct (Hkeep 3) as (i & o & Hi & _).
      * vm_compute. right. right. left.
      * intros [=]%list_elem_of_singleton.
      * vm_compute. reflexivity.
    + apply Hgone. left.
    + exact Hlen.
Defined.

Section AddProofs.
Context {F : Type} {FO : FloatOps F} {EX : External F}.

(** The id an insertion returns resolves to the object just stored. *)
Lemma add_resolve (o : RenderObject F) (w : World) (s : RendererState) :
  state w = Some s ->
  resolve (snd (AddObjectInternal o w)) (fst (AddObjectInternal o w)) =
  Some (stored s o).
Proof.
  intros E. unfold resolve, FindObject, deref, AddObjectInternal.
  rewrite E. simpl. rewrite lookup_insert_eq.
  rewrite lookup_app_r by lia. by rewrite Nat.sub_diag.
Qed.

Lemma add_marks_dirty (o : RenderObject F) (w : World) :
  is_Some (state w) -> dirty (fst (AddObjectInternal o w)) = true.
Proof.
  intros [s E]. by destruct (add_effect o w s E) as (? & _ & _ & _ & _ & _ & _ & H & _).
Qed.

Lemma remove_keeps_dirty (k : Z) (w : World) :
  dirty (DuckerNative_RemoveObject k w) = dirty w.
Proof.
  unfold dirty, DuckerNative_RemoveObject.
  destruct (state w) as [s|] eqn:E; [|by rewrite E].
  destruct (objectIdToIndex s !! k); [done|by rewrite E].
Qed.
End AddProofs.

(** ** The dirty-sort batcher *)

(** C2 (Dirty-Sort Batcher sort order), at the pool built by [mixed_batch]:
    line 1 (width 1, clip x = 1), line 2 (width 2, clip x = 2) and a rectangle
    carrying shader 5 (clip x = 3) share layer, shader and texture.  The
    comparator of [Render] puts line 1 before line 2 by width, line 2 before
    the rectangle and the rectangle before line 1 by the bytes of the clip
    rectangle: it is cyclic on them, hence not a strict weak order, although
    [std::sort] requires one. *)
Theorem sort_comparator_cycle :
  exists a b c : RenderObject spec_float,
    pool w_mixed = [a; b; c] /\
    sort_less a b = true /\ sort_less b c = true /\ sort_less c a = true /\
    ~ strict_weak_order (sort_less (F := spec_float)).
Proof.
  eexists _, _, _. split; [vm_compute; reflexivity|].
  assert (H : forall a b c : RenderObject spec_float,
             sort_less a b = true -> sort_less b c = true -> sort_less c a = true ->
             ~ strict_weak_order (sort_less (F := spec_float))).
  { intros a b c Hab Hbc Hca (Hirr & Htrans & _).
    pose proof (Htrans _ _ _ (Htrans _ _ _ Hab Hbc) Hca) as Haa.
    rewrite Hirr in Haa. discriminate. }
  match goal with
  | |- ?A /\ ?B /\ ?C /\ _ =>
      assert (Hab : A) by (vm_compute; reflexivity);
      assert (Hbc : B) by (vm_compute; reflexivity);
      assert (Hca : C) by (vm_compute; reflexivity)
  end.
  split_and!; try assumption. exact (H _ _ _ Hab Hbc Hca).
Qed.

(** C3 (every structural mutation marks the pool dirty).  Insertion does:
    [AddObjectInternal] always sets the flag.  Removal does not:
    [RemoveObject] never writes the flag, and at [remove_after_render] the
    swap-with-last removal leaves layer 2 in front of layer 1 with the flag
    clear, so that the next [Render] keeps the pool out of draw order. *)
Theorem removal_leaves_pool_unsorted :
  (forall (o : RenderObject spec_float) (w : @World spec_float Stub.collaborators),
     is_Some (state w) -> dirty (fst (AddObjectInternal o w)) = true) /\
  (forall (k : Z) (w : @World spec_float Stub.collaborators),
     dirty (DuckerNative_RemoveObject k w) = dirty w) /\
  dirty w_removed = false /\
  map zIndex (pool w_removed) = [2; 1] /\
  ~ in_draw_order (pool w_removed) /\
  pool (DuckerNative_Render w_removed) = pool w_removed.
Proof.
  split; [apply add_marks_dirty|].
  split; [apply remove_keeps_dirty|].
  split; [vm_compute; reflexivity|].
  split; [vm_compute; reflexivity|].
  split; [|vm_compute; reflexivity].
  intros Hord.
  destruct (pool w_removed) as [|a [|b l]] eqn:E; try (vm_compute in E; discriminate).
  specialize (Hord 0%nat 1%nat a b).
  assert (Hba : sort_less b a = true).
  { assert (Ha : pool w_removed !! 0%nat = Some a) by (by rewrite E).
    assert (Hb : pool w_removed !! 1%nat = Some b) by (by rewrite E).
    vm_compute in Ha, Hb. injection Ha as <-. injection Hb as <-.
    vm_compute. reflexivity. }
  rewrite Hord in Hba; [discriminate|lia|done|done].
Qed.

(** ** What [Render] does to a dirty pool *)

Section RenderProofs.
Context {F : Type} {FO : FloatOps F} {EX : External F}.











Lemma render_effect (w : World) :
  dirty w = true -> pool w <> [] ->
  pool (DuckerNative_Render w) = std_sort sort_less (pool w) /\
  slots (DuckerNative_Render w)
    = rebuild_index 0 (std_sort sort_less (pool w)) (slots w) /\
  dirty (DuckerNative_Render w) = false.
Proof.
  unfold dirty, pool, slots, DuckerNative_Render.
  destruct (state w) as [s|] eqn:E; [|done].
  intros Hd Hp. destruct (objects s) as [|o l] eqn:Ho; [done|].
  rewrite Hd. simpl. done.
Qed.


End RenderProofs.


(** ** Exact arithmetic *)

Lemma exactQ_Exact : Exact exactQ (fun q => q).
Proof.
  split; simpl; try reflexivity.
  - intros a b. unfold ExactQ.ltb. destruct (Qlt_le_dec a b) as [H|H]; split; try done.
    intros H'. lra.
  - intros a b. unfold ExactQ.eqb. apply Qeq_bool_iff.
Qed.

Section ExactArithmetic.
Context {F : Type} {FO : FloatOps F} {EX : External F}.
Context (val : F -> Q) (Hex : Exact FO val).

Lemma val_small (z : Z) : (val (f_of_int z) == inject_Z z)%Q.
Proof. apply (val_of_int _ _ Hex). Qed.

Lemma val_f0 : (val f0 == 0)%Q.
Proof. unfold f0. rewrite val_small. reflexivity. Qed.



(** *** The Gaussian kernel *)







(** *** Clip rectangles *)








End ExactArithmetic.

(** ** The Gaussian kernel of the blur pipeline *)


Section KernelTheorem.
Context {F : Type} {FO : FloatOps F} {EX : External F}.

End KernelTheorem.


(** ** The clip stack *)


Section StackShape.
Context {F : Type} {FO : FloatOps F} {EX : External F}.

Lemma update_object_clip_stack k f mark (w : World) :
  clip_stack (update_object k f mark w) = clip_stack w.
Proof.
  unfold update_object, FindObject, clip_stack.
  destruct (state w) as [s|] eqn:E; rewrite ?E; [|done].
  destruct (objectIdToIndex s !! k) as [i|]; rewrite ?E; [|done].
  destruct (objects s !! i); simpl; rewrite ?E; done.
Qed.

Lemma add_clip_stack o (w : World) :
  clip_stack (fst (AddObjectInternal o w)) = clip_stack w.
Proof.
  unfold AddObjectInternal, clip_stack.
  destruct (state w) as [s|] eqn:E; simpl; rewrite ?E; done.
Qed.

Lemma DrawText_loop_clip_stack font position color zIndex cos_a sin_a origin
    (fuel : nat) : forall p x y (w w' : World),
  DrawText_loop fuel font position color zIndex cos_a sin_a origin p x y w = Done w' ->
  clip_stack w' = clip_stack w.
Proof.
  induction fuel as [|fuel IH]; intros p x y w w' H.
  - destruct p; [|done]. by injection H as <-.
  - destruct p as [|b p]; [by injection H as <-|].
    cbn [DrawText_loop] in H.
    destruct (utf8_to_codepoint (b :: p)) as [cp n].
    destruct (length (b :: p) <? n)%nat; [done|].
    destruct (glyph_index cp =? -1); [by eapply IH|].
    destruct (stbtt_GetPackedQuad _ _ _ _ _ _ _) as [[q x'] y'].
    apply IH in H. rewrite H. apply add_clip_stack.
Qed.

(** What any call of the interface can do to the clip stack: leave it,
    empty it, push one rectangle computed by [clip_rect], or pop. *)
Lemma exec_clip_stack (c : Call) (w : World) :
  clip_stack (fst (exec c w)) = clip_stack w \/
  clip_stack (fst (exec c w)) = [] \/
  (exists b off,
     clip_stack (fst (exec c w)) =
     clip_stack w ++ [clip_rect b off (last (clip_stack w))]) \/
  clip_stack (fst (exec c w)) = removelast (clip_stack w).
Proof.
  destruct c; simpl;
    try (left; first [ apply update_object_clip_stack | apply add_clip_stack ]).
  - unfold DuckerNative_Initialize, clip_stack.
    destruct (state w) eqn:E; rewrite ?E; [by left|].
    right. left.
    repeat match goal with
           | |- context [CreateShaderProgramInternal ?a ?b ?g] =>
               destruct (CreateShaderProgramInternal a b g)
           end. reflexivity.
  - right. left. unfold DuckerNative_Shutdown, clip_stack.
    destruct (state w) eqn:E; rewrite ?E; done.
  - left. unfold DuckerNative_Render, clip_stack.
    destruct (state w) as [s|] eqn:E; rewrite ?E; [|done].
    destruct (objects s); rewrite ?E; [done|].
    destruct (needsSort s); simpl; rewrite ?E; done.
  - left. unfold DuckerNative_SetScreenSize, clip_stack.
    destruct (state w) eqn:E; simpl; rewrite ?E; done.
  - right. left. unfold DuckerNative_Clear, clip_stack.
    destruct (state w) eqn:E; simpl; rewrite ?E; done.
  - left. unfold DuckerNative_AddLine.
    destruct (state w) eqn:E; simpl; [apply add_clip_stack|done].
  - left. unfold DuckerNative_RemoveObject, clip_stack.
    destruct (state w) as [s|] eqn:E; rewrite ?E; [|done].
    destruct (objectIdToIndex s !! _); simpl; rewrite ?E; done.
  - left. unfold DuckerNative_LoadFont, clip_stack.
    destruct (state w) as [s|] eqn:E; simpl; rewrite ?E; [|done].
    destruct (load_font_atlas _ _); simpl; rewrite ?E; done.
  - left. destruct (DuckerNative_DrawText _ _ _ _ _ _ _ w) as [w'| |] eqn:H; [|done..].
    simpl. unfold DuckerNative_DrawText in H.
    destruct (state w) as [s|]; [|by injection H as <-].
    match type of H with
    | match ?t with _ => _ end = _ => destruct t as [bytes|]; [|by injection H as <-]
    end.
    destruct (fonts s !! _); [|by injection H as <-].
    by eapply DrawText_loop_clip_stack.
  - left. by destruct (DuckerNative_GetTextSize _ _ w).
  - left. unfold DuckerNative_DeleteFont, clip_stack.
    destruct (state w) as [s|] eqn:E; rewrite ?E; [|done].
    destruct (fonts s !! _); simpl; rewrite ?E; done.
  - left. unfold DuckerNative_LoadTexture, clip_stack.
    destruct (stbi_load _) as [[[? ?] ?]|]; done.
  - left. unfold DuckerNative_DeleteTexture, clip_stack.
    by destruct (0 <? _).
  - left. unfold DuckerNative_CreateShader, clip_stack.
    destruct (state w) as [s|] eqn:E; simpl; rewrite ?E; [|done].
    destruct (CreateShaderProgramInternal _ _ _) as [prog g].
    destruct (program_id prog =? 0); done.
  - left. unfold DuckerNative_DeleteShader, clip_stack.
    destruct (state w) as [s|] eqn:E; rewrite ?E; [|done].
    destruct (_ <? 100); rewrite ?E; [done|].
    destruct (shaders s !! _); simpl; rewrite ?E; done.
  - unfold DuckerNative_BeginContainer, clip_stack.
    destruct (state w) as [s|] eqn:E; simpl; rewrite ?E; [|by left].
    right. right. left. eexists _, _. reflexivity.
  - unfold DuckerNative_EndContainer, clip_stack.
    destruct (state w) as [s|] eqn:E; simpl; rewrite ?E; [|by left].
    destruct (containerStack s); simpl; rewrite ?E; [by left|].
    by right; right; right.
Qed.

End StackShape.


Lemma std_max_nonneg32 (x : spec_float) : nonneg32 (std_max f0 x).
Proof.
  unfold nonneg32, std_max.
  change (flt f0 x) with (SFltb (S754_zero false) x).
  destruct (SFltb (S754_zero false) x) eqn:H; [right; exact H | left; reflexivity].
Qed.

(** Whatever the floats, NaN and infinities included, the width and height
    [BeginContainer] pushes are [+0] or positive in binary32. *)
Lemma clip_rect_nonneg32 (b : RectF spec_float) (off : Vec2 spec_float)
    (parent : option (RectF spec_float)) :
  clip_nonneg32 (clip_rect b off parent).
Proof.
  unfold clip_nonneg32, clip_rect. cbn [rw rh]. split; apply std_max_nonneg32.
Qed.

(** Clip non-negativity in binary32.  After any sequence of interface calls
    from an empty clip stack, every clip rectangle on the stack has a width
    and a height that are [+0] or positive: never negative, never NaN,
    whatever floats the containers were given. *)
Theorem clip_stack_nonneg32 {EX : External spec_float} (w : World) (cs : list Call) :
  clip_stack w = [] -> Forall clip_nonneg32 (clip_stack (run cs w)).
Proof.
  intros Hempty.
  assert (H0 : Forall clip_nonneg32 (clip_stack w)) by (rewrite Hempty; constructor).
  clear Hempty. revert w H0. unfold run.
  induction cs as [|c cs IH]; intros w H0; [done|]. simpl. apply IH.
  destruct (exec_clip_stack c w) as [-> | [-> | [(b & off & ->) | ->]]].
  - done.
  - constructor.
  - apply Forall_app. split; [done|]. constructor; [|constructor].
    apply clip_rect_nonneg32.
  - destruct (clip_stack w) as [|r stack _] using rev_ind; [done|].
    rewrite removelast_last. rewrite Forall_app in H0. tauto.
Qed.

(** The two containers at x = 2^24, where rounding widens the child. *)
Lemma clip_stack_nonneg32_witness :
  clip_stack boot32 = [] /\ Forall clip_nonneg32 (clip_stack w_nested_far).
Proof.
  split; [reflexivity|].
  exact (@clip_stack_nonneg32 Stub.collaborators boot32 nested_far eq_refl).
Defined.

(** ** Line geometry *)

Lemma SFltb_irrefl (a : spec_float) : SFltb a a = false.
Proof.
  unfold SFltb, SFcompare. destruct a as [s|s| |s m e]; try destruct s; try done.
  - rewrite Z.compare_refl. change (Pos.compare_cont Eq m m) with (Pos.compare m m).
    by rewrite Pos.compare_refl.
  - rewrite Z.compare_refl. change (Pos.compare_cont Eq m m) with (Pos.compare m m).
    by rewrite Pos.compare_refl.
Qed.

Lemma SFltb_trans (a b c : spec_float) :
  SFltb a b = true -> SFltb b c = true -> SFltb a c = true.
Proof.
  unfold SFltb, SFcompare.
  destruct a as [sa|sa| |sa ma ea], b as [sb|sb| |sb mb eb], c as [sc|sc| |sc mc ec];
    try destruct sa; try destruct sb; try destruct sc; try done.
  all: change (Pos.compare_cont Eq ?p ?q) with (Pos.compare p q).
  all: repeat match goal with
         | |- context [(?x ?= ?y)%Z] => destruct (Z.compare_spec x y)
         | |- context [(?x ?= ?y)%positive] => destruct (Pos.compare_spec x y)
         end; simpl; try done; try lia.
Qed.

Section LineProofs.
Context {F : Type} {FO : FloatOps F}.

Lemma line_points_length (s e : Vec2 F) (cs : list (Vec2 F)) :
  length (line_points s cs e) = S (S (length cs)).
Proof. unfold line_points. rewrite length_app. simpl. lia. Qed.

Lemma curve_polygon_length (s e : Vec2 F) (cs : list (Vec2 F)) :
  (2 <= length (curve_polygon s cs e))%nat.
Proof.
  unfold curve_polygon. destruct cs as [|c cs].
  - destruct (flt _ _); [simpl; lia|]. rewrite line_points_length. lia.
  - rewrite line_points_length. lia.
Qed.

Lemma flat_map_rows_length {A} (row : nat -> list A) (width a n : nat) :
  (forall i, length (row i) = width) ->
  length (flat_map row (seq a n)) = (width * n)%nat.
Proof.
  intros Hrow. revert a. induction n as [|n IH]; intros a; [simpl; lia|].
  cbn [seq flat_map]. rewrite length_app, IH, Hrow. lia.
Qed.

(** Twenty samples for every segment of the control polygon. *)
Lemma curve_samples_length (pts : list (Vec2 F)) :
  length (curve_samples pts) = (num_per_segment * (length pts - 1))%nat.
Proof.
  unfold curve_samples. apply flat_map_rows_length.
  intros i. by rewrite length_map, length_seq.
Qed.

Lemma force_back_last (pts : list (Vec2 F)) (e : Vec2 F) :
  pts <> [] -> last (force_back pts e) = Some e.
Proof. destruct pts; [done|]. intros _. unfold force_back. apply last_snoc. Qed.

Lemma tessellate_curved_last (s e : Vec2 F) (cs : list (Vec2 F)) :
  last (tessellate Curved s cs e) = Some e.
Proof.
  unfold tessellate. apply force_back_last. intros Hnil.
  apply (f_equal length) in Hnil. rewrite curve_samples_length in Hnil.
  pose proof (curve_polygon_length s e cs).
  unfold num_per_segment in Hnil. simpl in Hnil. lia.
Qed.

(** C6 (curved-line tessellation end exactness).  For every object in
    Curved mode the point sequence [RenderObjects] tessellates from its
    start, control points and end finishes on the end point itself; and for
    every input of [AddLine] in Curved mode, with any number of control
    points, the sequence [AddLine] builds finishes on the given end point,
    which is also the end the stored object carries.  This holds for any
    float arithmetic: the last sample is overwritten, not computed. *)
Theorem curved_line_ends_at_end (o : RenderObject F) :
  lineMode o = Curved ->
  last (tessellate (lineMode o) (start o) (controlPoints o) (end_ o))
    = Some (end_ o) /\
  (forall (s e : Vec2 F) (colour : Vec4 F) (width : F)
          (cs : list (Vec2 F)) (z : Z),
     last (tessellate Curved s cs e) = Some e /\
     end_ (line_object s e colour width Curved cs z) = e /\
     start (line_object s e colour width Curved cs z) = s /\
     controlPoints (line_object s e colour width Curved cs z) = cs /\
     lineMode (line_object s e colour width Curved cs z) = Curved).
Proof.
  intros ->. split; [apply tessellate_curved_last|].
  intros s e colour width cs z. split; [apply tessellate_curved_last|done].
Qed.

(** *** Extents *)

Section Order.
Hypothesis flt_irrefl : forall a : F, flt a a = false.
Hypothesis flt_trans :
  forall a b c : F, flt a b = true -> flt b c = true -> flt a c = true.

Lemma fold_min_spec (xs : list F) (m0 : F) :
  is_min_of (fold_left std_min xs m0) (m0 :: xs).
Proof.
  induction xs as [|x xs IH] using rev_ind.
  - split; [by left|]. intros x ->%list_elem_of_singleton. apply flt_irrefl.
  - rewrite fold_left_app. simpl. destruct IH as [Hin Hlow].
    unfold std_min at 1. rewrite app_comm_cons.
    destruct (flt x (fold_left std_min xs m0)) eqn:Hx.
    + split; [apply elem_of_app; right; by left|]. intros y Hy.
      apply elem_of_app in Hy as [Hy|Hy].
      * destruct (flt y x) eqn:Hyx; [|done].
        pose proof (Hlow y Hy) as Hy'.
        by rewrite (flt_trans _ _ _ Hyx Hx) in Hy'.
      * apply list_elem_of_singleton in Hy as ->. apply flt_irrefl.
    + split; [apply elem_of_app; by left|]. intros y Hy.
      apply elem_of_app in Hy as [Hy|Hy].
      * by apply Hlow.
      * by apply list_elem_of_singleton in Hy as ->.
Qed.

Lemma fold_max_spec (xs : list F) (m0 : F) :
  is_max_of (fold_left std_max xs m0) (m0 :: xs).
Proof.
  induction xs as [|x xs IH] using rev_ind.
  - split; [by left|]. intros x ->%list_elem_of_singleton. apply flt_irrefl.
  - rewrite fold_left_app. simpl. destruct IH as [Hin Hup].
    unfold std_max at 1. rewrite app_comm_cons.
    destruct (flt (fold_left std_max xs m0) x) eqn:Hx.
    + split; [apply elem_of_app; right; by left|]. intros y Hy.
      apply elem_of_app in Hy as [Hy|Hy].
      * destruct (flt x y) eqn:Hxy; [|done].
        pose proof (Hup y Hy) as Hy'.
        by rewrite (flt_trans _ _ _ Hx Hxy) in Hy'.
      * apply list_elem_of_singleton in Hy as ->. apply flt_irrefl.
    + split; [apply elem_of_app; by left|]. intros y Hy.
      apply elem_of_app in Hy as [Hy|Hy].
      * by apply Hup.
      * by apply list_elem_of_singleton in Hy as ->.
Qed.

Lemma extent_of_folds (p0 : Vec2 F) (pts : list (Vec2 F)) :
  extent_of p0 pts =
  mkExtent (fold_left std_min (map vx pts) (vx p0))
           (fold_left std_max (map vx pts) (vx p0))
           (fold_left std_min (map vy pts) (vy p0))
           (fold_left std_max (map vy pts) (vy p0)).
Proof.
  unfold extent_of.
  generalize (vx p0) at 1 3 as a. generalize (vx p0) as b.
  generalize (vy p0) at 1 3 as c. generalize (vy p0) as d.
  induction pts as [|p pts IH]; intros d c b a; [done|].
  simpl. apply IH.
Qed.

(** The extent of a straight line starts from [start] and folds over all
    its points, [start] among them. *)
Lemma straight_extent (s e : Vec2 F) (cs : list (Vec2 F)) :
  let pts := line_points s cs e in
  let ext := extent_of s pts in
  is_min_of (minX ext) (map vx pts) /\ is_max_of (maxX ext) (map vx pts) /\
  is_min_of (minY ext) (map vy pts) /\ is_max_of (maxY ext) (map vy pts).
Proof.
  intros pts ext. unfold ext. rewrite extent_of_folds. simpl.
  assert (Hdup : forall (m : F) (xs : list F) (x : F),
             x ∈ xs -> (m ∈ x :: xs -> m ∈ xs)).
  { intros m xs x Hx [->|H]%elem_of_cons; done. }
  assert (Hsx : vx s ∈ map vx pts) by (unfold pts, line_points; simpl; by left).
  assert (Hsy : vy s ∈ map vy pts) by (unfold pts, line_points; simpl; by left).
  split_and!.
  - destruct (fold_min_spec (map vx pts) (vx s)) as [H1 H2].
    split; [by apply (Hdup _ _ _ Hsx)|]. intros y Hy. apply H2. by right.
  - destruct (fold_max_spec (map vx pts) (vx s)) as [H1 H2].
    split; [by apply (Hdup _ _ _ Hsx)|]. intros y Hy. apply H2. by right.
  - destruct (fold_min_spec (map vy pts) (vy s)) as [H1 H2].
    split; [by apply (Hdup _ _ _ Hsy)|]. intros y Hy. apply H2. by right.
  - destruct (fold_max_spec (map vy pts) (vy s)) as [H1 H2].
    split; [by apply (Hdup _ _ _ Hsy)|]. intros y Hy. apply H2. by right.
Qed.
End Order.

Lemma num_segments_straight (s e : Vec2 F) (cs : list (Vec2 F)) :
  Z.of_nat (length cs) < 2 ^ 30 - 1 ->
  wrap_int32 (num_segments (line_points s cs e) * 2) =
  2 * Z.max 0 (Z.of_nat (length (line_points s cs e)) - 1).
Proof.
  intros Hn. unfold num_segments. rewrite line_points_length.
  replace (1 <? S (S (length cs)))%nat with true by (symmetry; apply Nat.ltb_lt; lia).
  assert (H30 : 2 ^ 30 = 1073741824) by reflexivity.
  unfold wrap_int32.
  change (2 ^ 31) with 2147483648. change (2 ^ 32) with 4294967296.
  rewrite (Z.mod_small (Z.of_nat (S (S (length cs))) - 1 + 2147483648)) by lia.
  rewrite Z.mod_small by lia. lia.
Qed.
End LineProofs.

(** A curved line without control points, as [AddLine] builds it. *)
Lemma curved_line_ends_at_end_witness :
  lineMode (line_object (pt 0 0) (pt 100 0) white (fi 4) Curved [] 0) = Curved /\
  last (tessellate Curved (pt 0 0) [] (pt 100 0)) = Some (pt 100 0).
Proof.
  split; [reflexivity|].
  exact (proj1 (curved_line_ends_at_end
                  (line_object (pt 0 0) (pt 100 0) white (fi 4) Curved [] 0)
                  eq_refl)).
Defined.

(** C7 (straight line scenario and bounds formula).  On an engine
    initialised at 800 by 600, addLine from {0,0} to {100,0} with stroke
    width 4, Straight, no control points, returns id 1 and stores an object
    with triCount 2 and bounds {-2,-2,104,4}.  In general, on an initialised
    engine and with fewer than 2^30 - 1 control points, the stored straight
    line has triCount 2 * max(0, pointCount - 1) and bounds
    {minX - w/2, minY - w/2, (maxX - minX) + w, (maxY - minY) + w}, where
    minX, maxX, minY, maxY are least and greatest coordinates of its points
    (start, control points, end) and the arithmetic is that of binary32. *)
Theorem straight_line_triangles_and_bounds :
  (exists o,
     snd (exec scenario_line started) = RId 1 /\
     resolve 1 (fst (exec scenario_line started)) = Some o /\
     triCount o = 2 /\ bounds o = rect (-2) (-2) 104 4) /\
  (forall (EX : External spec_float) (w : World) (s e : Vec2 spec_float)
          (colour : Vec4 spec_float) (width : spec_float)
          (controls : list (Vec2 spec_float)) (z : Z),
     is_Some (state w) ->
     Z.of_nat (length controls) < 2 ^ 30 - 1 ->
     exists o ext,
       resolve (snd (DuckerNative_AddLine s e colour width Straight controls z w))
               (fst (DuckerNative_AddLine s e colour width Straight controls z w))
         = Some o /\
       type o = Line /\
       triCount o = 2 * Z.max 0 (Z.of_nat (length (line_points s controls e)) - 1) /\
       is_min_of (minX ext) (map vx (line_points s controls e)) /\
       is_max_of (maxX ext) (map vx (line_points s controls e)) /\
       is_min_of (minY ext) (map vy (line_points s controls e)) /\
       is_max_of (maxY ext) (map vy (line_points s controls e)) /\
       bounds o =
         mkRectF (fsub (minX ext) (fdiv width (f_of_int 2)))
                 (fsub (minY ext) (fdiv width (f_of_int 2)))
                 (fadd (fsub (maxX ext) (minX ext)) width)
                 (fadd (fsub (maxY ext) (minY ext)) width)).
Proof.
  split.
  - eexists. split; [vm_compute; reflexivity|].
    split; [vm_compute; reflexivity|]. split; vm_compute; reflexivity.
  - intros EX w s e colour width controls z [st E] Hn.
    exists (stored st (line_object s e colour width Straight controls z)),
           (extent_of s (line_points s controls e)).
    destruct (@straight_extent spec_float binary32 SFltb_irrefl SFltb_trans s e controls)
      as (H1 & H2 & H3 & H4).
    split_and!; try done.
    + unfold DuckerNative_AddLine. rewrite E. by apply add_resolve.
    + simpl. by apply num_segments_straight.
Qed.

(** The general formula at a line through one control point. *)
Lemma straight_line_triangles_and_bounds_witness :
  is_Some (state started) /\
  exists o,
    resolve (snd (DuckerNative_AddLine (pt 0 0) (pt 30 40) white (fi 2)
                    Straight [pt 10 50] 0 started))
            (fst (DuckerNative_AddLine (pt 0 0) (pt 30 40) white (fi 2)
                    Straight [pt 10 50] 0 started)) = Some o /\
    triCount o = 4.
Proof.
  assert (Hs : is_Some (state started)).
  { assert (Hn : next_id started = 1) by (vm_compute; reflexivity).
    unfold next_id in Hn. by destruct (state started). }
  split; [exact Hs|].
  destruct (proj2 straight_line_triangles_and_bounds Stub.collaborators started
              (pt 0 0) (pt 30 40) white (fi 2) [pt 10 50] 0 Hs)
    as (o & ext & Hr & _ & Ht & _).
  - simpl. lia.
  - exists o. split; [exact Hr|]. rewrite Ht. reflexivity.
Defined.

(** ** Calls before [Initialize] *)

(** The claim of C8 fails at loadTexture: before [Initialize], with a file
    that decodes, it allocates a GL texture and returns its name 1 and the
    image size, not the sentinel 0. *)
Lemma loadTexture_before_initialize :
  state boot32 = None /\
  exec (LoadTexture "logo.png") boot32
    = (mkWorld None (mkGL 2 [1]), RTexture 1 (Some (64, 64))) /\
  exec (LoadTexture "logo.png") boot32
    <> (boot32, sentinel (LoadTexture "logo.png")).
Proof.
  split; [reflexivity|].
  assert (H : exec (LoadTexture "logo.png") boot32
              = (mkWorld None (mkGL 2 [1]), RTexture 1 (Some (64, 64))))
    by reflexivity.
  split; [exact H|]. rewrite H. discriminate.
Qed.

Section Uninitialised.
Context {F : Type} {FO : FloatOps F} {EX : External F}.

Lemma update_object_uninitialised k f mark (w : World) :
  state w = None -> update_object k f mark w = w.
Proof. intros E. unfold update_object. by rewrite E. Qed.

(** C8 (uninitialised-engine safety), amended.  While the engine pointer
    is null, every call of the interface that consults it (all but
    initialize, loadTexture and deleteTexture) leaves the engine and the GL
    context as they were and returns its sentinel: id 0 from the Add
    calls, loadFont and createShader, the size {0, 0} from measureText,
    nothing from the others. *)
Theorem uninitialised_calls_are_noops (c : Call) (w : World) :
  state w = None -> consults_state c = true ->
  exec c w = (w, sentinel c).
Proof.
  intros E Hc. destruct c; try discriminate Hc; simpl;
    unfold returning_id,
      DuckerNative_Shutdown, DuckerNative_Render, DuckerNative_SetScreenSize,
      DuckerNative_Clear, DuckerNative_AddRect, DuckerNative_AddRoundedRect,
      DuckerNative_AddCircle, DuckerNative_AddLine, DuckerNative_RemoveObject,
      DuckerNative_LoadFont, DuckerNative_DrawText, DuckerNative_GetTextSize,
      DuckerNative_DeleteFont, DuckerNative_CreateShader,
      DuckerNative_SetObjectBorder, DuckerNative_DeleteShader,
      DuckerNative_SetObjectShader, DuckerNative_SetObjectUniform,
      DuckerNative_SetObjectCornerRadius, DuckerNative_SetObjectRotation,
      DuckerNative_SetObjectRotationOrigin, DuckerNative_SetObjectRotationAndOrigin,
      DuckerNative_SetObjectElevation, DuckerNative_BeginContainer,
      DuckerNative_EndContainer;
    rewrite ?update_object_uninitialised, ?add_uninitialised, ?E by done;
    reflexivity.
Qed.
End Uninitialised.

(** addLine and drawText before [Initialize]. *)
Lemma uninitialised_calls_are_noops_witness :
  state boot32 = None /\
  exec scenario_line boot32 = (boot32, RId 0) /\
  exec (DrawText 1 (Some [72; 105]) (pt 0 0) white 0 (fi 0) (pt 0 0)) boot32
    = (boot32, RVoid).
Proof.
  split; [reflexivity|]. split.
  - exact (uninitialised_calls_are_noops scenario_line boot32 eq_refl eq_refl).
  - exact (uninitialised_calls_are_noops
             (DrawText 1 (Some [72; 105]) (pt 0 0) white 0 (fi 0) (pt 0 0))
             boot32 eq_refl eq_refl).
Defined.

(** ** Text *)

(** The claim of C9 fails at a line feed: the string decodes to the one
    code point U+000A, for which the atlas has no glyph, and drawText with
    a loaded font adds nothing to the pool. *)
Lemma drawText_skips_codepoints_outside_the_atlas :
  utf8_decode [10] = Done [10] /\
  exists w',
    DuckerNative_DrawText 1 (Some [10]) (pt 0 0) white 0 (fi 0) (pt 0 0) with_font
      = Done w' /\
    length (pool w') = length (pool with_font).
Proof.
  split; [reflexivity|].
  destruct (DuckerNative_DrawText 1 (Some [10]) (pt 0 0) white 0 (fi 0) (pt 0 0)
              with_font) as [w'| |] eqn:E.
  - exists w'. split; [reflexivity|].
    assert (H : match DuckerNative_DrawText 1 (Some [10]) (pt 0 0) white 0 (fi 0)
                        (pt 0 0) with_font with
                | Done w1 => length (pool w1)
                | _ => 1%nat
                end = length (pool with_font)) by (vm_compute; reflexivity).
    by rewrite E in H.
  - assert (H : match DuckerNative_DrawText 1 (Some [10]) (pt 0 0) white 0 (fi 0)
                        (pt 0 0) with_font with
                | Done w1 => true
                | _ => false
                end = true) by (vm_compute; reflexivity).
    by rewrite E in H.
  - assert (H : match DuckerNative_DrawText 1 (Some [10]) (pt 0 0) white 0 (fi 0)
                        (pt 0 0) with_font with
                | Done w1 => true
                | _ => false
                end = true) by (vm_compute; reflexivity).
    by rewrite E in H.
Qed.

Section TextProofs.
Context {F : Type} {FO : FloatOps F} {EX : External F}.

Lemma utf8_advance (p : list Z) : (1 <= snd (utf8_to_codepoint p) <= 4)%nat.
Proof.
  unfold utf8_to_codepoint.
  repeat match goal with |- context [if ?b then _ else _] => destruct b end;
    simpl; lia.
Qed.

(** The decoder consumes at least one byte a step: the length of the
    string is fuel enough. *)
Lemma codepoints_fuel (fuel : nat) : forall p,
  (length p <= fuel)%nat -> codepoints fuel p <> OutOfFuel.
Proof.
  induction fuel as [|fuel IH]; intros p Hlen.
  - destruct p; [done|simpl in Hlen; lia].
  - destruct p as [|b p]; [done|]. cbn [codepoints].
    pose proof (utf8_advance (b :: p)) as Hn.
    destruct (utf8_to_codepoint (b :: p)) as [cp n]. simpl in Hn.
    destruct (length (b :: p) <? n)%nat; [done|].
    specialize (IH (drop n (b :: p))).
    destruct (codepoints fuel (drop n (b :: p))); try done.
    apply IH. rewrite length_drop. simpl in *. lia.
Qed.

Lemma utf8_decode_total (text : list Z) : utf8_decode text <> OutOfFuel.
Proof. unfold utf8_decode. by apply codepoints_fuel. Qed.

Lemma DrawText_loop_spec (font : Font) position color zIndex cos_a sin_a origin
    (fuel : nat) : forall (p : list Z) (x y : F) (w : World) (cps : list Z),
  is_Some (state w) ->
  codepoints fuel p = Done cps ->
  exists w' glyphs,
    DrawText_loop fuel font position color zIndex cos_a sin_a origin p x y w
      = Done w' /\
    is_Some (state w') /\
    pool w' = pool w ++ glyphs /\
    length glyphs = length (List.filter in_atlas cps) /\
    Forall (fun o => type o = Glyph) glyphs.
Proof.
  induction fuel as [|fuel IH]; intros p x y w cps Hw Hcps.
  - destruct p; [|done]. injection Hcps as <-.
    exists w, []. by rewrite app_nil_r.
  - destruct p as [|b p].
    { injection Hcps as <-. exists w, []. by rewrite app_nil_r. }
    cbn [codepoints] in Hcps. cbn [DrawText_loop].
    destruct (utf8_to_codepoint (b :: p)) as [cp n].
    destruct (length (b :: p) <? n)%nat; [done|].
    destruct (codepoints fuel (drop n (b :: p))) as [rest| |] eqn:Hrest; try done.
    injection Hcps as <-. cbn [List.filter]. unfold in_atlas at 1.
    destruct (glyph_index cp =? -1) eqn:Hidx; cbn [negb].
    + by apply IH.
    + destruct (stbtt_GetPackedQuad _ _ _ _ _ _ _) as [[q x'] y'].
      set (obj := glyph_object font q position color zIndex cos_a sin_a origin).
      destruct Hw as [s E].
      destruct (add_effect obj w s E)
        as (o' & Ho' & _ & _ & Hp & _ & _ & _ & _ & E1).
      destruct (IH (drop n (b :: p)) x' y' (fst (AddObjectInternal obj w)) rest E1 Hrest)
        as (w' & glyphs & Hrun & Hst & Hpool & Hlen & Hall).
      exists w', (o' :: glyphs). split_and!; try done.
      * rewrite Hpool, Hp, <- app_assoc. done.
      * simpl. by rewrite Hlen.
      * constructor; [|done]. by rewrite Ho'.
Qed.

(** C9 (drawText glyph emission), amended.  On an initialised engine,
    for every loaded font and every string whose UTF-8 sequences are
    complete (decoding never runs past the terminator), drawText returns
    and appends to the pool exactly one Glyph object for every decoded
    code point that the atlas covers, U+0020..U+007F and U+0400..U+04FF,
    and nothing for the other code points. *)
Theorem drawText_emits_one_glyph_per_atlas_codepoint
    (w : World) (fontId : Z) (text : list Z) (position : Vec2 F)
    (colour : Vec4 F) (z : Z) (angle : F) (origin : Vec2 F) (cps : list Z) :
  is_Some (loaded_font fontId w) ->
  utf8_decode text = Done cps ->
  exists w' glyphs,
    DuckerNative_DrawText fontId (Some text) position colour z angle origin w
      = Done w' /\
    pool w' = pool w ++ glyphs /\
    length glyphs = length (List.filter in_atlas cps) /\
    Forall (fun o => type o = Glyph) glyphs.
Proof.
  intros [font Hfont] Hcps. unfold loaded_font in Hfont.
  destruct (state w) as [s|] eqn:E; [|done].
  unfold DuckerNative_DrawText. rewrite E, Hfont.
  unfold utf8_decode in Hcps.
  edestruct DrawText_loop_spec as (w' & glyphs & Hrun & _ & Hpool & Hlen & Hall);
    [|exact Hcps|].
  { by rewrite E. }
  exists w', glyphs. split_and!; try done.
Qed.
End TextProofs.

(** "Hi", a line feed, U+0416 and U+00E9: five code points, three glyphs. *)
Lemma drawText_emits_one_glyph_per_atlas_codepoint_witness :
  utf8_decode [72; 105; 10; 208; 150; 195; 169] = Done [72; 105; 10; 1046; 233] /\
  exists w' glyphs,
    DuckerNative_DrawText 1 (Some [72; 105; 10; 208; 150; 195; 169])
      (pt 0 0) white 0 (fi 0) (pt 0 0) with_font = Done w' /\
    pool w' = pool with_font ++ glyphs /\
    length glyphs = 3%nat.
Proof.
  assert (Hd : utf8_decode [72; 105; 10; 208; 150; 195; 169]
               = Done [72; 105; 10; 1046; 233]) by (vm_compute; reflexivity).
  split; [exact Hd|].
  assert (Hfont : is_Some (loaded_font 1 with_font)).
  { assert (H : match loaded_font 1 with_font with
                | Some _ => true
                | None => false
                end = true) by (vm_compute; reflexivity).
    destruct (loaded_font 1 with_font); [eauto|discriminate]. }
  destruct (drawText_emits_one_glyph_per_atlas_codepoint with_font 1
              [72; 105; 10; 208; 150; 195; 169] (pt 0 0) white 0 (fi 0) (pt 0 0)
              [72; 105; 10; 1046; 233] Hfont Hd)
    as (w' & glyphs & Hrun & Hpool & Hlen & _).
  exists w', glyphs. split; [exact Hrun|]. split; [exact Hpool|].
  rewrite Hlen. reflexivity.
Defined.

(** ** The default clip *)

Section DefaultClip.
Context {F : Type} {FO : FloatOps F} {EX : External F}.

(** Container pushes and pops touch the two stacks only. *)
Lemma container_call_keeps_objects (c : Call) (w : World) (k : Z) :
  is_container_call c = true -> resolve k (fst (exec c w)) = resolve k w.
Proof.
  destruct c; try discriminate; intros _; simpl.
  - unfold DuckerNative_BeginContainer, resolve, FindObject, deref.
    destruct (state w) eqn:E; simpl; rewrite ?E; reflexivity.
  - unfold DuckerNative_EndContainer, resolve, FindObject, deref.
    destruct (state w) as [s|] eqn:E; simpl; rewrite ?E; [|reflexivity].
    destruct (containerStack s); simpl; rewrite ?E; reflexivity.
Qed.

Lemma container_calls_keep_objects (cs : list Call) (w : World) (k : Z) :
  Forall (fun c => is_container_call c = true) cs ->
  resolve k (run cs w) = resolve k w.
Proof.
  intros H. revert w. induction H as [|c cs Hc _ IH]; intros w; [done|].
  unfold run in *. simpl. rewrite IH. by apply container_call_keeps_objects.
Qed.

(** C10 (implicit default clip).  On an initialised engine with no
    container open, the object an insertion stores has the clip rectangle
    {0, 0, screenWidth, screenHeight} of that moment, and after any later
    sequence of container pushes and pops its id still resolves to the
    same object, clip rectangle included. *)
Theorem default_clip_is_full_screen
    (w : World) (obj : RenderObject F) (later : list Call) :
  is_Some (state w) -> clip_stack w = [] ->
  Forall (fun c => is_container_call c = true) later ->
  exists o,
    resolve (snd (AddObjectInternal obj w)) (fst (AddObjectInternal obj w)) = Some o /\
    scissorRect o =
      mkRectF (f_of_int 0) (f_of_int 0)
              (f_of_int (fst (screen_size w))) (f_of_int (snd (screen_size w))) /\
    resolve (snd (AddObjectInternal obj w))
            (run later (fst (AddObjectInternal obj w))) = Some o.
Proof.
  intros [s E] Hempty Hlater.
  pose proof (add_resolve obj w s E) as Hr.
  unfold clip_stack in Hempty. unfold screen_size. rewrite E in *.
  exists (stored s obj). split; [exact Hr|]. split.
  - unfold stored, current_clip. rewrite Hempty. reflexivity.
  - by rewrite container_calls_keep_objects.
Qed.
End DefaultClip.

(** An object added with no container open, then a container opened and
    closed: the clip stays {0, 0, 800, 600}. *)
Lemma default_clip_is_full_screen_witness :
  clip_stack started = [] /\
  exists o,
    resolve (snd (AddObjectInternal RenderObject_default started))
      (run [BeginContainer (rect 5 5 10 10); EndContainer]
         (fst (AddObjectInternal RenderObject_default started))) = Some o /\
    scissorRect o = rect 0 0 800 600.
Proof.
  assert (Hc : clip_stack started = []) by (vm_compute; reflexivity).
  split; [exact Hc|].
  assert (Hs : is_Some (state started)).
  { assert (Hn : next_id started = 1) by (vm_compute; reflexivity).
    unfold next_id in Hn. by destruct (state started). }
  destruct (default_clip_is_full_screen started RenderObject_default
              [BeginContainer (rect 5 5 10 10); EndContainer] Hs Hc)
    as (o & _ & Hclip & Hr).
  - repeat constructor.
  - exists o. split; [exact Hr|]. rewrite Hclip.
    assert (Hsz : screen_size started = (800, 600)) by (vm_compute; reflexivity).
    rewrite Hsz. reflexivity.
Defined.

(** ** The scene store under every call of the interface *)

Section SceneProofs.
Context {F : Type} {FO : FloatOps F} {EX : External F}.
Implicit Types (w : World) (o : RenderObject F) (k : Z) (i : nat).


(** What an assignment through [FindObject]'s pointer does. *)
Lemma update_object_scene k f mark w :
  (update_object k f mark w = w /\ resolve k w = None) \/
  exists i o,
    slots w !! k = Some i /\ pool w !! i = Some o /\
    pool (update_object k f mark w) = <[i := f o]> (pool w) /\
    slots (update_object k f mark w) = slots w /\
    next_id (update_object k f mark w) = next_id w /\
    dirty (update_object k f mark w) = (if mark o then true else dirty w) /\
    is_Some (state (update_object k f mark w)).
Proof.
  unfold update_object, resolve, deref, FindObject, pool, slots, next_id, dirty.
  destruct (state w) as [s|] eqn:E; [|by left].
  destruct (objectIdToIndex s !! k) as [i|] eqn:Hk; [|by left].
  destruct (objects s !! i) as [o|] eqn:Ho; [|by left].
  right. exists i, o. simpl. split_and!; done.
Qed.


(** The scene [Initialize] builds on an engine that is not up. *)
Lemma initialize_scene (sw sh : Z) w :
  state w = None ->
  exists s,
    state (DuckerNative_Initialize sw sh w) = Some s /\
    objects s = [] /\ objectIdToIndex s = ∅ /\ nextObjectId s = 1 /\
    needsSort s = false /\ scissorStack s = [] /\ containerStack s = [] /\
    fonts s = ∅ /\ nextFontId s = 1 /\ nextCustomShaderId s = 100 /\
    screenWidth s = sw /\ screenHeight s = sh.
Proof.
  intros E. unfold DuckerNative_Initialize. rewrite E.
  repeat match goal with
         | |- context [CreateShaderProgramInternal ?a ?b ?g] =>
             destruct (CreateShaderProgramInternal a b g)
         end.
  eexists. split; [reflexivity|]. simpl. split_and!; reflexivity.
Qed.

Lemma initialize_idle (sw sh : Z) w :
  is_Some (state w) -> DuckerNative_Initialize sw sh w = w.
Proof. intros [s E]. unfold DuckerNative_Initialize. by rewrite E. Qed.



Lemma scene_steps_app (n m : nat) w w1 w2 :
  scene_steps n w w1 -> scene_steps m w1 w2 -> scene_steps (n + m) w w2.
Proof.
  induction 1 as [w|n o w w1 Hs _ IH|n w w0 w1 Hstep _ IH]; intros H2.
  - exact H2.
  - simpl. eapply steps_add; [exact Hs|by apply IH].
  - eapply steps_other; [exact Hstep|by apply IH].
Qed.



Lemma render_idle w :
  dirty w = false \/ pool w = [] -> DuckerNative_Render w = w.
Proof.
  unfold dirty, pool, DuckerNative_Render.
  destruct (state w) as [s|]; [|done].
  intros [H|H]; rewrite H; [by destruct (objects s)|done].
Qed.










Lemma shutdown_state w : state (DuckerNative_Shutdown w) = None.
Proof. unfold DuckerNative_Shutdown. by destruct (state w) eqn:E. Qed.


Lemma run_cons (c : Call) (cs : list Call) w :
  run (c :: cs) w = run cs (fst (exec c w)).
Proof. reflexivity. Qed.

Lemma run_app (cs1 cs2 : list Call) w :
  run (cs1 ++ cs2) w = run cs2 (run cs1 w).
Proof. unfold run. by rewrite fold_left_app. Qed.


End SceneProofs.

(** ** Identifiers are not reused *)

Section DeadIds.
Context {F : Type} {FO : FloatOps F} {EX : External F}.
Implicit Types (w : World) (o : RenderObject F) (k : Z) (i : nat).






End DeadIds.



(** ** Setters *)

Section SetterProofs.
Context {F : Type} {FO : FloatOps F} {EX : External F}.
Implicit Types (w : World) (o : RenderObject F) (k : Z) (i : nat).

Lemma resolve_lookup k w :
  resolve k w = match slots w !! k with Some i => pool w !! i | None => None end.
Proof.
  unfold resolve. rewrite FindObject_slots.
  destruct (slots w !! k); [apply deref_pool|apply deref_None].
Qed.

Lemma update_object_gl k f mark w : gl (update_object k f mark w) = gl w.
Proof.
  unfold update_object. destruct (state w) as [s|]; [|done].
  destruct (FindObject k w) as [i|]; [|done]. by destruct (objects s !! i).
Qed.

Lemma update_object_frame k f mark w :
  store_wf w ->
  (FindObject k w = None -> update_object k f mark w = w) /\
  length (pool (update_object k f mark w)) = length (pool w) /\
  slots (update_object k f mark w) = slots w /\
  next_id (update_object k f mark w) = next_id w /\
  (forall k', k' <> k ->
     resolve k' (update_object k f mark w) = resolve k' w) /\
  (forall o, resolve k w = Some o ->
     resolve k (update_object k f mark w) = Some (f o)).
Proof.
  intros [W1 W2].
  destruct (update_object_scene k f mark w)
    as [[Heq Hnone] | (i & o & Hk & Ho & Hp & Hs & Hnx & _ & _)].
  - rewrite Heq. split_and!; try done. intros o Ho. congruence.
  - split_and!; try done.
    + rewrite FindObject_slots. congruence.
    + by rewrite Hp, length_insert.
    + intros k' Hne. rewrite !resolve_lookup, Hs, Hp.
      destruct (slots w !! k') as [j|] eqn:Hk'; [|done].
      apply list_lookup_insert_ne. intros <-.
      destruct (W2 k i Hk) as (x & Hx & Hidx).
      destruct (W2 k' i Hk') as (x' & Hx' & Hidx'). congruence.
    + intros o'. rewrite !resolve_lookup, Hs, Hp, Hk, Ho. intros [= <-].
      apply list_lookup_insert_eq. by eapply lookup_lt_Some.
Qed.

(** Every setter is an assignment through [FindObject]'s pointer that leaves
    the shape of the object alone. *)
Lemma setter_is_update (c : Call) k :
  setter_target c = Some k ->
  exists f mark,
    (forall w, exec c w = (update_object k f mark w, RVoid)) /\
    (forall o, same_shape o (f o)).
Proof.
  destruct c; try discriminate; intros [= <-]; eexists _, _;
    (split; [intros w; reflexivity|]); intros o; unfold same_shape; simpl.
  - done.
  - by destruct (_ =? _).
  - by destruct (0 <? uniform_size t)%nat.
  - by destruct (decide (type o = RoundedRect)).
  - done.
  - done.
  - done.
  - done.
Qed.

(** A [SetObject...] call returns nothing and writes to its target only: on
    an unknown id it changes nothing at all; otherwise the pool keeps its
    size, the id-to-slot map, the id counter, the clip stack and the GL
    context are untouched, every other id resolves to the object it did, and
    the target keeps its id, type, visibility, layer, bounds, colour,
    texture, clip rectangle, texture window and line geometry. *)
Theorem setters_write_only_their_target (c : Call) (k : Z) (w : World) :
  store_wf w -> setter_target c = Some k ->
  snd (exec c w) = RVoid /\
  (FindObject k w = None -> fst (exec c w) = w) /\
  length (pool (fst (exec c w))) = length (pool w) /\
  slots (fst (exec c w)) = slots w /\
  next_id (fst (exec c w)) = next_id w /\
  clip_stack (fst (exec c w)) = clip_stack w /\
  gl (fst (exec c w)) = gl w /\
  (forall k', k' <> k -> resolve k' (fst (exec c w)) = resolve k' w) /\
  (forall o, resolve k w = Some o ->
     exists o', resolve k (fst (exec c w)) = Some o' /\ same_shape o o').
Proof.
  intros W Hc. destruct (setter_is_update c k Hc) as (f & mark & Hexec & Hshape).
  rewrite Hexec. cbn [fst snd].
  destruct (update_object_frame k f mark w W) as (H1 & H2 & H3 & H4 & H5 & H6).
  split_and!; try done.
  - apply update_object_clip_stack.
  - apply update_object_gl.
  - intros o Ho. exists (f o). split; [by apply H6|apply Hshape].
Qed.
End SetterProofs.

Lemma started_fresh : fresh started.
Proof.
  assert (Hn : next_id started = 1) by (vm_compute; reflexivity).
  split_and!; [|vm_compute; reflexivity..].
  unfold next_id in Hn. by destruct (state started).
Qed.

Lemma started_up : is_Some (state started).
Proof. apply started_fresh. Qed.

Lemma w_unsorted_store_wf : store_wf w_unsorted.
Proof.
  pose proof started_fresh as Hfresh.
  pose proof (fresh_store_wf started Hfresh) as W0.
  destruct Hfresh as (E & Hp0 & Hm & Hnext).
  destruct (add_all_spec (rev three_objects) started) as (_ & _ & W1 & _).
  - done.
  - done.
  - intros k i. by rewrite Hm, lookup_empty.
  - lia.
  - rewrite Hnext. simpl. lia.
  - exact W1.
Qed.

(** Turning the middle one of three objects. *)
Lemma setters_write_only_their_target_witness :
  store_wf w_unsorted /\
  resolve 1 (fst (exec (SetObjectRotation 2 (fi 90)) w_unsorted)) = resolve 1 w_unsorted /\
  slots (fst (exec (SetObjectRotation 2 (fi 90)) w_unsorted)) = slots w_unsorted.
Proof.
  pose proof w_unsorted_store_wf as W.
  split; [exact W|].
  destruct (setters_write_only_their_target (SetObjectRotation 2 (fi 90)) 2
              w_unsorted W eq_refl) as (_ & _ & _ & Hs & _ & _ & _ & Hother & _).
  split; [|exact Hs]. apply Hother. lia.
Defined.

(** ** The dirty flag *)

Section DirtyProofs.
Context {F : Type} {FO : FloatOps F} {EX : External F}.
Implicit Types (w : World) (o : RenderObject F) (k : Z) (i : nat).

Lemma add_dirty o w :
  dirty (fst (AddObjectInternal o w)) = dirty w \/
  dirty (fst (AddObjectInternal o w)) = true.
Proof.
  destruct (state w) as [s|] eqn:E.
  - right. apply add_marks_dirty. by eexists.
  - left. by rewrite add_uninitialised.
Qed.

Lemma DrawText_loop_dirty font position color zIndex cos_a sin_a origin
    (fuel : nat) : forall p x y w w',
  DrawText_loop fuel font position color zIndex cos_a sin_a origin p x y w = Done w' ->
  dirty w' = dirty w \/ dirty w' = true.
Proof.
  induction fuel as [|fuel IH]; intros p x y w w' H.
  - destruct p; [|done]. injection H as <-. by left.
  - destruct p as [|b p]; [injection H as <-; by left|].
    cbn [DrawText_loop] in H.
    destruct (utf8_to_codepoint (b :: p)) as [cp n].
    destruct (length (b :: p) <? n)%nat; [done|].
    destruct (glyph_index cp =? -1); [by eapply IH|].
    destruct (stbtt_GetPackedQuad _ _ _ _ _ _ _) as [[q x'] y'].
    apply IH in H as [H|H]; [|by right].
    rewrite H. apply add_dirty.
Qed.

Lemma update_object_dirty k f mark w :
  dirty (update_object k f mark w) = dirty w \/
  (exists o, mark o = true) /\ dirty (update_object k f mark w) = true.
Proof.
  destruct (update_object_scene k f mark w)
    as [[-> _] | (i & o & _ & _ & _ & _ & _ & Hd & _)]; [by left|].
  rewrite Hd. destruct (mark o) eqn:Hm; [right|by left].
  split; [by exists o|done].
Qed.

(** The dirty-flag protocol.  A call either leaves [needsSort] as it was,
    or sets it and is an insertion ([Add] call or [DrawText]),
    [SetObjectElevation] or [SetObjectShader], or clears it and is [Render]
    or [Shutdown].  [RemoveObject], [Clear], [SetScreenSize] and the other
    setters never change it. *)
Theorem dirty_flag_protocol (c : Call) (w : World) :
  dirty (fst (exec c w)) = dirty w \/
  (raises_dirty c = true /\ dirty (fst (exec c w)) = true) \/
  (lowers_dirty c = true /\ dirty (fst (exec c w)) = false).
Proof.
  destruct c; cbn [exec fst returning_id raises_dirty lowers_dirty].
  - (* Initialize *)
    left. destruct (state w) as [s|] eqn:E.
    + by rewrite initialize_idle by (by eexists).
    + match goal with |- context [DuckerNative_Initialize ?a ?b w] =>
        destruct (initialize_scene a b w E) as (s & Es & _ & _ & _ & Hd & _) end.
      unfold dirty. by rewrite Es, E.
  - right. right. split; [done|]. unfold dirty. by rewrite shutdown_state.
  - destruct (dirty w) eqn:Hd; [|left; by rewrite render_idle, Hd by (by left)].
    destruct (decide (pool w = [])) as [Hp|Hp];
      [left; by rewrite render_idle, Hd by (by right)|].
    right. right. split; [done|]. by apply render_effect.
  - left. unfold DuckerNative_SetScreenSize, dirty.
    destruct (state w) eqn:E; simpl; rewrite ?E; done.
  - left. unfold DuckerNative_Clear, dirty.
    destruct (state w) eqn:E; simpl; rewrite ?E; done.
  - unfold DuckerNative_AddRect.
    match goal with |- context [AddObjectInternal ?o w] =>
      destruct (add_dirty o w) as [H|H] end; [by left|right; left; by split].
  - unfold DuckerNative_AddRoundedRect.
    match goal with |- context [AddObjectInternal ?o w] =>
      destruct (add_dirty o w) as [H|H] end; [by left|right; left; by split].
  - unfold DuckerNative_AddCircle.
    match goal with |- context [AddObjectInternal ?o w] =>
      destruct (add_dirty o w) as [H|H] end; [by left|right; left; by split].
  - unfold DuckerNative_AddLine. destruct (state w) eqn:E; [|by left].
    match goal with |- context [AddObjectInternal ?o w] =>
      destruct (add_dirty o w) as [H|H] end; [by left|right; left; by split].
  - left. apply remove_keeps_dirty.
  - left. unfold DuckerNative_LoadFont, dirty.
    destruct (state w) as [s|] eqn:E; simpl; rewrite ?E; [|done].
    destruct (load_font_atlas _ _); simpl; rewrite ?E; done.
  - destruct (DuckerNative_DrawText _ _ _ _ _ _ _ w) as [w'| |] eqn:H;
      [|by left..].
    cbn [fst]. unfold DuckerNative_DrawText in H.
    destruct (state w) as [s|] eqn:E; [|injection H as <-; by left].
    destruct text as [bytes|]; [|injection H as <-; by left].
    destruct (fonts s !! fontId); [|injection H as <-; by left].
    apply DrawText_loop_dirty in H as [H|H]; [by left|right; left; by split].
  - left. by destruct (DuckerNative_GetTextSize _ _ w).
  - left. unfold DuckerNative_DeleteFont, dirty.
    destruct (state w) as [s|] eqn:E; rewrite ?E; [|done].
    destruct (fonts s !! _); simpl; rewrite ?E; done.
  - left. unfold DuckerNative_LoadTexture, dirty.
    destruct (stbi_load _) as [[[? ?] ?]|]; done.
  - left. unfold DuckerNative_DeleteTexture, dirty. by destruct (0 <? _).
  - left. unfold DuckerNative_CreateShader, dirty.
    destruct (state w) as [s|] eqn:E; simpl; rewrite ?E; [|done].
    destruct (CreateShaderProgramInternal _ _ _) as [prog g].
    destruct (program_id prog =? 0); done.
  - left. unfold DuckerNative_SetObjectBorder.
    match goal with |- context [update_object ?k ?f ?m w] =>
      destruct (update_object_dirty k f m w) as [H|[[o Ho] _]] end; done.
  - left. unfold DuckerNative_DeleteShader, dirty.
    destruct (state w) as [s|] eqn:E; rewrite ?E; [|done].
    destruct (_ <? 100); rewrite ?E; [done|].
    destruct (shaders s !! _); simpl; rewrite ?E; done.
  - unfold DuckerNative_SetObjectShader.
    match goal with |- context [update_object ?k ?f ?m w] =>
      destruct (update_object_dirty k f m w) as [H|[_ H]] end;
      [by left|right; left; by split].
  - left. unfold DuckerNative_SetObjectUniform.
    match goal with |- context [update_object ?k ?f ?m w] =>
      destruct (update_object_dirty k f m w) as [H|[[o Ho] _]] end; done.
  - left. unfold DuckerNative_SetObjectCornerRadius.
    match goal with |- context [update_object ?k ?f ?m w] =>
      destruct (update_object_dirty k f m w) as [H|[[o Ho] _]] end; done.
  - left. unfold DuckerNative_SetObjectRotation.
    match goal with |- context [update_object ?k ?f ?m w] =>
      destruct (update_object_dirty k f m w) as [H|[[o Ho] _]] end; done.
  - left. unfold DuckerNative_SetObjectRotationOrigin.
    match goal with |- context [update_object ?k ?f ?m w] =>
      destruct (update_object_dirty k f m w) as [H|[[o Ho] _]] end; done.
  - left. unfold DuckerNative_SetObjectRotationAndOrigin.
    match goal with |- context [update_object ?k ?f ?m w] =>
      destruct (update_object_dirty k f m w) as [H|[[o Ho] _]] end; done.
  - unfold DuckerNative_SetObjectElevation.
    match goal with |- context [update_object ?k ?f ?m w] =>
      destruct (update_object_dirty k f m w) as [H|[_ H]] end;
      [by left|right; left; by split].
  - left. unfold DuckerNative_BeginContainer, dirty.
    destruct (state w) eqn:E; simpl; rewrite ?E; done.
  - left. unfold DuckerNative_EndContainer, dirty.
    destruct (state w) as [s|] eqn:E; rewrite ?E; [|done].
    destruct (containerStack s); simpl; rewrite ?E; done.
Qed.
End DirtyProofs.

(** ** Insertion and lookup *)

Section InsertLookup.
Context {F : Type} {FO : FloatOps F} {EX : External F}.
Implicit Types (w : World) (o : RenderObject F) (k : Z) (i : nat).

Lemma add_frame o w s :
  state w = Some s -> store_wf w ->
  forall k', k' <> nextObjectId s ->
    resolve k' (fst (AddObjectInternal o w)) = resolve k' w.
Proof.
  intros E [W1 W2] k' Hne.
  destruct (add_effect o w s E) as (o' & _ & _ & _ & Hp & Hs & _).
  rewrite !resolve_lookup, Hs, Hp, lookup_insert_ne by done.
  destruct (slots w !! k') as [j|] eqn:Hk'; [|done].
  destruct (W2 k' j Hk') as (x & Hx & _).
  apply lookup_app_l. by eapply lookup_lt_Some.
Qed.

(** A shape insertion on a live engine returns the value of the id counter
    and stores, at the end of the pool and under that id, an object with
    the type of the call and the bounds, colour, layer, texture and border
    it was given (the bounds untranslated, whatever containers are open),
    visible, unrotated about the centre, without elevation or shader
    override, clipped by the innermost open container or else by the full
    screen, and with the border uniforms set; every other id resolves as
    before and the pool is marked for sorting. *)
Theorem shape_calls_store_their_arguments
    (c : Call) (w : World) (t : ObjectType) (b : RectF F) (col : Vec4 F)
    (z tex : Z) (bw : F) (bc : Vec4 F) :
  is_Some (state w) -> store_wf w ->
  shape_args c = Some (t, b, col, z, tex, bw, bc) ->
  exists o,
    snd (exec c w) = RId (next_id w) /\
    resolve (next_id w) (fst (exec c w)) = Some o /\
    pool (fst (exec c w)) = pool w ++ [o] /\
    id o = next_id w /\ type o = t /\ bounds o = b /\ color o = col /\
    zIndex o = z /\ textureId o = tex /\
    borderWidth o = bw /\ borderColor o = bc /\
    visible o = true /\ elevation o = 0 /\ shaderId o = 0 /\
    rotation o = f0 /\ rotationOrigin o = mkVec2 f_half f_half /\
    scissorRect o =
      match last (clip_stack w) with
      | Some top => top
      | None => mkRectF f0 f0 (f_of_int (fst (screen_size w)))
                  (f_of_int (snd (screen_size w)))
      end /\
    uniforms o !! "borderWidth"%string = Some (uniform_float bw) /\
    uniforms o !! "borderColor"%string = Some (uniform_vec4 bc) /\
    (forall k', k' <> next_id w ->
       resolve k' (fst (exec c w)) = resolve k' w) /\
    dirty (fst (exec c w)) = true.
Proof.
  intros [s E] W Hc.
  assert (Hnext : next_id w = nextObjectId s) by (unfold next_id; by rewrite E).
  assert (Hclip : forall o,
            scissorRect (stored s o) =
            match last (clip_stack w) with
            | Some top => top
            | None => mkRectF f0 f0 (f_of_int (fst (screen_size w)))
                        (f_of_int (snd (screen_size w)))
            end).
  { intros o. unfold stored, current_clip, clip_stack, screen_size. rewrite E.
    simpl. by destruct (last (scissorStack s)). }
  assert (Hgen : forall obj : RenderObject F,
            uniforms obj !! "borderWidth"%string = Some (uniform_float bw) ->
            uniforms obj !! "borderColor"%string = Some (uniform_vec4 bc) ->
            type obj = t -> bounds obj = b -> color obj = col -> zIndex obj = z ->
            textureId obj = tex -> borderWidth obj = bw -> borderColor obj = bc ->
            visible obj = true -> elevation obj = 0 -> shaderId obj = 0 ->
            rotation obj = f0 -> rotationOrigin obj = mkVec2 f_half f_half ->
            exists o,
              @RId F (snd (AddObjectInternal obj w)) = RId (next_id w) /\
              resolve (next_id w) (fst (AddObjectInternal obj w)) = Some o /\
              pool (fst (AddObjectInternal obj w)) = pool w ++ [o] /\
              id o = next_id w /\ type o = t /\ bounds o = b /\ color o = col /\
              zIndex o = z /\ textureId o = tex /\
              borderWidth o = bw /\ borderColor o = bc /\
              visible o = true /\ elevation o = 0 /\ shaderId o = 0 /\
              rotation o = f0 /\ rotationOrigin o = mkVec2 f_half f_half /\
              scissorRect o =
                match last (clip_stack w) with
                | Some top => top
                | None => mkRectF f0 f0 (f_of_int (fst (screen_size w)))
                            (f_of_int (snd (screen_size w)))
                end /\
              uniforms o !! "borderWidth"%string = Some (uniform_float bw) /\
              uniforms o !! "borderColor"%string = Some (uniform_vec4 bc) /\
              (forall k', k' <> next_id w ->
                 resolve k' (fst (AddObjectInternal obj w)) = resolve k' w) /\
              dirty (fst (AddObjectInternal obj w)) = true).
  { intros obj Hu1 Hu2 H1 H2 H3 H4 H5 H6 H7 H8 H9 H10 H11 H12.
    destruct (add_effect obj w s E) as (o' & Ho' & Hid & Hret & Hp & _ & _ & Hd & _).
    pose proof (add_resolve obj w s E) as Hr.
    pose proof (add_frame obj w s E W) as Hfr.
    rewrite Hret in Hr. subst o'. rewrite Hnext.
    exists (stored s obj).
    split; [by rewrite Hret|]. split; [exact Hr|]. split; [exact Hp|].
    split; [exact Hid|].
    do 12 (split; [assumption|]).
    split; [apply Hclip|]. split; [exact Hu1|]. split; [exact Hu2|].
    split; [exact Hfr|exact Hd]. }
  assert (Hbw : forall u : gmap string UniformValue,
            border_uniforms bw bc u !! "borderWidth"%string = Some (uniform_float bw)).
  { intros u. unfold border_uniforms.
    rewrite lookup_insert_ne by done. apply lookup_insert_eq. }
  assert (Hbc : forall u : gmap string UniformValue,
            border_uniforms bw bc u !! "borderColor"%string = Some (uniform_vec4 bc)).
  { intros u. unfold border_uniforms. apply lookup_insert_eq. }
  destruct c; try discriminate Hc; injection Hc as <- <- <- <- <- <- <-;
    cbn [exec fst snd returning_id];
    unfold DuckerNative_AddRect, DuckerNative_AddRoundedRect, DuckerNative_AddCircle;
    apply Hgen; first [apply Hbw | apply Hbc | reflexivity].
Qed.
End InsertLookup.

(** A rounded rectangle added inside two open containers keeps its bounds. *)
Lemma shape_calls_store_their_arguments_witness :
  is_Some (state w_nested_far) /\
  exists o,
    resolve (next_id w_nested_far)
      (fst (exec (AddRoundedRect (rect 5 5 20 20) (pt 20 20) white (fi 4)
                    (fi 0) false 7 0 (rect 0 0 1 1) (fi 1) white)
              w_nested_far)) = Some o /\
    bounds o = rect 5 5 20 20 /\ zIndex o = 7.
Proof.
  assert (Hs : is_Some (state w_nested_far)).
  { assert (Hn : next_id w_nested_far = 1) by (vm_compute; reflexivity).
    unfold next_id in Hn. by destruct (state w_nested_far). }
  assert (W : store_wf w_nested_far).
  { assert (Hp : pool w_nested_far = []) by (vm_compute; reflexivity).
    assert (Hm : slots w_nested_far = ∅) by (vm_compute; reflexivity).
    split.
    - intros i o Ho. by rewrite Hp in Ho.
    - intros k i Hk. by rewrite Hm, lookup_empty in Hk. }
  split; [exact Hs|].
  destruct (shape_calls_store_their_arguments
              (AddRoundedRect (rect 5 5 20 20) (pt 20 20) white (fi 4)
                 (fi 0) false 7 0 (rect 0 0 1 1) (fi 1) white)
              w_nested_far RoundedRect (rect 5 5 20 20) white 7 0 (fi 1) white
              Hs W eq_refl)
    as (o & _ & Hr & _ & _ & _ & Hb & _ & Hz & _).
  exists o. split; [exact Hr|]. split; [exact Hb|exact Hz].
Defined.

(** ** The two container stacks *)

Section StackProofs.
Context {F : Type} {FO : FloatOps F} {EX : External F}.
Implicit Types (w : World) (o : RenderObject F) (k : Z) (i : nat).

Lemma update_object_stacks k f mark w :
  offset_stack (update_object k f mark w) = offset_stack w /\
  (is_Some (state w) -> is_Some (state (update_object k f mark w))).
Proof.
  unfold update_object, FindObject, offset_stack.
  destruct (state w) as [s|] eqn:E; rewrite ?E; [|done].
  destruct (objectIdToIndex s !! k) as [i|]; rewrite ?E; [|done].
  destruct (objects s !! i); simpl; rewrite ?E; done.
Qed.

Lemma add_stacks o w :
  offset_stack (fst (AddObjectInternal o w)) = offset_stack w /\
  (is_Some (state w) -> is_Some (state (fst (AddObjectInternal o w)))).
Proof.
  unfold AddObjectInternal, offset_stack.
  destruct (state w) as [s|] eqn:E; simpl; rewrite ?E; done.
Qed.

Lemma DrawText_loop_stacks font position color zIndex cos_a sin_a origin
    (fuel : nat) : forall p x y w w',
  DrawText_loop fuel font position color zIndex cos_a sin_a origin p x y w = Done w' ->
  offset_stack w' = offset_stack w /\ (is_Some (state w) -> is_Some (state w')).
Proof.
  induction fuel as [|fuel IH]; intros p x y w w' H.
  - destruct p; [|done]. by injection H as <-.
  - destruct p as [|b p]; [by injection H as <-|].
    cbn [DrawText_loop] in H.
    destruct (utf8_to_codepoint (b :: p)) as [cp n].
    destruct (length (b :: p) <? n)%nat; [done|].
    destruct (glyph_index cp =? -1); [by eapply IH|].
    destruct (stbtt_GetPackedQuad _ _ _ _ _ _ _) as [[q x'] y'].
    apply IH in H as [H1 H2].
    match type of H1 with context [AddObjectInternal ?o w] =>
      destruct (add_stacks o w) as [H3 H4] end.
    split; [congruence|auto].
Qed.

(** What each call does to the two stacks, and that only [Shutdown] takes
    the engine down. *)
Lemma exec_stacks (c : Call) w :
  (is_shutdown c = false -> is_Some (state w) -> is_Some (state (fst (exec c w)))) /\
  match c with
  | BeginContainer b =>
      match state w with
      | Some _ =>
          exists r v,
            clip_stack (fst (exec c w)) = clip_stack w ++ [r] /\
            offset_stack (fst (exec c w)) = offset_stack w ++ [v]
      | None => fst (exec c w) = w
      end
  | EndContainer =>
      match offset_stack w with
      | [] => fst (exec c w) = w
      | _ =>
          clip_stack (fst (exec c w)) = removelast (clip_stack w) /\
          offset_stack (fst (exec c w)) = removelast (offset_stack w)
      end
  | Clear | Shutdown =>
      clip_stack (fst (exec c w)) = [] /\ offset_stack (fst (exec c w)) = []
  | Initialize _ _ =>
      match state w with
      | Some _ => fst (exec c w) = w
      | None => clip_stack (fst (exec c w)) = [] /\ offset_stack (fst (exec c w)) = []
      end
  | _ =>
      clip_stack (fst (exec c w)) = clip_stack w /\
      offset_stack (fst (exec c w)) = offset_stack w
  end.
Proof.
  destruct c; cbn [exec fst returning_id is_shutdown].
  - (* Initialize *)
    destruct (state w) as [s|] eqn:E.
    + rewrite initialize_idle by (by eexists). split; [by rewrite E|done].
    + match goal with |- context [DuckerNative_Initialize ?a ?b w] =>
        destruct (initialize_scene a b w E) as (s & Es & _ & _ & _ & _ & Hc & Ho & _) end.
      split; [by rewrite Es|]. unfold clip_stack, offset_stack. by rewrite Es.
  - split; [done|]. unfold clip_stack, offset_stack. by rewrite shutdown_state.
  - split.
    + intros _ [s E]. unfold DuckerNative_Render. rewrite E.
      destruct (objects s); [by rewrite E|]. destruct (needsSort s); [done|by rewrite E].
    + unfold DuckerNative_Render, clip_stack, offset_stack.
      destruct (state w) as [s|] eqn:E; rewrite ?E; [|done].
      destruct (objects s); rewrite ?E; [done|].
      destruct (needsSort s); simpl; rewrite ?E; done.
  - unfold DuckerNative_SetScreenSize, clip_stack, offset_stack.
    destruct (state w) eqn:E; simpl; rewrite ?E; done.
  - unfold DuckerNative_Clear, clip_stack, offset_stack.
    destruct (state w) eqn:E; simpl; rewrite ?E; done.
  - unfold DuckerNative_AddRect.
    match goal with |- context [AddObjectInternal ?o w] =>
      destruct (add_stacks o w) as [H1 H2]; pose proof (add_clip_stack o w) end.
    split; [intros _; exact H2|by split].
  - unfold DuckerNative_AddRoundedRect.
    match goal with |- context [AddObjectInternal ?o w] =>
      destruct (add_stacks o w) as [H1 H2]; pose proof (add_clip_stack o w) end.
    split; [intros _; exact H2|by split].
  - unfold DuckerNative_AddCircle.
    match goal with |- context [AddObjectInternal ?o w] =>
      destruct (add_stacks o w) as [H1 H2]; pose proof (add_clip_stack o w) end.
    split; [intros _; exact H2|by split].
  - unfold DuckerNative_AddLine. destruct (state w) as [s|] eqn:E; [|done].
    match goal with |- context [AddObjectInternal ?o w] =>
      destruct (add_stacks o w) as [H1 H2]; pose proof (add_clip_stack o w) end.
    split; [intros _ _; apply H2; by eexists|by split].
  - unfold DuckerNative_RemoveObject, clip_stack, offset_stack.
    destruct (state w) as [s|] eqn:E; rewrite ?E; [|done].
    destruct (objectIdToIndex s !! _); simpl; rewrite ?E; done.
  - unfold DuckerNative_LoadFont, clip_stack, offset_stack.
    destruct (state w) as [s|] eqn:E; simpl; rewrite ?E; [|done].
    destruct (load_font_atlas _ _); simpl; rewrite ?E; done.
  - destruct (DuckerNative_DrawText _ _ _ _ _ _ _ w) as [w'| |] eqn:H; [|done..].
    cbn [fst]. unfold DuckerNative_DrawText in H.
    destruct (state w) as [s|] eqn:E; [|by injection H as <-].
    destruct text as [bytes|]; [|injection H as <-; by rewrite E].
    destruct (fonts s !! fontId); [|injection H as <-; by rewrite E].
    pose proof (DrawText_loop_clip_stack _ _ _ _ _ _ _ _ _ _ _ _ _ H) as Hc.
    apply DrawText_loop_stacks in H as [H1 H2].
    split; [intros _ _; apply H2; by eexists|done].
  - by destruct (DuckerNative_GetTextSize _ _ w).
  - unfold DuckerNative_DeleteFont, clip_stack, offset_stack.
    destruct (state w) as [s|] eqn:E; rewrite ?E; [|done].
    destruct (fonts s !! _); simpl; rewrite ?E; done.
  - unfold DuckerNative_LoadTexture, clip_stack, offset_stack.
    destruct (stbi_load _) as [[[? ?] ?]|]; done.
  - unfold DuckerNative_DeleteTexture, clip_stack, offset_stack.
    by destruct (0 <? _).
  - unfold DuckerNative_CreateShader, clip_stack, offset_stack.
    destruct (state w) as [s|] eqn:E; simpl; rewrite ?E; [|done].
    destruct (CreateShaderProgramInternal _ _ _) as [prog g].
    destruct (program_id prog =? 0); done.
  - unfold DuckerNative_SetObjectBorder.
    match goal with |- context [update_object ?k ?f ?m w] =>
      destruct (update_object_stacks k f m w) as [H1 H2];
      pose proof (update_object_clip_stack k f m w) end.
    split; [intros _; exact H2|by split].
  - unfold DuckerNative_DeleteShader, clip_stack, offset_stack.
    destruct (state w) as [s|] eqn:E; rewrite ?E; [|done].
    destruct (_ <? 100); rewrite ?E; [done|].
    destruct (shaders s !! _); simpl; rewrite ?E; done.
  - unfold DuckerNative_SetObjectShader.
    match goal with |- context [update_object ?k ?f ?m w] =>
      destruct (update_object_stacks k f m w) as [H1 H2];
      pose proof (update_object_clip_stack k f m w) end.
    split; [intros _; exact H2|by split].
  - unfold DuckerNative_SetObjectUniform.
    match goal with |- context [update_object ?k ?f ?m w] =>
      destruct (update_object_stacks k f m w) as [H1 H2];
      pose proof (update_object_clip_stack k f m w) end.
    split; [intros _; exact H2|by split].
  - unfold DuckerNative_SetObjectCornerRadius.
    match goal with |- context [update_object ?k ?f ?m w] =>
      destruct (update_object_stacks k f m w) as [H1 H2];
      pose proof (update_object_clip_stack k f m w) end.
    split; [intros _; exact H2|by split].
  - unfold DuckerNative_SetObjectRotation.
    match goal with |- context [update_object ?k ?f ?m w] =>
      destruct (update_object_stacks k f m w) as [H1 H2];
      pose proof (update_object_clip_stack k f m w) end.
    split; [intros _; exact H2|by split].
  - unfold DuckerNative_SetObjectRotationOrigin.
    match goal with |- context [update_object ?k ?f ?m w] =>
      destruct (update_object_stacks k f m w) as [H1 H2];
      pose proof (update_object_clip_stack k f m w) end.
    split; [intros _; exact H2|by split].
  - unfold DuckerNative_SetObjectRotationAndOrigin.
    match goal with |- context [update_object ?k ?f ?m w] =>
      destruct (update_object_stacks k f m w) as [H1 H2];
      pose proof (update_object_clip_stack k f m w) end.
    split; [intros _; exact H2|by split].
  - unfold DuckerNative_SetObjectElevation.
    match goal with |- context [update_object ?k ?f ?m w] =>
      destruct (update_object_stacks k f m w) as [H1 H2];
      pose proof (update_object_clip_stack k f m w) end.
    split; [intros _; exact H2|by split].
  - unfold DuckerNative_BeginContainer, clip_stack, offset_stack.
    destruct (state w) as [s|] eqn:E; simpl; rewrite ?E; [|done].
    split; [done|]. eexists _, _. split; reflexivity.
  - unfold DuckerNative_EndContainer, clip_stack, offset_stack.
    destruct (state w) as [s|] eqn:E; rewrite ?E; [|done].
    destruct (containerStack s) eqn:Hc; simpl; rewrite ?E, ?Hc; done.
Qed.

Lemma exec_stacks_paired (c : Call) w :
  length (clip_stack w) = length (offset_stack w) ->
  length (clip_stack (fst (exec c w))) = length (offset_stack (fst (exec c w))).
Proof.
  intros Hlen. destruct (exec_stacks c w) as [_ H].
  destruct c;
    try (destruct H as [-> ->]; done).
  - destruct (state w); [by rewrite H|]. by destruct H as [-> ->].
  - destruct (state w); [|by rewrite H].
    destruct H as (r0 & v0 & -> & ->). rewrite !length_app. simpl. lia.
  - destruct (offset_stack w) eqn:Ho; [rewrite H, Ho; exact Hlen|].
    destruct H as [-> ->]. rewrite <- Ho in *.
    rewrite !removelast_firstn_len, !length_take. lia.
Qed.

Lemma run_stacks_paired (cs : list Call) : forall w,
  length (clip_stack w) = length (offset_stack w) ->
  length (clip_stack (run cs w)) = length (offset_stack (run cs w)).
Proof.
  induction cs as [|c cs IH]; intros w Hlen; [done|].
  rewrite run_cons. by apply IH, exec_stacks_paired.
Qed.

Lemma container_stacks_stay_paired_aux (cs : list Call) (w0 : World) :
  state w0 = None ->
  length (clip_stack (run cs w0)) = length (offset_stack (run cs w0)).
Proof.
  intros E. apply run_stacks_paired. unfold clip_stack, offset_stack. by rewrite E.
Qed.

(** The clip stack and the offset stack always have the same height: after
    any sequence of calls on a process whose engine was not up, they hold
    the same number of entries, so the [pop_back] of [EndContainer], which
    tests the offset stack only, never pops an empty clip stack. *)
Theorem container_stacks_stay_paired (cs : list Call) (w0 : World) :
  state w0 = None ->
  length (clip_stack (run cs w0)) = length (offset_stack (run cs w0)).
Proof. apply container_stacks_stay_paired_aux. Qed.

Lemma balanced_from_run (cs : list Call) : forall (d : nat) w,
  is_Some (state w) ->
  length (clip_stack w) = length (offset_stack w) ->
  (d <= length (clip_stack w))%nat ->
  balanced_from d cs = true ->
  clip_stack (run cs w) = take (length (clip_stack w) - d) (clip_stack w) /\
  offset_stack (run cs w) = take (length (offset_stack w) - d) (offset_stack w).
Proof.
  induction cs as [|c cs IH]; intros d w Hw Hlen Hd Hbal.
  - simpl in Hbal. apply Nat.eqb_eq in Hbal as ->.
    rewrite !Nat.sub_0_r, !firstn_all. done.
  - rewrite run_cons.
    destruct (exec_stacks c w) as [Hlive H].
    pose proof (exec_stacks_paired c w Hlen) as Hlen'.
    assert (Hkeep : is_shutdown c = false ->
              clip_stack (fst (exec c w)) = clip_stack w ->
              offset_stack (fst (exec c w)) = offset_stack w ->
              balanced_from d cs = true ->
              clip_stack (run cs (fst (exec c w)))
                = take (length (clip_stack w) - d) (clip_stack w) /\
              offset_stack (run cs (fst (exec c w)))
                = take (length (offset_stack w) - d) (offset_stack w)).
    { intros Hc H1 H2 Hb.
      destruct (IH d (fst (exec c w))) as [H3 H4]; try done.
      - by apply Hlive.
      - by rewrite H1.
      - by rewrite H3, H4, H1, H2. }
    destruct c; cbn [balanced_from] in Hbal; try discriminate Hbal;
      try (destruct H as [H1 H2]; by apply Hkeep).
    + (* Initialize on a live engine *)
      destruct Hw as [s E]. rewrite E in H. rewrite H. rewrite H in Hkeep.
      by apply Hkeep.
    + (* BeginContainer *)
      destruct Hw as [s E]. rewrite E in H. destruct H as (r0 & v0 & H1 & H2).
      match goal with |- context [BeginContainer ?b] =>
        destruct (IH (S d) (fst (exec (BeginContainer b) w))) as [H3 H4] end; try done.
      * apply Hlive; [done|by eexists].
      * rewrite H1, length_app. simpl. lia.
      * rewrite H3, H4, H1, H2, !length_app. simpl.
        replace (length (clip_stack w) + 1 - S d)%nat
          with (length (clip_stack w) - d)%nat by lia.
        replace (length (offset_stack w) + 1 - S d)%nat
          with (length (offset_stack w) - d)%nat by lia.
        rewrite !take_app_le by lia. done.
    + (* EndContainer *)
      destruct d as [|d]; [done|].
      destruct (offset_stack w) as [|v l] eqn:Ho; [simpl in Hlen; lia|].
      destruct H as [H1 H2]. rewrite <- Ho in *.
      destruct (IH d (fst (exec EndContainer w))) as [H3 H4]; try done.
      * by apply Hlive.
      * rewrite H1, removelast_firstn_len, length_take. lia.
      * rewrite H3, H4, H1, H2, !removelast_firstn_len, !length_take, !take_take.
        split; f_equal; lia.
Qed.

(** Containers nest.  On an engine that is up, a sequence of calls in which
    every [EndContainer] closes a [BeginContainer] of the sequence and every
    [BeginContainer] is closed, with neither [Clear] nor [Shutdown] in it,
    leaves the clip stack and the offset stack exactly as they were: what is
    inserted afterwards is clipped as before the sequence. *)
Theorem balanced_calls_restore_the_stacks (pre cs : list Call) (w0 : World) :
  state w0 = None ->
  is_Some (state (run pre w0)) ->
  balanced cs = true ->
  clip_stack (run (pre ++ cs) w0) = clip_stack (run pre w0) /\
  offset_stack (run (pre ++ cs) w0) = offset_stack (run pre w0).
Proof.
  intros E Hw Hbal. rewrite run_app.
  destruct (balanced_from_run cs 0 (run pre w0)) as [H1 H2]; try done.
  - by apply container_stacks_stay_paired_aux.
  - lia.
  - by rewrite H1, H2, !Nat.sub_0_r, !firstn_all.
Qed.
End StackProofs.

(** Two containers left open. *)
Lemma container_stacks_stay_paired_witness :
  state boot32 = None /\
  length (clip_stack (run nested_far boot32))
    = length (offset_stack (run nested_far boot32)).
Proof.
  split; [reflexivity|].
  exact (container_stacks_stay_paired nested_far boot32 eq_refl).
Defined.

(** A container holding a rectangle and an inner container, opened and closed
    inside the two that [nested_far] leaves open. *)
Lemma balanced_calls_restore_the_stacks_witness :
  is_Some (state (run nested_far boot32)) /\
  clip_stack
    (run (nested_far ++
          [BeginContainer (rect 1 1 2 2); layered 0;
           BeginContainer (rect 0 0 1 1); EndContainer; EndContainer]) boot32)
  = clip_stack (run nested_far boot32).
Proof.
  assert (Hs : is_Some (state (run nested_far boot32))).
  { assert (Hn : next_id (run nested_far boot32) = 1) by (vm_compute; reflexivity).
    unfold next_id in Hn. by destruct (state (run nested_far boot32)). }
  split; [exact Hs|].
  exact (proj1 (balanced_calls_restore_the_stacks nested_far
                  [BeginContainer (rect 1 1 2 2); layered 0;
                   BeginContainer (rect 0 0 1 1); EndContainer; EndContainer]
                  boot32 eq_refl Hs eq_refl)).
Defined.

(** ** Resources: GL names, fonts, shaders *)

Section ResourceProofs.
Context {F : Type} {FO : FloatOps F} {EX : External F}.
Implicit Types (w : World) (o : RenderObject F) (k n : Z) (i : nat).

Lemma add_registries o w :
  gl (fst (AddObjectInternal o w)) = gl w /\
  registries (fst (AddObjectInternal o w)) = registries w.
Proof.
  unfold AddObjectInternal, registries, fixed_names.
  destruct (state w) as [s|] eqn:E; simpl; rewrite ?E; done.
Qed.

Lemma update_object_registries k f mark w :
  gl (update_object k f mark w) = gl w /\
  registries (update_object k f mark w) = registries w.
Proof.
  unfold update_object, FindObject, registries, fixed_names.
  destruct (state w) as [s|] eqn:E; rewrite ?E; [|done].
  destruct (objectIdToIndex s !! k) as [i|]; rewrite ?E; [|done].
  destruct (objects s !! i); simpl; rewrite ?E; done.
Qed.

Lemma DrawText_loop_registries font position color zIndex cos_a sin_a origin
    (fuel : nat) : forall p x y w w',
  DrawText_loop fuel font position color zIndex cos_a sin_a origin p x y w = Done w' ->
  gl w' = gl w /\ registries w' = registries w.
Proof.
  induction fuel as [|fuel IH]; intros p x y w w' H.
  - destruct p; [|done]. by injection H as <-.
  - destruct p as [|b p]; [by injection H as <-|].
    cbn [DrawText_loop] in H.
    destruct (utf8_to_codepoint (b :: p)) as [cp n].
    destruct (length (b :: p) <? n)%nat; [done|].
    destruct (glyph_index cp =? -1); [by eapply IH|].
    destruct (stbtt_GetPackedQuad _ _ _ _ _ _ _) as [[q x'] y'].
    apply IH in H as [H1 H2].
    match type of H1 with context [AddObjectInternal ?o w] =>
      destruct (add_registries o w) as [H3 H4] end.
    split; congruence.
Qed.

(** The calls outside [is_resource_call] leave the GL context and the
    registries alone. *)
Lemma exec_registries (c : Call) w :
  is_resource_call c = false ->
  gl (fst (exec c w)) = gl w /\ registries (fst (exec c w)) = registries w.
Proof.
  intros Hc.
  destruct c; try discriminate Hc; cbn [exec fst returning_id];
    try (unfold DuckerNative_SetObjectBorder, DuckerNative_SetObjectShader,
           DuckerNative_SetObjectUniform, DuckerNative_SetObjectCornerRadius,
           DuckerNative_SetObjectRotation, DuckerNative_SetObjectRotationOrigin,
           DuckerNative_SetObjectRotationAndOrigin, DuckerNative_SetObjectElevation;
         match goal with |- context [update_object ?k ?f ?m w] =>
           apply (update_object_registries k f m w) end).
  - unfold DuckerNative_Render, registries, fixed_names.
    destruct (state w) as [s|] eqn:E; rewrite ?E; [|done].
    destruct (objects s); rewrite ?E; [done|].
    destruct (needsSort s); simpl; rewrite ?E; done.
  - unfold DuckerNative_SetScreenSize, registries, fixed_names.
    destruct (state w) eqn:E; simpl; rewrite ?E; done.
  - unfold DuckerNative_Clear, registries, fixed_names.
    destruct (state w) eqn:E; simpl; rewrite ?E; done.
  - apply add_registries.
  - apply add_registries.
  - apply add_registries.
  - unfold DuckerNative_AddLine. destruct (state w) eqn:E; [|done].
    apply add_registries.
  - unfold DuckerNative_RemoveObject, registries, fixed_names.
    destruct (state w) as [s|] eqn:E; rewrite ?E; [|done].
    destruct (objectIdToIndex s !! _); simpl; rewrite ?E; done.
  - destruct (DuckerNative_DrawText _ _ _ _ _ _ _ w) as [w'| |] eqn:H; [|done..].
    cbn [fst]. unfold DuckerNative_DrawText in H.
    destruct (state w) as [s|] eqn:E; [|by injection H as <-].
    destruct text as [bytes|]; [|by injection H as <-].
    destruct (fonts s !! fontId); [|by injection H as <-].
    by eapply DrawText_loop_registries.
  - by destruct (DuckerNative_GetTextSize _ _ w).
  - unfold DuckerNative_BeginContainer, registries, fixed_names.
    destruct (state w) eqn:E; simpl; rewrite ?E; done.
  - unfold DuckerNative_EndContainer, registries, fixed_names.
    destruct (state w) as [s|] eqn:E; rewrite ?E; [|done].
    destruct (containerStack s); simpl; rewrite ?E; done.
Qed.

Lemma glDelete_live (n0 : Z) (g : GLContext) n :
  n ∈ gl_live (glDelete n0 g) <-> n ∈ gl_live g /\ n <> n0.
Proof. unfold glDelete. simpl. rewrite list_elem_of_filter. tauto. Qed.

Lemma glDelete_all_live (l : list Z) (g : GLContext) n :
  n ∈ gl_live (fold_right glDelete g l) <-> n ∈ gl_live g /\ n ∉ l.
Proof.
  induction l as [|n0 l IH]; cbn [fold_right].
  - split; [intros H; split; [done|apply not_elem_of_nil]|tauto].
  - rewrite glDelete_live, IH, not_elem_of_cons. tauto.
Qed.

Lemma glGen_live (g : GLContext) :
  0 < fst (glGen g) /\ gl_live (snd (glGen g)) = gl_live g ++ [fst (glGen g)].
Proof. unfold glGen. simpl. split; [lia|done]. Qed.

Lemma create_program (vs fs : ShaderSource) (g : GLContext) :
  (program_id (fst (CreateShaderProgramInternal vs fs g)) = 0 /\
   snd (CreateShaderProgramInternal vs fs g) = g) \/
  (0 < program_id (fst (CreateShaderProgramInternal vs fs g)) /\
   gl_live (snd (CreateShaderProgramInternal vs fs g))
     = gl_live g ++ [program_id (fst (CreateShaderProgramInternal vs fs g))]).
Proof.
  unfold CreateShaderProgramInternal. destruct (shader_links vs fs); [right|by left].
  simpl. split; [lia|done].
Qed.

Lemma owns_ext w w' n : registries w' = registries w -> owns w' n <-> owns w n.
Proof. intros H. unfold owns. by rewrite H. Qed.

Lemma resource_inv_keep w w' client m :
  gl w' = gl w -> registries w' = registries w ->
  resource_inv w client m -> resource_inv w' client m.
Proof.
  intros Hg Hr (HA & Hm & HB). unfold resource_inv. rewrite Hg, Hr.
  split_and!; try done. intros n Hn. destruct (HA n Hn) as [H0 H]. split; [done|].
  by rewrite (owns_ext w w' n Hr).
Qed.

Lemma resource_inv_weaken w client client' m m' :
  resource_inv w client m -> (forall n, n ∈ client -> n ∈ client') -> m <= m' ->
  resource_inv w client' m'.
Proof.
  intros (HA & Hm & HB) Hsub Hle. unfold resource_inv. split_and!; [|lia|].
  - intros n Hn. destruct (HA n Hn) as [H0 [H|H]]; auto.
  - destruct (registries w) as [[[[[fs nf] sh] ns] fx]|]; [|done].
    destruct HB as (B1 & B2 & B3 & B4). split_and!; try done; lia.
Qed.

Lemma resource_inv_none w client m :
  state w = None -> 0 <= m ->
  (forall n, n ∈ gl_live (gl w) -> 0 < n /\ n ∈ client) ->
  resource_inv w client m.
Proof.
  intros E Hm H. unfold resource_inv, registries. rewrite E. split_and!; try done.
  intros n Hn. destruct (H n Hn). auto.
Qed.

Lemma owns_none w n : state w = None -> ~ owns w n.
Proof. intros E. unfold owns, registries. rewrite E. tauto. Qed.

(** [Shutdown] deletes every name the engine owns. *)
Lemma shutdown_resource_inv w client m :
  resource_inv w client m ->
  resource_inv (DuckerNative_Shutdown w) client m.
Proof.
  intros Hinv.
  destruct (state w) as [s|] eqn:E.
  2:{ replace (DuckerNative_Shutdown w) with w; [done|].
      unfold DuckerNative_Shutdown. by rewrite E. }
  destruct Hinv as (HA & Hm & HB).
  apply resource_inv_none; [apply shutdown_state|done|].
  intros n. unfold DuckerNative_Shutdown. rewrite E. cbn [gl].
  rewrite glDelete_all_live. intros [Hn Hnot].
  destruct (HA n Hn) as [H0 [Hown|Hc]]; [|done].
  exfalso. apply Hnot. unfold owns, registries in Hown. rewrite E in Hown.
  rewrite elem_of_app.
  destruct Hown as [(k & font & Hk & <-) | [(k & prog & Hk & <-) | Hfix]].
  - left. change (font_textureId font ∈
              (fun kv => font_textureId (snd kv)) <$> map_to_list (fonts s)).
    apply list_elem_of_fmap. exists (k, font). split; [done|].
    by apply elem_of_map_to_list.
  - right. unfold nonzero_names. apply list_elem_of_filter. split; [lia|].
    apply elem_of_app. left.
    change (program_id prog ∈
              (fun kv => program_id (snd kv)) <$> map_to_list (shaders s)).
    apply list_elem_of_fmap. exists (k, prog). split; [done|].
    by apply elem_of_map_to_list.
  - right. unfold nonzero_names. apply list_elem_of_filter. split; [lia|].
    apply elem_of_app. by right.
Qed.

Lemma loadfont_effect (path : string) (size : F) w s table :
  state w = Some s -> load_font_atlas path size = Some table ->
  snd (DuckerNative_LoadFont path size w) = nextFontId s /\
  gl_live (gl (fst (DuckerNative_LoadFont path size w)))
    = gl_live (gl w) ++ [Zpos (gl_next_name (gl w))] /\
  registries (fst (DuckerNative_LoadFont path size w))
    = Some (<[nextFontId s :=
               mkFont size table (Zpos (gl_next_name (gl w))) 4096 4096]> (fonts s),
            wrap_uint32 (nextFontId s + 1), shaders s, nextCustomShaderId s,
            fixed_names s).
Proof.
  intros E H. unfold DuckerNative_LoadFont. rewrite E, H. done.
Qed.

Lemma loadfont_idle (path : string) (size : F) w :
  state w = None \/ load_font_atlas path size = None ->
  DuckerNative_LoadFont path size w = (w, 0).
Proof.
  unfold DuckerNative_LoadFont. intros [H|H]; rewrite H; [done|].
  by destruct (state w).
Qed.

Lemma loadfont_resource_inv (path : string) (size : F) w client m :
  resource_inv w client m -> m < 2 ^ 32 - 101 ->
  resource_inv (fst (DuckerNative_LoadFont path size w)) client (m + 1).
Proof.
  intros Hinv Hb.
  destruct (state w) as [s|] eqn:E;
    [|rewrite loadfont_idle by (by left);
      apply resource_inv_weaken with client m; [done|done|lia]].
  destruct (load_font_atlas path size) as [table|] eqn:Hl;
    [|rewrite loadfont_idle by (by right);
      apply resource_inv_weaken with client m; [done|done|lia]].
  destruct (loadfont_effect path size w s table E Hl) as (_ & Hlive & Hreg).
  destruct Hinv as (HA & Hm & HB).
  unfold registries in HB. rewrite E in HB. destruct HB as (B1 & B2 & B3 & B4).
  unfold resource_inv, owns. rewrite Hlive, Hreg.
  assert (Hw : wrap_uint32 (nextFontId s + 1) = nextFontId s + 1).
  { unfold wrap_uint32. apply Z.mod_small. lia. }
  rewrite Hw. split_and!; try done; try lia.
  - intros n Hn. apply elem_of_app in Hn as [Hn|Hn].
    + destruct (HA n Hn) as [H0 [Hown|Hc]]; (split; [done|]); [left|by right].
      unfold owns, registries in Hown. rewrite E in Hown.
      destruct Hown as [(k & font & Hk & Hf)|[H|H]]; [left|right; by left|right; by right].
      exists k, font. split; [|done]. rewrite lookup_insert_ne; [done|].
      apply B1 in Hk. lia.
    + apply list_elem_of_singleton in Hn as ->. split; [lia|]. left. left.
      eexists _, _. split; [apply lookup_insert_eq|done].
  - intros k font Hk. apply lookup_insert_Some in Hk as [[<- _]|[_ Hk]]; [lia|].
    apply B1 in Hk. lia.
Qed.

Lemma deletefont_effect (k : Z) w s font :
  state w = Some s -> fonts s !! k = Some font ->
  (forall n, n ∈ gl_live (gl (DuckerNative_DeleteFont k w)) <->
     n ∈ gl_live (gl w) /\ n <> font_textureId font) /\
  registries (DuckerNative_DeleteFont k w)
    = Some (delete k (fonts s), nextFontId s, shaders s, nextCustomShaderId s,
            fixed_names s).
Proof.
  intros E H. unfold DuckerNative_DeleteFont. rewrite E, H.
  split; [intros n; apply glDelete_live|done].
Qed.

Lemma deletefont_idle (k : Z) w :
  loaded_font k w = None -> DuckerNative_DeleteFont k w = w.
Proof.
  unfold loaded_font, DuckerNative_DeleteFont.
  destruct (state w) as [s|]; [|done]. by intros ->.
Qed.

Lemma deletefont_resource_inv (k : Z) w client m :
  resource_inv w client m -> resource_inv (DuckerNative_DeleteFont k w) client m.
Proof.
  intros Hinv.
  destruct (loaded_font k w) as [font|] eqn:Hf; [|by rewrite deletefont_idle].
  unfold loaded_font in Hf. destruct (state w) as [s|] eqn:E; [|done].
  destruct (deletefont_effect k w s font E Hf) as (Hlive & Hreg).
  destruct Hinv as (HA & Hm & HB).
  unfold registries in HB. rewrite E in HB. destruct HB as (B1 & B2 & B3 & B4).
  unfold resource_inv, owns. rewrite Hreg. split_and!; try done; try lia.
  - intros n Hn. apply Hlive in Hn as [Hn Hne].
    destruct (HA n Hn) as [H0 [Hown|Hc]]; (split; [done|]); [left|by right].
    unfold owns, registries in Hown. rewrite E in Hown.
    destruct Hown as [(k' & font' & Hk & Hf')|[H|H]]; [left|right; by left|right; by right].
    exists k', font'. split; [|done]. apply lookup_delete_Some. split; [|done].
    intros <-. congruence.
  - intros k' font' Hk. apply lookup_delete_Some in Hk as [_ Hk]. by apply B1 in Hk.
Qed.

Lemma loadtexture_resource_inv (path : string) w client m :
  resource_inv w client m ->
  resource_inv (fst (DuckerNative_LoadTexture path w))
    (client ++ match stbi_load path with
               | Some _ => [fst (snd (DuckerNative_LoadTexture path w))]
               | None => []
               end) m.
Proof.
  intros Hinv. unfold DuckerNative_LoadTexture.
  destruct (stbi_load path) as [[[width height] ch]|].
  - destruct Hinv as (HA & Hm & HB). cbn.
    unfold resource_inv, owns, registries in *. cbn.
    split_and!; try done.
    intros n Hn. apply elem_of_app in Hn as [Hn|Hn].
    + destruct (HA n Hn) as [H0 [Hown|Hc]]; (split; [done|]); [by left|right].
      apply elem_of_app. by left.
    + apply list_elem_of_singleton in Hn as ->. split; [lia|]. right.
      apply elem_of_app. right. by apply list_elem_of_singleton.
  - cbn. by rewrite app_nil_r.
Qed.

Lemma deletetexture_resource_inv (k : Z) w client m :
  resource_inv w client m -> resource_inv (DuckerNative_DeleteTexture k w) client m.
Proof.
  intros Hinv. unfold DuckerNative_DeleteTexture.
  destruct (0 <? k); [|done].
  destruct Hinv as (HA & Hm & HB).
  unfold resource_inv, owns, registries in *. cbn.
  split_and!; try done.
  intros n Hn. apply glDelete_live in Hn as [Hn _]. by apply HA.
Qed.

Lemma createshader_resource_inv (src : string) w client m :
  resource_inv w client m -> m < 2 ^ 32 - 101 ->
  resource_inv (fst (DuckerNative_CreateShader src w)) client (m + 1).
Proof.
  intros Hinv Hb. unfold DuckerNative_CreateShader.
  destruct (state w) as [s|] eqn:E;
    [|apply resource_inv_weaken with client m; [done|done|lia]].
  destruct (create_program UNIVERSAL_VS_SRC (CustomSource src) (gl w))
    as [[H0 Hg] | [Hpos Hlive]];
    destruct (CreateShaderProgramInternal UNIVERSAL_VS_SRC (CustomSource src) (gl w))
      as [prog g]; cbn [fst snd] in *.
  - rewrite H0. cbn. subst g.
    apply resource_inv_weaken with client m; [|done|lia].
    apply resource_inv_keep with w; [done| |done].
    unfold registries. by rewrite E.
  - destruct (program_id prog =? 0) eqn:Hz; [apply Z.eqb_eq in Hz; lia|].
    destruct Hinv as (HA & Hm & HB).
    unfold registries in HB. rewrite E in HB. destruct HB as (B1 & B2 & B3 & B4).
    assert (Hw : wrap_uint32 (nextCustomShaderId s + 1) = nextCustomShaderId s + 1).
    { unfold wrap_uint32. apply Z.mod_small. lia. }
    unfold resource_inv, owns, registries. cbn. rewrite Hlive, Hw.
    split_and!; try done; try lia.
    + intros n Hn. apply elem_of_app in Hn as [Hn|Hn].
      * destruct (HA n Hn) as [Hn0 [Hown|Hc]]; (split; [done|]); [left|by right].
        unfold owns, registries in Hown. rewrite E in Hown.
        destruct Hown as [H|[(k & prog' & Hk & Hf)|H]];
          [by left|right; left|right; by right].
        exists k, prog'. split; [|done]. rewrite lookup_insert_ne; [done|].
        apply B2 in Hk. lia.
      * apply list_elem_of_singleton in Hn as ->. split; [done|]. left. right. left.
        eexists _, _. split; [apply lookup_insert_eq|done].
    + intros k prog' Hk. apply lookup_insert_Some in Hk as [[<- _]|[_ Hk]]; [lia|].
      apply B2 in Hk. lia.
Qed.

Lemma deleteshader_resource_inv (k : Z) w client m :
  resource_inv w client m -> resource_inv (DuckerNative_DeleteShader k w) client m.
Proof.
  intros Hinv. unfold DuckerNative_DeleteShader.
  destruct (state w) as [s|] eqn:E; [|done].
  destruct (k <? 100); [done|].
  destruct (shaders s !! k) as [prog|] eqn:Hk; [|done].
  destruct Hinv as (HA & Hm & HB).
  unfold registries in HB. rewrite E in HB. destruct HB as (B1 & B2 & B3 & B4).
  unfold resource_inv, owns, registries. cbn.
  split_and!; try done; try lia.
  - intros n Hn. apply glDelete_live in Hn as [Hn Hne].
    destruct (HA n Hn) as [Hn0 [Hown|Hc]]; (split; [done|]); [left|by right].
    unfold owns, registries in Hown. rewrite E in Hown.
    destruct Hown as [H|[(k' & prog' & Hk' & Hf)|H]];
      [by left|right; left|right; by right].
    exists k', prog'. split; [|done]. apply lookup_delete_Some. split; [|done].
    intros <-. congruence.
  - intros k' prog' Hk'. apply lookup_delete_Some in Hk' as [_ Hk']. by apply B2 in Hk'.
Qed.

Lemma create_program_live (vs fs : ShaderSource) (g : GLContext) :
  gl_live (snd (CreateShaderProgramInternal vs fs g))
    = gl_live g ++ nonzero_names [program_id (fst (CreateShaderProgramInternal vs fs g))] /\
  0 <= program_id (fst (CreateShaderProgramInternal vs fs g)).
Proof.
  destruct (create_program vs fs g) as [[H0 Hg] | [Hpos Hlive]].
  - rewrite H0, Hg. split; [|done]. unfold nonzero_names.
    rewrite filter_cons_False by (intros H; by apply H). by rewrite app_nil_r.
  - rewrite Hlive. split; [|lia]. unfold nonzero_names.
    rewrite filter_cons_True by lia. done.
Qed.

Lemma nonzero_single (x n : Z) : n ∈ nonzero_names [x] <-> n = x /\ x <> 0.
Proof.
  unfold nonzero_names. rewrite list_elem_of_filter, list_elem_of_singleton.
  split; [intros [H ->]; done|intros [-> H]; done].
Qed.

(** The first [Initialize]: every name it allocates ends up in the state. *)
Lemma initialize_resource_inv (sw sh : Z) w client m :
  resource_inv w client m -> resource_inv (DuckerNative_Initialize sw sh w) client m.
Proof.
  intros Hinv.
  destruct (state w) as [s|] eqn:E; [by rewrite initialize_idle by (by eexists)|].
  destruct Hinv as (HA & Hm & _).
  unfold DuckerNative_Initialize. rewrite E.
  repeat match goal with
         | |- context [CreateShaderProgramInternal ?a ?b ?g] =>
             let H := fresh "Hc" in
             let H' := fresh "Hp" in
             let p := fresh "p" in
             let g' := fresh "g" in
             destruct (create_program_live a b g) as [H H'];
             destruct (CreateShaderProgramInternal a b g) as [p g'];
             cbn [fst snd] in H, H'
         end.
  unfold resource_inv, owns, registries, DuckerNative_SetScreenSize, fixed_names.
  cbn. split_and!; try done; try lia;
    try (intros k prog Hk; left;
         repeat (apply lookup_insert_Some in Hk as [[<- _]|[_ Hk]]; [lia|]);
         by rewrite lookup_empty in Hk).
  intros n Hn.
    repeat (apply elem_of_app in Hn as [Hn|Hn]);
      try (apply list_elem_of_singleton in Hn as ->; split; [lia|];
           left; right; right; rewrite !elem_of_cons;
           solve [repeat (first [by left | right])]).
    rewrite Hc5 in Hn. apply elem_of_app in Hn as [Hn|Hn];
      [|apply nonzero_single in Hn as [-> Hnz]; split; [lia|];
        left; right; right; rewrite !elem_of_cons;
        solve [repeat (first [by left | right])]].
    rewrite Hc4 in Hn. apply elem_of_app in Hn as [Hn|Hn];
      [|apply nonzero_single in Hn as [-> Hnz]; split; [lia|];
        left; right; right; rewrite !elem_of_cons;
        solve [repeat (first [by left | right])]].
    rewrite Hc3 in Hn. apply elem_of_app in Hn as [Hn|Hn];
      [|apply nonzero_single in Hn as [-> Hnz]; split; [lia|];
        left; right; left; exists 5; eexists; split; [apply lookup_insert_eq|done]].
    rewrite Hc2 in Hn. apply elem_of_app in Hn as [Hn|Hn];
      [|apply nonzero_single in Hn as [-> Hnz]; split; [lia|];
        left; right; left; exists 4; eexists;
        split; [rewrite lookup_insert_ne by done; apply lookup_insert_eq|done]].
    rewrite Hc1 in Hn. apply elem_of_app in Hn as [Hn|Hn];
      [|apply nonzero_single in Hn as [-> Hnz]; split; [lia|];
        left; right; left; exists 3; eexists;
        split; [rewrite !lookup_insert_ne by done; apply lookup_insert_eq|done]].
    rewrite Hc0 in Hn. apply elem_of_app in Hn as [Hn|Hn];
      [|apply nonzero_single in Hn as [-> Hnz]; split; [lia|];
        left; right; left; exists 2; eexists;
        split; [rewrite !lookup_insert_ne by done; apply lookup_insert_eq|done]].
    rewrite Hc in Hn. apply elem_of_app in Hn as [Hn|Hn];
      [|apply nonzero_single in Hn as [-> Hnz]; split; [lia|];
        left; right; left; exists 1; eexists;
        split; [rewrite !lookup_insert_ne by done; apply lookup_insert_eq|done]].
    destruct (HA n Hn) as [Hn0 [Hown|Hc']]; [|by split; [|right]].
    by apply owns_none in Hown.
Qed.
Lemma exec_resource_inv (c : Call) w client m :
  resource_inv w client m -> m + Z.of_nat (registrations c) < 2 ^ 32 - 100 ->
  resource_inv (fst (exec c w)) (client ++ loaded_textures [c] w)
    (m + Z.of_nat (registrations c)).
Proof.
  intros Hinv Hb.
  destruct (is_resource_call c) eqn:Hc.
  - destruct c; try discriminate Hc;
      cbn [exec fst snd returning_id loaded_textures registrations Z.of_nat] in *;
      rewrite ?app_nil_r, ?Z.add_0_r.
    + by apply initialize_resource_inv.
    + by apply shutdown_resource_inv.
    + apply loadfont_resource_inv; [done|lia].
    + by apply deletefont_resource_inv.
    + eapply resource_inv_weaken; [by apply loadtexture_resource_inv| |lia].
      intros n Hn. apply elem_of_app in Hn as [Hn|Hn]; apply elem_of_app; [by left|].
      right. destruct (stbi_load _); [done|]. by apply elem_of_nil in Hn.
    + by apply deletetexture_resource_inv.
    + apply createshader_resource_inv; [done|lia].
    + by apply deleteshader_resource_inv.
  - destruct (exec_registries c w Hc) as [Hg Hr].
    apply resource_inv_weaken with client m.
    + by apply resource_inv_keep with w.
    + intros n Hn. apply elem_of_app. by left.
    + lia.
Qed.

Lemma loaded_textures_cons (c : Call) (cs : list Call) w :
  loaded_textures (c :: cs) w
  = loaded_textures [c] w ++ loaded_textures cs (fst (exec c w)).
Proof. cbn [loaded_textures]. by rewrite app_nil_r. Qed.

Lemma run_resource_inv (cs : list Call) : forall w client m,
  resource_inv w client m -> m + Z.of_nat (total_registrations cs) < 2 ^ 32 - 100 ->
  resource_inv (run cs w) (client ++ loaded_textures cs w)
    (m + Z.of_nat (total_registrations cs)).
Proof.
  induction cs as [|c cs IH]; intros w client m Hinv Hb.
  - cbn. by rewrite app_nil_r, Z.add_0_r.
  - rewrite run_cons, loaded_textures_cons, app_assoc.
    cbn [total_registrations fold_right] in *.
    fold (total_registrations cs) in *.
    replace (m + Z.of_nat (registrations c + total_registrations cs))
      with (m + Z.of_nat (registrations c) + Z.of_nat (total_registrations cs))
      by lia.
    apply IH; [apply exec_resource_inv; [done|lia]|lia].
Qed.

(** Without a [Shutdown] in between, the shaders of the ids below 100 stay
    what they are. *)
Lemma exec_builtin_shaders (c : Call) w client m k :
  resource_inv w client m -> m + Z.of_nat (registrations c) < 2 ^ 32 - 100 ->
  is_Some (state w) -> is_shutdown c = false -> k < 100 ->
  is_Some (state (fst (exec c w))) /\
  shader_of k (fst (exec c w)) = shader_of k w.
Proof.
  intros Hinv Hb [s E] Hs Hk.
  assert (Hreg : forall w', registries w' = registries w ->
            is_Some (state w') /\ shader_of k w' = shader_of k w).
  { intros w' H. unfold registries, shader_of in *. rewrite E in *.
    destruct (state w') as [s'|]; [|done]. split; [by eexists|]. congruence. }
  destruct (is_resource_call c) eqn:Hc;
    [|apply Hreg; by apply exec_registries].
  destruct Hinv as (_ & _ & HB). unfold registries in HB. rewrite E in HB.
  destruct HB as (_ & _ & _ & B4).
  destruct c; try discriminate Hc; try discriminate Hs;
    cbn [exec fst snd returning_id registrations Z.of_nat] in *.
  - rewrite initialize_idle by (by eexists). apply Hreg. done.
  - unfold DuckerNative_LoadFont, shader_of. rewrite E.
    destruct (load_font_atlas _ _); cbn; rewrite ?E; split; done.
  - unfold DuckerNative_DeleteFont, shader_of. rewrite E.
    destruct (fonts s !! _); cbn; rewrite ?E; split; done.
  - unfold DuckerNative_LoadTexture, shader_of.
    destruct (stbi_load _) as [[[? ?] ?]|]; cbn; rewrite ?E; split; done.
  - unfold DuckerNative_DeleteTexture, shader_of.
    destruct (0 <? _); cbn; rewrite ?E; split; done.
  - unfold DuckerNative_CreateShader, shader_of. rewrite E.
    destruct (CreateShaderProgramInternal _ _ _) as [prog g].
    destruct (program_id prog =? 0); cbn; [done|].
    split; [done|]. apply lookup_insert_ne. lia.
  - unfold DuckerNative_DeleteShader, shader_of. rewrite E.
    destruct (_ <? 100) eqn:Hlt; [by rewrite E|].
    destruct (shaders s !! _); cbn; rewrite ?E; [|done].
    split; [done|]. apply lookup_delete_ne. lia.
Qed.

Lemma run_builtin_shaders (cs : list Call) : forall w client m k,
  resource_inv w client m -> m + Z.of_nat (total_registrations cs) < 2 ^ 32 - 100 ->
  is_Some (state w) -> Forall (fun c => is_shutdown c = false) cs -> k < 100 ->
  is_Some (state (run cs w)) /\ shader_of k (run cs w) = shader_of k w.
Proof.
  induction cs as [|c cs IH]; intros w client m k Hinv Hb Hs Hall Hk; [done|].
  rewrite run_cons. cbn [total_registrations fold_right] in Hb.
  fold (total_registrations cs) in Hb.
  apply Forall_cons in Hall as [Hc Hall].
  destruct (exec_builtin_shaders c w client m k) as [Hs' Heq]; try done; [lia|].
  destruct (IH (fst (exec c w)) (client ++ loaded_textures [c] w)
              (m + Z.of_nat (registrations c)) k) as [Hs'' Heq'];
    try done; [apply exec_resource_inv; [done|lia]|lia|].
  split; [done|congruence].
Qed.

Lemma total_registrations_app (cs1 cs2 : list (@Call F)) :
  total_registrations (cs1 ++ cs2)
  = (total_registrations cs1 + total_registrations cs2)%nat.
Proof.
  induction cs1 as [|c cs1 IH]; [done|].
  cbn [app total_registrations fold_right]. fold (total_registrations (cs1 ++ cs2)).
  fold (total_registrations cs1). lia.
Qed.

Lemma boot_resource_inv w :
  state w = None -> (forall n, n ∈ gl_live (gl w) -> 0 < n) ->
  resource_inv w (gl_live (gl w)) 0.
Proof. intros E H. apply resource_inv_none; [done|lia|]. intros n Hn. auto. Qed.

(** [Shutdown] releases what the engine allocated.  On a process whose
    engine is not up and whose live GL names are positive, after any
    sequence of interface calls that registers fewer than 2^32 - 100 fonts
    and shaders, followed by [Shutdown], every GL name still live was live
    before the sequence or is a texture name [LoadTexture] returned to the
    client: the font atlases, the shader programs, the vertex arrays, the
    buffers and the framebuffers of the engine are all deleted.  The GL
    context of the embedding hands out fresh names. *)
Theorem shutdown_releases_engine_names (cs : list Call) w0 n :
  state w0 = None ->
  (forall n0, n0 ∈ gl_live (gl w0) -> 0 < n0) ->
  Z.of_nat (total_registrations cs) < 2 ^ 32 - 100 ->
  n ∈ gl_live (gl (run (cs ++ [Shutdown]) w0)) ->
  n ∈ gl_live (gl w0) \/ n ∈ loaded_textures cs w0.
Proof.
  intros E Hpos Hb Hn.
  rewrite run_app in Hn. change (run [Shutdown] ?w) with (DuckerNative_Shutdown w) in Hn.
  pose proof (run_resource_inv cs w0 _ 0 (boot_resource_inv w0 E Hpos)) as Hinv.
  apply shutdown_resource_inv in Hinv; [|lia].
  destruct Hinv as (HA & _).
  destruct (HA n Hn) as [_ [Hown|Hc]].
  - exfalso. eapply owns_none; [|exact Hown]. apply shutdown_state.
  - by apply elem_of_app in Hc.
Qed.

(** The shaders registered under the ids below 100, the five built-in ones
    among them, stay what they are while the engine is up: no sequence of
    calls without [Shutdown] changes what such an id designates.
    [DeleteShader] refuses these ids and [CreateShader] registers from 100
    on; the bound on the registrations keeps the 32-bit id counter from
    wrapping onto them. *)
Theorem builtin_shaders_are_permanent (pre post : list Call) w0 k :
  state w0 = None ->
  (forall n, n ∈ gl_live (gl w0) -> 0 < n) ->
  Z.of_nat (total_registrations (pre ++ post)) < 2 ^ 32 - 100 ->
  is_Some (state (run pre w0)) ->
  Forall (fun c => is_shutdown c = false) post ->
  k < 100 ->
  shader_of k (run (pre ++ post) w0) = shader_of k (run pre w0).
Proof.
  intros E Hpos Hb Hs Hall Hk. rewrite run_app.
  rewrite total_registrations_app in Hb.
  pose proof (run_resource_inv pre w0 _ 0 (boot_resource_inv w0 E Hpos)) as Hinv.
  eapply run_builtin_shaders; [apply Hinv; lia|lia|done|done|done].
Qed.
End ResourceProofs.

(** After the session and [Shutdown] the one live name is the texture the
    client loaded and did not delete. *)
Lemma shutdown_releases_engine_names_witness :
  gl_live (gl boot32) = [] /\
  gl_live (gl (run (resource_session ++ [Shutdown]) boot32)) = [19] /\
  (19 ∈ gl_live (gl boot32) \/ 19 ∈ loaded_textures resource_session boot32).
Proof.
  assert (Hpos : forall n0 : Z, n0 ∈ gl_live (gl boot32) -> 0 < n0).
  { intros n0 Hn0. exact (False_ind _ (proj1 (elem_of_nil n0) Hn0)). }
  assert (Hb : Z.of_nat (total_registrations resource_session) < 2 ^ 32 - 100)
    by (vm_compute; reflexivity).
  assert (H1 : gl_live (gl (run (resource_session ++ [Shutdown]) boot32)) = [19])
    by (vm_compute; reflexivity).
  assert (Hn : 19 ∈ gl_live (gl (run (resource_session ++ [Shutdown]) boot32))).
  { rewrite H1. apply list_elem_of_singleton. reflexivity. }
  split; [reflexivity|]. split; [exact H1|].
  exact (shutdown_releases_engine_names resource_session boot32 19 eq_refl Hpos Hb Hn).
Defined.

(** [DeleteShader 3] and a custom shader leave the circle shader in place. *)
Lemma builtin_shaders_are_permanent_witness :
  is_Some (state (run [Initialize 800 600] boot32)) /\
  shader_of 3 (run ([Initialize 800 600] ++ tail resource_session) boot32)
  = shader_of 3 (run [Initialize 800 600] boot32).
Proof.
  assert (Hpos : forall n0 : Z, n0 ∈ gl_live (gl boot32) -> 0 < n0).
  { intros n0 Hn0. exact (False_ind _ (proj1 (elem_of_nil n0) Hn0)). }
  assert (Hb : Z.of_nat (total_registrations
                           ([Initialize 800 600] ++ tail resource_session))
               < 2 ^ 32 - 100) by (vm_compute; reflexivity).
  assert (Hall : Forall (fun c : @Call spec_float => is_shutdown c = false)
                   (tail resource_session)) by (repeat constructor).
  assert (Hs : is_Some (state (run [Initialize 800 600] boot32))).
  { assert (Hn : next_id (run [Initialize 800 600] boot32) = 1)
      by (vm_compute; reflexivity).
    unfold next_id in Hn.
    destruct (state (run [Initialize 800 600] boot32)) as [s|];
      [exact (ex_intro _ s eq_refl)|discriminate Hn]. }
  split; [exact Hs|].
  exact (builtin_shaders_are_permanent [Initialize 800 600] (tail resource_session)
           boot32 3 eq_refl Hpos Hb Hs Hall eq_refl).
Defined.

Section Utf8Proofs.

(** A check on every number below [n] holds of each of them. *)
Lemma range_check (P : Z -> bool) (n : nat) :
  forallb P (map Z.of_nat (seq 0 n)) = true ->
  forall h, 0 <= h < Z.of_nat n -> P h = true.
Proof.
  intros H h Hh. rewrite forallb_forall in H. apply H.
  apply in_map_iff. exists (Z.to_nat h). split; [lia|].
  apply in_seq. lia.
Qed.

Lemma lor_shiftl_add (h l n : Z) :
  0 <= n -> 0 <= l < 2 ^ n -> Z.lor (Z.shiftl h n) l = h * 2 ^ n + l.
Proof.
  intros Hn Hl. rewrite Z.shiftl_mul_pow2 by done.
  rewrite <- Z.lxor_lor, <- Z.add_nocarry_lxor; try done.
  all: apply Z.bits_inj'; intros i Hi; rewrite Z.land_spec, Z.bits_0;
    destruct (Z.lt_ge_cases i n) as [Hlt|Hge];
    [by rewrite Z.mul_pow2_bits_low|];
    destruct (Z.eq_dec l 0) as [->|Hz]; [by rewrite Z.bits_0, andb_false_r|];
    rewrite (Z.bits_above_log2 l i), andb_false_r; [done|lia|];
    assert (Z.log2 l < n) by (apply Z.log2_lt_pow2; lia); lia.
Qed.

Lemma continuation_payload (l : Z) : 0 <= l < 64 -> Z.land (128 + l) 63 = l.
Proof.
  intros H. apply Z.eqb_eq.
  by apply (range_check (fun l => Z.land (128 + l) 63 =? l) 64).
Qed.

Lemma lead2 (h : Z) :
  0 <= h < 32 ->
  (192 + h <? 128) = false /\ Z.land (192 + h) 224 = 192 /\ Z.land (192 + h) 31 = h.
Proof.
  intros H.
  pose proof (range_check
    (fun h => negb (192 + h <? 128) && (Z.land (192 + h) 224 =? 192)
              && (Z.land (192 + h) 31 =? h)) 32 eq_refl h H) as C.
  simpl in C. apply andb_prop in C as [C C3]. apply andb_prop in C as [C1 C2].
  apply negb_true_iff in C1. apply Z.eqb_eq in C2, C3. done.
Qed.

Lemma lead3 (h : Z) :
  0 <= h < 16 ->
  (224 + h <? 128) = false /\ (Z.land (224 + h) 224 =? 192) = false /\
  Z.land (224 + h) 240 = 224 /\ Z.land (224 + h) 15 = h.
Proof.
  intros H.
  pose proof (range_check
    (fun h => negb (224 + h <? 128) && negb (Z.land (224 + h) 224 =? 192)
              && (Z.land (224 + h) 240 =? 224) && (Z.land (224 + h) 15 =? h))
    16 eq_refl h H) as C.
  simpl in C. apply andb_prop in C as [C C4]. apply andb_prop in C as [C C3].
  apply andb_prop in C as [C1 C2].
  apply negb_true_iff in C1, C2. apply Z.eqb_eq in C3, C4. done.
Qed.

Lemma lead4 (h : Z) :
  0 <= h < 8 ->
  (240 + h <? 128) = false /\ (Z.land (240 + h) 224 =? 192) = false /\
  (Z.land (240 + h) 240 =? 224) = false /\
  Z.land (240 + h) 248 = 240 /\ Z.land (240 + h) 7 = h.
Proof.
  intros H.
  pose proof (range_check
    (fun h => negb (240 + h <? 128) && negb (Z.land (240 + h) 224 =? 192)
              && negb (Z.land (240 + h) 240 =? 224)
              && (Z.land (240 + h) 248 =? 240) && (Z.land (240 + h) 7 =? h))
    8 eq_refl h H) as C.
  simpl in C. apply andb_prop in C as [C C5]. apply andb_prop in C as [C C4].
  apply andb_prop in C as [C C3]. apply andb_prop in C as [C1 C2].
  apply negb_true_iff in C1, C2, C3. apply Z.eqb_eq in C4, C5. done.
Qed.

(** One code point: the decoder reads back what the encoder wrote and
    advances by the bytes of the encoding. *)
Lemma utf8_to_codepoint_encode (cp : Z) (rest : list Z) :
  0 <= cp < 2 ^ 21 ->
  utf8_to_codepoint (utf8_encode cp ++ rest) = (cp, length (utf8_encode cp)).
Proof.
  intros Hcp. unfold utf8_encode.
  pose proof (Z.div_mod cp 64 ltac:(lia)) as D1.
  pose proof (Z.mod_pos_bound cp 64 ltac:(lia)) as M1.
  pose proof (Z.div_mod (cp / 64) 64 ltac:(lia)) as D2.
  pose proof (Z.mod_pos_bound (cp / 64) 64 ltac:(lia)) as M2.
  pose proof (Z.div_mod (cp / 4096) 64 ltac:(lia)) as D3.
  pose proof (Z.mod_pos_bound (cp / 4096) 64 ltac:(lia)) as M3.
  assert (E2 : cp / 64 / 64 = cp / 4096) by (rewrite Z.div_div by lia; done).
  assert (E3 : cp / 4096 / 64 = cp / 262144) by (rewrite Z.div_div by lia; done).
  rewrite E2 in D2. rewrite E3 in D3.
  destruct (cp <? 128) eqn:H1; [|destruct (cp <? 2048) eqn:H2;
    [|destruct (cp <? 65536) eqn:H3]];
    unfold utf8_to_codepoint, byte_at; cbn [app nth length].
  - by rewrite H1.
  - apply Z.ltb_ge in H1. apply Z.ltb_lt in H2.
    destruct (lead2 (cp / 64)) as (L1 & L2 & L3); [lia|].
    rewrite L1, L2, L3, Z.eqb_refl, continuation_payload by lia.
    rewrite (lor_shiftl_add _ _ 6) by lia. f_equal. lia.
  - apply Z.ltb_ge in H2. apply Z.ltb_lt in H3.
    destruct (lead3 (cp / 4096)) as (L1 & L2 & L3 & L4); [lia|].
    rewrite L1, L2, L3, L4, Z.eqb_refl, !continuation_payload by lia.
    change 12 with (6 + 6). rewrite <- Z.shiftl_shiftl by lia.
    rewrite <- !Z.shiftl_lor, !(lor_shiftl_add _ _ 6) by lia.
    f_equal. lia.
  - apply Z.ltb_ge in H3.
    destruct (lead4 (cp / 262144)) as (L1 & L2 & L3 & L4 & L5); [lia|].
    rewrite L1, L2, L3, L4, L5, Z.eqb_refl, !continuation_payload by lia.
    change 18 with (6 + 12). change 12 with (6 + 6).
    rewrite <- !Z.shiftl_shiftl by lia.
    rewrite <- !Z.shiftl_lor, !(lor_shiftl_add _ _ 6) by lia.
    f_equal. lia.
Qed.

Lemma utf8_encode_bytes (cp : Z) :
  1 <= cp < 2 ^ 21 ->
  Forall (fun b => 1 <= b < 256) (utf8_encode cp) /\
  (1 <= length (utf8_encode cp) <= 4)%nat.
Proof.
  intros Hcp. unfold utf8_encode.
  pose proof (Z.mod_pos_bound cp 64 ltac:(lia)) as M1.
  pose proof (Z.mod_pos_bound (cp / 64) 64 ltac:(lia)) as M2.
  pose proof (Z.mod_pos_bound (cp / 4096) 64 ltac:(lia)) as M3.
  destruct (cp <? 128) eqn:H1; [|destruct (cp <? 2048) eqn:H2;
    [|destruct (cp <? 65536) eqn:H3]];
    rewrite ?Z.ltb_lt, ?Z.ltb_ge in *;
    (split; [repeat constructor|simpl; lia]); try lia.
  all: try (apply Z.div_pos; lia).
  all: try (pose proof (Z.div_lt_upper_bound cp 64 32 ltac:(lia) ltac:(lia)); lia).
  all: try (pose proof (Z.div_lt_upper_bound cp 4096 16 ltac:(lia) ltac:(lia)); lia).
  all: try (pose proof (Z.div_lt_upper_bound cp 262144 8 ltac:(lia) ltac:(lia)); lia).
  all: try (pose proof (Z.div_pos cp 64 ltac:(lia) ltac:(lia)); lia).
  all: try (pose proof (Z.div_pos cp 4096 ltac:(lia) ltac:(lia)); lia).
  all: try (pose proof (Z.div_pos cp 262144 ltac:(lia) ltac:(lia)); lia).
Qed.

Lemma c_str_nonzero (l : list Z) : Forall (fun b => 1 <= b < 256) l -> c_str l = l.
Proof.
  induction 1 as [|b l Hb _ IH]; [done|]. simpl.
  destruct (b =? 0) eqn:E; [apply Z.eqb_eq in E; lia|]. by rewrite IH.
Qed.

Lemma utf8_encode_all_bytes (cps : list Z) :
  Forall (fun cp => 1 <= cp < 2 ^ 21) cps ->
  Forall (fun b => 1 <= b < 256) (utf8_encode_all cps).
Proof.
  induction 1 as [|cp cps Hcp _ IH]; [constructor|].
  unfold utf8_encode_all. simpl. apply Forall_app. split; [|exact IH].
  by apply utf8_encode_bytes.
Qed.

Lemma codepoints_encode_all (cps : list Z) : forall fuel,
  Forall (fun cp => 1 <= cp < 2 ^ 21) cps ->
  (length (utf8_encode_all cps) <= fuel)%nat ->
  codepoints fuel (utf8_encode_all cps) = Done cps.
Proof.
  induction cps as [|cp cps IH]; intros fuel Hall Hfuel.
  - by destruct fuel.
  - apply Forall_cons in Hall as [Hcp Hall].
    destruct (utf8_encode_bytes cp Hcp) as [_ Hlen].
    unfold utf8_encode_all in *. cbn [map concat] in *.
    rewrite length_app in Hfuel.
    destruct fuel as [|fuel]; [lia|].
    destruct (utf8_encode cp ++ concat (map utf8_encode cps)) as [|b p] eqn:E.
    { apply (f_equal length) in E. rewrite length_app in E. simpl in E. lia. }
    cbn [codepoints]. rewrite <- E.
    rewrite utf8_to_codepoint_encode by lia.
    destruct (length (utf8_encode cp ++ concat (map utf8_encode cps))
              <? length (utf8_encode cp))%nat eqn:Hlt.
    { apply Nat.ltb_lt in Hlt. rewrite length_app in Hlt. lia. }
    rewrite drop_app_length. rewrite IH; [done|done|lia].
Qed.

(** The decoder reads standard UTF-8.  For every list of code points in
    [1, 2^21), decoding the concatenation of their UTF-8 encodings (one to
    four bytes each) gives back the code points, in order: the walk over
    the string terminates and reads no byte past its end. *)
Theorem utf8_decode_reads_standard_utf8 (cps : list Z) :
  Forall (fun cp => 1 <= cp < 2 ^ 21) cps ->
  utf8_decode (utf8_encode_all cps) = Done cps.
Proof.
  intros Hall. unfold utf8_decode.
  rewrite c_str_nonzero by (by apply utf8_encode_all_bytes).
  by apply codepoints_encode_all.
Qed.
End Utf8Proofs.

(** [Hi], U+0416, U+20AC and U+1F600. *)
Lemma utf8_decode_reads_standard_utf8_witness :
  utf8_encode_all [72; 105; 1046; 8364; 128512]
    = [72; 105; 208; 150; 226; 130; 172; 240; 159; 152; 128] /\
  utf8_decode (utf8_encode_all [72; 105; 1046; 8364; 128512])
    = Done [72; 105; 1046; 8364; 128512].
Proof.
  split; [reflexivity|].
  apply (utf8_decode_reads_standard_utf8 [72; 105; 1046; 8364; 128512]).
  repeat constructor; lia.
Defined.

Section DrawingProofs.
Context {F : Type} {FO : FloatOps F} {EX : External F} {FI : FloatImage F}.
Implicit Types (o obj first : RenderObject F) (objs batch : list (RenderObject F)).
Implicit Types (progs : gmap Z ShaderProgram) (i n : nat) (fuel : nat).

Lemma memcmp_refl (a : list Z) : memcmp a a = 0.
Proof. induction a as [|x a IH]; [done|]. simpl. by rewrite Z.eqb_refl. Qed.

(** A line whose width differs from itself is not in its own batch. *)
Lemma isSameBatch_nan o :
  type o = Line -> feq (lineWidth o) (lineWidth o) = false -> isSameBatch o o = false.
Proof.
  intros Ht Hw. unfold isSameBatch.
  destruct (decide (type o = Line /\ type o = Line)) as [_|Hn]; [|tauto].
  rewrite Hw. apply andb_false_r.
Qed.

Lemma isSameBatch_self o :
  visible o = true ->
  (type o = Line -> feq (lineWidth o) (lineWidth o) = true) ->
  isSameBatch o o = true.
Proof.
  intros Hv Hw. unfold isSameBatch.
  rewrite Hv, !Z.eqb_refl, memcmp_refl. simpl.
  destruct (decide (type o = Line /\ type o = Line)) as [[Ht _]|_]; [|done].
  rewrite (Hw Ht), bool_decide_eq_true_2; done.
Qed.

Lemma isSameBatch_inv first o :
  isSameBatch first o = true ->
  visible o = true /\ effective_shader o = effective_shader first /\
  textureId o = textureId first.
Proof.
  unfold isSameBatch. intros H.
  assert (H' : visible o && (effective_shader o =? effective_shader first)
               && (textureId o =? textureId first)
               && (memcmp (bytes_rect (scissorRect o))
                          (bytes_rect (scissorRect first)) =? 0) = true).
  { destruct (decide _); [|done].
    apply andb_prop in H as [H _]. by apply andb_prop in H as [H _]. }
  apply andb_prop in H' as [H' _]. apply andb_prop in H' as [H' H3].
  apply andb_prop in H' as [H1 H2].
  apply Z.eqb_eq in H2, H3. done.
Qed.

Lemma shader_ready_inv progs o :
  shader_ready progs o = true ->
  exists shader, progs !! effective_shader o = Some shader /\
                 (program_id shader =? 0) = false /\
                 program_of progs o = program_id shader.
Proof.
  unfold shader_ready, program_of.
  destruct (progs !! effective_shader o) as [shader|]; [|done].
  intros H. apply negb_true_iff in H. by exists shader.
Qed.

Lemma shader_not_ready progs o :
  shader_ready progs o = false ->
  progs !! effective_shader o = None \/
  exists shader, progs !! effective_shader o = Some shader /\
                 (program_id shader =? 0) = true.
Proof.
  unfold shader_ready.
  destruct (progs !! effective_shader o) as [shader|]; [|by left].
  intros H. apply negb_false_iff in H. right. by exists shader.
Qed.

(** The loop standing at a visible line with such a width and a usable
    shader closes an empty batch and stays where it is. *)
Lemma draw_loop_stalls fuel progs objs i o : forall vertexOffset,
  objs !! i = Some o -> visible o = true -> type o = Line ->
  feq (lineWidth o) (lineWidth o) = false -> shader_ready progs o = true ->
  draw_loop fuel progs objs i vertexOffset = OutOfFuel.
Proof.
  intros off Hi Hv Ht Hw Hr.
  destruct (shader_ready_inv progs o Hr) as (shader & Hs & Hz & _).
  induction fuel as [|fuel IH]; cbn [draw_loop]; rewrite Hi; [done|].
  rewrite Hv, Hs, Hz. cbn [negb].
  assert (Hd : drop i objs = o :: drop (S i) objs) by (by apply drop_S).
  rewrite Hd. cbn [batch_length]. rewrite (isSameBatch_nan o Ht Hw).
  cbn [take draw_batch]. rewrite Nat.add_0_r. by rewrite IH.
Qed.

(** An object the loop skips: invisible, or without a usable shader. *)
Lemma draw_loop_skip fuel progs objs i o vertexOffset :
  objs !! i = Some o ->
  visible o = false \/ shader_ready progs o = false ->
  draw_loop (S fuel) progs objs i vertexOffset
  = draw_loop fuel progs objs (i + 1) vertexOffset.
Proof.
  intros Hi H. cbn [draw_loop]. rewrite Hi.
  destruct (visible o) eqn:Hv; [|done]. cbn [negb].
  destruct H as [H|H]; [done|].
  destruct (shader_not_ready progs o H) as [->|(shader & -> & ->)]; done.
Qed.

Lemma draw_loop_more_fuel fuel progs objs : forall i vertexOffset calls,
  draw_loop fuel progs objs i vertexOffset = Done calls ->
  draw_loop (S fuel) progs objs i vertexOffset = Done calls.
Proof.
  induction fuel as [|fuel IH]; intros i off calls H.
  - cbn [draw_loop] in *. by destruct (objs !! i).
  - remember (S fuel) as fuel1. cbn [draw_loop]. subst fuel1.
    cbn [draw_loop] in H.
    destruct (objs !! i) as [first|]; [|done].
    destruct (negb (visible first)); [by apply IH|].
    destruct (progs !! effective_shader first) as [shader|]; [|by apply IH].
    destruct (program_id shader =? 0); [by apply IH|].
    destruct (draw_batch _ _ off) as [cs off'].
    destruct (draw_loop fuel progs objs _ off') as [later| |] eqn:E; try done.
    by rewrite (IH _ _ _ E).
Qed.

(** The loop reads the pool only from its position on. *)
Lemma draw_loop_shift fuel progs o objs : forall i vertexOffset,
  draw_loop fuel progs (o :: objs) (S i) vertexOffset
  = draw_loop fuel progs objs i vertexOffset.
Proof.
  induction fuel as [|fuel IH]; intros i off; cbn [draw_loop];
    change ((o :: objs) !! S i) with (objs !! i); [done|].
  destruct (objs !! i) as [first|]; [|done].
  change (S i + 1)%nat with (S (i + 1)).
  destruct (negb (visible first)); [by apply IH|].
  destruct (progs !! effective_shader first) as [shader|]; [|by apply IH].
  destruct (program_id shader =? 0); [by apply IH|].
  change (drop (S i) (o :: objs)) with (drop i objs).
  destruct (draw_batch _ _ off) as [cs off'].
  change (S i + ?n)%nat with (S (i + n)). by rewrite IH.
Qed.

Lemma draw_loop_skip_prefix progs before : forall fuel objs vertexOffset,
  Forall (fun b => visible b = false \/ shader_ready progs b = false) before ->
  draw_loop (length before + fuel) progs (before ++ objs) 0 vertexOffset
  = draw_loop fuel progs objs 0 vertexOffset.
Proof.
  induction before as [|b before IH]; intros fuel objs off Hall; [done|].
  apply Forall_cons in Hall as [Hb Hall].
  cbn [length app Nat.add].
  rewrite (draw_loop_skip _ _ _ 0 b) by done.
  change (0 + 1)%nat with 1%nat. rewrite draw_loop_shift. by apply IH.
Qed.

Lemma RenderObjects_stalls fuel progs before o rest
    (r : list Vertex * list DrawCall) :
  Forall (fun b => visible b = false \/ shader_ready progs b = false) before ->
  visible o = true -> type o = Line ->
  feq (lineWidth o) (lineWidth o) = false -> shader_ready progs o = true ->
  RenderObjects fuel progs (before ++ o :: rest) <> Done r.
Proof.
  intros Hb Hv Ht Hw Hr. unfold RenderObjects.
  destruct (fill_vertices (before ++ o :: rest)) as [vs|]; [|done].
  destruct (draw_loop fuel progs (before ++ o :: rest) 0 0) as [calls| |] eqn:E;
    [|done..].
  exfalso.
  assert (Hmore : forall k, draw_loop (k + fuel) progs (before ++ o :: rest) 0 0
                            = Done calls).
  { induction k as [|k IH]; [done|]. by apply draw_loop_more_fuel. }
  specialize (Hmore (length before)). rewrite Nat.add_comm in Hmore.
  replace (fuel + length before)%nat with (length before + fuel)%nat in Hmore by lia.
  rewrite draw_loop_skip_prefix in Hmore by done.
  by rewrite (draw_loop_stalls fuel progs (o :: rest) 0 o) in Hmore.
Qed.

(** A line whose width is not equal to itself (a NaN) hangs [Render].  When
    the pool, as the resort leaves it, holds a visible line with such a
    width and a usable shader, behind objects that are all skipped
    (invisible, or without a usable shader), the draw loop closes an empty
    batch at the line and never advances: whatever the fuel, the main pass
    does not return. *)
Theorem nan_line_width_hangs_render fuel (w : World) before o rest
    (r : list Vertex * list DrawCall) :
  pool (DuckerNative_Render w) = before ++ o :: rest ->
  Forall (fun b => visible b = false \/
                   shader_ready (programs (DuckerNative_Render w)) b = false) before ->
  visible o = true -> type o = Line ->
  feq (lineWidth o) (lineWidth o) = false ->
  shader_ready (programs (DuckerNative_Render w)) o = true ->
  main_pass fuel w <> Some (Done r).
Proof.
  intros Hp Hb Hv Ht Hw Hr. unfold main_pass. cbv zeta. rewrite Hp.
  destruct (before ++ o :: rest) as [|x l] eqn:E.
  { by destruct before. }
  rewrite <- E. intros [= H]. revert H. by apply RenderObjects_stalls.
Qed.


Lemma spans_app (first : Z) (a b : list Z) :
  spans first (a ++ b) = spans first a ++ spans (first + total a) b.
Proof.
  revert first. induction a as [|x a IH]; intros first; cbn [app spans total fold_right].
  - by rewrite Z.add_0_r.
  - rewrite IH. fold (total a). by rewrite Z.add_assoc.
Qed.

Lemma total_app (a b : list Z) : total (a ++ b) = total a + total b.
Proof.
  induction a as [|x a IH]; [done|]. cbn [app total fold_right] in *.
  fold (total (a ++ b)) in *. fold (total a) in *. lia.
Qed.

Lemma total_nonneg (l : list Z) : Forall (fun x => 0 <= x) l -> 0 <= total l.
Proof.
  induction 1 as [|x l Hx _ IH]; [done|]. cbn [total fold_right]. fold (total l). lia.
Qed.

Lemma wrap_int32_small (z : Z) : - 2 ^ 31 <= z < 2 ^ 31 -> wrap_int32 z = z.
Proof. intros H. unfold wrap_int32. rewrite Z.mod_small; lia. Qed.

Lemma batch_length_spec first (l : list (RenderObject F)) :
  (batch_length first l <= length l)%nat /\
  Forall (fun o => isSameBatch first o = true) (take (batch_length first l) l).
Proof.
  induction l as [|o l [IH1 IH2]]; cbn [batch_length]; [by split|].
  destruct (isSameBatch first o) eqn:E; cbn [take length]; [|split; [lia|done]].
  split; [lia|]. by constructor.
Qed.

Lemma draw_batch_spec (program : Z) batch : forall vertexOffset,
  Forall (fun o => visible o = true) batch ->
  Forall (fun o => 0 <= draw_size o) batch ->
  0 <= vertexOffset ->
  vertexOffset + total (map draw_size batch) < 2 ^ 31 ->
  exists calls,
    draw_batch program batch vertexOffset
      = (calls, vertexOffset + total (map draw_size batch)) /\
    map (fun c => (draw_first c, draw_count c)) calls
      = spans vertexOffset (map draw_size batch) /\
    map draw_program calls = map (fun _ => program) batch /\
    map draw_texture calls = map textureId batch.
Proof.
  induction batch as [|o batch IH]; intros off Hv Hs Hoff Hb.
  - exists []. cbn. by rewrite Z.add_0_r.
  - apply Forall_cons in Hv as [Hv Hvs]. apply Forall_cons in Hs as [Hs Hss].
    cbn [map total fold_right] in Hb. fold (total (map draw_size batch)) in Hb.
    pose proof (total_nonneg (map draw_size batch)) as Hn.
    rewrite Forall_map in Hn. specialize (Hn Hss).
    cbn [draw_batch]. rewrite Hv. cbn [negb].
    rewrite wrap_int32_small by lia.
    destruct (IH (off + draw_size o) Hvs Hss ltac:(lia) ltac:(lia))
      as (calls & -> & H1 & H2 & H3).
    eexists. split; [|split; [|split]].
    + cbn [map total fold_right]. fold (total (map draw_size batch)).
      by rewrite Z.add_assoc.
    + cbn [map spans draw_first draw_count]. by rewrite H1.
    + cbn [map draw_program]. by rewrite H2.
    + cbn [map draw_texture]. by rewrite H3.
Qed.

Lemma filter_all_visible batch :
  Forall (fun o => visible o = true) batch -> List.filter visible batch = batch.
Proof.
  induction 1 as [|o batch Ho _ IH]; [done|]. cbn [List.filter]. by rewrite Ho, IH.
Qed.

Section Tiling.
Variable progs : gmap Z ShaderProgram.
Variable objs : list (RenderObject F).
Hypothesis ready : forall o, o ∈ objs -> visible o = true -> shader_ready progs o = true.
Hypothesis widths : forall o, o ∈ objs -> visible o = true -> type o = Line ->
  feq (lineWidth o) (lineWidth o) = true.
Hypothesis sizes : forall o, o ∈ objs -> visible o = true -> 0 <= draw_size o.

Lemma drop_elem_of i o : o ∈ drop i objs -> o ∈ objs.
Proof.
  intros H. rewrite <- (take_drop i objs). apply elem_of_app. by right.
Qed.

Lemma draw_loop_spec fuel : forall i vertexOffset,
  (length objs - i <= fuel)%nat ->
  0 <= vertexOffset ->
  vertexOffset + total (map draw_size (List.filter visible (drop i objs))) < 2 ^ 31 ->
  exists calls,
    draw_loop fuel progs objs i vertexOffset = Done calls /\
    map (fun c => (draw_first c, draw_count c)) calls
      = spans vertexOffset (map draw_size (List.filter visible (drop i objs))) /\
    map draw_program calls
      = map (program_of progs) (List.filter visible (drop i objs)) /\
    map draw_texture calls = map textureId (List.filter visible (drop i objs)).
Proof.
  induction fuel as [|fuel IH]; intros i off Hfuel Hoff Hb;
    cbn [draw_loop]; destruct (objs !! i) as [first|] eqn:Hi.
  - apply lookup_lt_Some in Hi. lia.
  - exists []. rewrite drop_ge by (by apply lookup_ge_None). done.
  - assert (Hd : drop i objs = first :: drop (S i) objs) by (by apply drop_S).
    assert (Hin : first ∈ objs) by (by eapply list_elem_of_lookup_2).
    destruct (visible first) eqn:Hv; cbn [negb].
    + destruct (shader_ready_inv progs first (ready first Hin Hv))
        as (shader & Hs & Hz & Hp).
      rewrite Hs, Hz.
      set (n := batch_length first (drop i objs)).
      destruct (batch_length_spec first (drop i objs)) as [Hn Hbatch]. fold n in Hn, Hbatch.
      assert (Hn1 : (1 <= n)%nat).
      { unfold n. rewrite Hd. cbn [batch_length].
        rewrite isSameBatch_self; [lia|done|]. intros Ht. by apply widths. }
      assert (Hsplit : drop i objs = take n (drop i objs) ++ drop (i + n) objs).
      { by rewrite <- drop_drop, take_drop. }
      assert (Hvis : Forall (fun o => visible o = true) (take n (drop i objs))).
      { eapply Forall_impl; [exact Hbatch|]. intros o Ho.
        by destruct (isSameBatch_inv first o Ho). }
      assert (Hsz : Forall (fun o => 0 <= draw_size o) (take n (drop i objs))).
      { apply Forall_forall. intros o Ho.
        apply sizes; [|by eapply Forall_forall in Hvis].
        apply (drop_elem_of i). rewrite Hsplit. apply elem_of_app. by left. }
      assert (Hfilter : List.filter visible (drop i objs)
                = take n (drop i objs) ++ List.filter visible (drop (i + n) objs)).
      { rewrite Hsplit at 1. by rewrite List.filter_app, filter_all_visible. }
      rewrite Hfilter, map_app, total_app in Hb.
      assert (Hrest : 0 <= total (map draw_size
                                    (List.filter visible (drop (i + n) objs)))).
      { apply total_nonneg. rewrite Forall_map. apply Forall_forall.
        intros o Ho. apply list_elem_of_In, filter_In in Ho as [Ho Hvo].
        apply sizes; [|done]. apply (drop_elem_of (i + n)). by apply list_elem_of_In. }
      pose proof (total_nonneg _ (proj2 (Forall_map _ _ _) Hsz)) as Hpos.
      destruct (draw_batch_spec (program_id shader) (take n (drop i objs)) off
                  Hvis Hsz Hoff ltac:(lia)) as (calls & -> & H1 & H2 & H3).
      apply lookup_lt_Some in Hi.
      destruct (IH (i + n)%nat (off + total (map draw_size (take n (drop i objs))))
                  ltac:(lia) ltac:(lia) ltac:(lia))
        as (later & -> & L1 & L2 & L3).
      exists (calls ++ later). rewrite Hfilter, !map_app, spans_app.
      split_and!; [done|by rewrite H1, L1| |by rewrite H3, L3].
      rewrite H2, L2. f_equal. apply map_ext_Forall.
      eapply Forall_impl; [exact Hbatch|]. intros o Ho. cbn.
      destruct (isSameBatch_inv first o Ho) as (_ & He & _).
      unfold program_of. rewrite He. unfold program_of in Hp. by rewrite <- Hp, Hs.
    + rewrite Hd in Hb |- *. cbn [List.filter] in Hb |- *. rewrite Hv in Hb |- *.
      apply lookup_lt_Some in Hi.
      replace (i + 1)%nat with (S i) by lia.
      apply IH; [lia|done|done].
  - exists []. rewrite drop_ge by (by apply lookup_ge_None). done.
Qed.
End Tiling.

Lemma glyph_vertices_length o (b : list Vertex) :
  glyph_vertices o = Some b -> length b = 6%nat.
Proof.
  unfold glyph_vertices.
  destruct (corner o "v0"), (corner o "v1"), (corner o "v2"), (corner o "v3");
    try done.
  by intros [= <-].
Qed.

Lemma fill_vertices_blocks objs : forall (vs : list Vertex),
  fill_vertices objs = Some vs ->
  exists blocks,
    Forall2 (fun o b => object_vertices o = Some b) (List.filter visible objs) blocks /\
    vs = concat blocks.
Proof.
  induction objs as [|o objs IH]; intros vs H; cbn [fill_vertices] in H.
  - injection H as <-. by exists [].
  - destruct (object_vertices o) as [b|] eqn:Ho; [|done].
    destruct (fill_vertices objs) as [ws|]; [|done]. injection H as <-.
    destruct (IH ws eq_refl) as (blocks & HF & ->).
    cbn [List.filter]. destruct (visible o) eqn:Hv.
    + exists (b :: blocks). split; [by constructor|done].
    + exists blocks. split; [done|].
      unfold object_vertices in Ho. rewrite Hv in Ho. by injection Ho as <-.
Qed.

Lemma all_ready_spec progs objs :
  all_ready progs objs = true ->
  forall o, o ∈ objs -> visible o = true -> shader_ready progs o = true.
Proof.
  unfold all_ready. rewrite forallb_forall. intros H o Ho Hv.
  apply list_elem_of_In in Ho. specialize (H o Ho). by rewrite Hv in H.
Qed.

Lemma lines_exact_spec objs :
  lines_exact objs = true ->
  forall o, o ∈ objs -> visible o = true -> type o = Line ->
    feq (lineWidth o) (lineWidth o) = true /\
    draw_size o = Z.of_nat (length (line_vertices o)).
Proof.
  unfold lines_exact. rewrite forallb_forall. intros H o Ho Hv Ht.
  apply list_elem_of_In in Ho. specialize (H o Ho).
  rewrite Hv, bool_decide_eq_true_2 in H by done. cbn in H.
  apply andb_prop in H as [H1 H2]. apply Z.eqb_eq in H2. done.
Qed.

Lemma draw_calls_tile fuel progs objs (vs : list Vertex) :
  fill_vertices objs = Some vs ->
  (forall o, o ∈ objs -> visible o = true -> shader_ready progs o = true) ->
  (forall o, o ∈ objs -> visible o = true -> type o = Line ->
     feq (lineWidth o) (lineWidth o) = true /\
     draw_size o = Z.of_nat (length (line_vertices o))) ->
  Z.of_nat (length vs) < 2 ^ 31 ->
  (length objs <= fuel)%nat ->
  exists calls blocks,
    RenderObjects fuel progs objs = Done (vs, calls) /\
    Forall2 (fun o b => object_vertices o = Some b) (List.filter visible objs) blocks /\
    vs = concat blocks /\
    map (fun c => (draw_first c, draw_count c)) calls
      = spans 0 (map (fun b => Z.of_nat (length b)) blocks) /\
    map draw_program calls = map (program_of progs) (List.filter visible objs) /\
    map draw_texture calls = map textureId (List.filter visible objs).
Proof.
  intros Hfill Hready Hlines Hlen Hfuel.
  destruct (fill_vertices_blocks objs vs Hfill) as (blocks & HF & Hvs).
  assert (Hsize : forall o b, o ∈ objs -> visible o = true ->
            object_vertices o = Some b -> draw_size o = Z.of_nat (length b)).
  { intros o b Hin Hv Ho. unfold object_vertices in Ho. rewrite Hv in Ho.
    cbn [negb] in Ho. unfold draw_size.
    destruct (type o) eqn:Ht; destruct (decide _) as [Hl|Hl]; try done;
      try (injection Ho as <-; done).
    - by rewrite (glyph_vertices_length o b Ho).
    - injection Ho as <-. destruct (Hlines o Hin Hv Ht) as [_ Hd].
      unfold draw_size in Hd. rewrite Ht in Hd. by destruct (decide _). }
  assert (Hmap : map draw_size (List.filter visible objs)
                 = map (fun b => Z.of_nat (length b)) blocks).
  { assert (Hsub : forall o, o ∈ List.filter visible objs ->
                             o ∈ objs /\ visible o = true).
    { intros o Ho. apply list_elem_of_In, filter_In in Ho as [Ho Hv].
      split; [by apply list_elem_of_In|done]. }
    clear Hfill Hvs Hlen. revert Hsub.
    induction HF as [|o b l bl Hob _ IH]; intros Hsub; [done|].
    cbn [map]. f_equal.
    - destruct (Hsub o) as [Hin Hv]; [by left|]. by apply Hsize.
    - apply IH. intros o' Ho'. apply Hsub. by right. }
  assert (Htotal : total (map draw_size (List.filter visible objs))
                   = Z.of_nat (length vs)).
  { rewrite Hmap, Hvs. clear. induction blocks as [|b blocks IH]; [done|].
    cbn [map total fold_right concat]. fold (total (map (fun b => Z.of_nat (length b)) blocks)).
    rewrite length_app, IH. lia. }
  destruct (draw_loop_spec progs objs Hready
              (fun o Hin Hv Ht => proj1 (Hlines o Hin Hv Ht))
              ltac:(intros o Hin Hv;
                    destruct (object_vertices o) as [b|] eqn:Ho;
                    [rewrite (Hsize o b Hin Hv Ho); lia|];
                    exfalso; revert Ho; clear -Hfill Hin;
                    revert vs Hfill; induction objs as [|x l IH]; intros vs Hfill Ho;
                    [by apply elem_of_nil in Hin|];
                    cbn [fill_vertices] in Hfill;
                    apply elem_of_cons in Hin as [->|Hin];
                    [by rewrite Ho in Hfill|];
                    destruct (object_vertices x); [|done];
                    destruct (fill_vertices l) as [ws|] eqn:E; [|done];
                    by apply (IH Hin ws))
              fuel 0%nat 0 ltac:(lia) ltac:(lia)
              ltac:(rewrite drop_0, Htotal; lia))
    as (calls & Hloop & C1 & C2 & C3).
  rewrite drop_0 in C1, C2, C3.
  exists calls, blocks. unfold RenderObjects. rewrite Hfill, Hloop, <- Hmap.
  done.
Qed.


(** The draw calls lay the objects' vertices end to end.  For a pool whose
    glyphs have their four corners, in which every visible object has a
    usable shader and every visible line has a width equal to itself and is
    drawn with as many vertices as it put into the buffer, with fewer than
    2^31 vertices in all: [RenderObjects] returns; it issues one draw call
    per visible object, in pool order, with the program and the texture of
    that object; and the call of the k-th visible object covers exactly the
    block of vertices that object contributed. *)
Theorem draw_calls_tile_the_vertex_buffer fuel progs objs (vs : list Vertex) :
  fill_vertices objs = Some vs ->
  all_ready progs objs = true ->
  lines_exact objs = true ->
  Z.of_nat (length vs) < 2 ^ 31 ->
  (length objs <= fuel)%nat ->
  exists calls blocks,
    RenderObjects fuel progs objs = Done (vs, calls) /\
    Forall2 (fun o b => object_vertices o = Some b) (List.filter visible objs) blocks /\
    vs = concat blocks /\
    map (fun c => (draw_first c, draw_count c)) calls
      = spans 0 (map (fun b => Z.of_nat (length b)) blocks) /\
    map draw_program calls = map (program_of progs) (List.filter visible objs) /\
    map draw_texture calls = map textureId (List.filter visible objs).
Proof.
  intros Hfill Hr Hl Hlen Hfuel.
  apply draw_calls_tile; try done.
  - by apply all_ready_spec.
  - by apply lines_exact_spec.
Qed.

Lemma segment_vertices_length (width : F) (p1 p2 : Vec2 F) :
  length (segment_vertices width p1 p2)
  = if segment_skipped p1 p2 then 0%nat else 6%nat.
Proof.
  unfold segment_vertices, segment_skipped.
  by destruct (flt (segment_length p1 p2) f_eps3).
Qed.

Lemma polyline_vertices_length (width : F) (points : list (Vec2 F)) :
  length (polyline_vertices width points) = (6 * kept_segments points)%nat.
Proof.
  unfold polyline_vertices, kept_segments.
  induction (seq 0 (Z.to_nat (num_segments points))) as [|seg l IH]; [done|].
  cbn [flat_map List.filter]. rewrite length_app, IH, segment_vertices_length.
  destruct (segment_skipped _ _); cbn [negb length]; lia.
Qed.

Lemma kept_segments_bound (points : list (Vec2 F)) :
  (kept_segments points <= Z.to_nat (num_segments points))%nat.
Proof.
  unfold kept_segments.
  assert (H : forall (P : nat -> bool) (l : list nat),
            (length (List.filter P l) <= length l)%nat).
  { intros P l. induction l as [|x l IH]; [done|]. cbn [List.filter].
    destruct (P x); cbn [length]; lia. }
  etransitivity; [apply H|]. by rewrite length_seq.
Qed.

Lemma force_back_length (pts : list (Vec2 F)) (e : Vec2 F) :
  length (force_back pts e) = length pts.
Proof.
  unfold force_back. destruct pts as [|p pts]; [done|].
  rewrite length_app.
  assert (H : forall (l : list (Vec2 F)) x,
            length (removelast (x :: l)) = length l).
  { intros l. induction l as [|y l IH]; intros x; [done|].
    change (removelast (x :: y :: l)) with (x :: removelast (y :: l)).
    cbn [length]. by rewrite IH. }
  rewrite H. simpl. lia.
Qed.

Lemma tessellate_length (mode : LineMode) (s e : Vec2 F) (cs : list (Vec2 F)) :
  (2 <= length (tessellate mode s cs e) <= 20 * (length cs + 2))%nat.
Proof.
  destruct mode; unfold tessellate.
  - rewrite line_points_length. lia.
  - rewrite force_back_length, curve_samples_length. unfold num_per_segment.
    pose proof (curve_polygon_length s e cs) as H2.
    assert (H3 : (length (curve_polygon s cs e) <= length cs + 3)%nat).
    { unfold curve_polygon. destruct cs as [|c cs].
      - destruct (flt _ _); [simpl; lia|]. rewrite line_points_length. simpl. lia.
      - rewrite line_points_length. simpl. lia. }
    lia.
Qed.

Lemma stored_line_fields (s : RendererState) (start0 end0 : Vec2 F)
    (color0 : Vec4 F) (width : F) (mode : LineMode) (controls : list (Vec2 F))
    (z : Z) :
  let o := stored s (line_object start0 end0 color0 width mode controls z) in
  type o = Line /\ start o = start0 /\ end_ o = end0 /\ controlPoints o = controls /\
  lineWidth o = width /\ lineMode o = mode /\
  triCount o = wrap_int32 (num_segments (tessellate mode start0 controls end0) * 2).
Proof. cbv zeta; unfold stored, line_object; cbn; split_and!; reflexivity. Qed.

(** The vertex count a line is drawn with.  The object [AddLine] stores is
    drawn with six vertices for every segment of its tessellation, whereas
    [RenderObjects] puts six vertices into the buffer only for the segments
    that are not shorter than 0.001: the draw call never covers fewer
    vertices than the line has, and covers more as soon as a segment is
    skipped. *)
Theorem line_draw_size_counts_every_segment (start0 end0 : Vec2 F) (color0 : Vec4 F)
    (width : F) (mode : LineMode) (controls : list (Vec2 F)) (z : Z)
    (w : World) o :
  is_Some (state w) ->
  Z.of_nat (length controls) < 2 ^ 24 ->
  last (pool (fst (DuckerNative_AddLine start0 end0 color0 width mode controls z w)))
    = Some o ->
  draw_size o
    = 6 * (Z.of_nat (length (tessellate mode start0 controls end0)) - 1) /\
  Z.of_nat (length (line_vertices o))
    = 6 * Z.of_nat (kept_segments (tessellate mode start0 controls end0)) /\
  (kept_segments (tessellate mode start0 controls end0)
     <= length (tessellate mode start0 controls end0) - 1)%nat.
Proof.
  intros [s E] Hc Hlast. unfold DuckerNative_AddLine in Hlast. rewrite E in Hlast.
  destruct (add_effect (line_object start0 end0 color0 width mode controls z) w s E)
    as (o' & Ho' & _ & _ & Hp & _).
  rewrite Hp, last_snoc in Hlast. injection Hlast as <-. subst o'. clear Hp.
  destruct (stored_line_fields s start0 end0 color0 width mode controls z)
    as (Ft & Fs & Fe & Fc & Fw & Fm & Ftri).
  generalize dependent (stored s (line_object start0 end0 color0 width mode controls z)).
  intros o Ft Fs Fe Fc Fw Fm Ftri.
  pose proof (tessellate_length mode start0 end0 controls) as [Hlo Hhi].
  set (points := tessellate mode start0 controls end0) in *.
  assert (Hseg : num_segments points = Z.of_nat (length points) - 1).
  { unfold num_segments.
    replace (1 <? length points)%nat with true by (symmetry; apply Nat.ltb_lt; lia).
    apply wrap_int32_small. lia. }
  assert (Htri : triCount o = 2 * (Z.of_nat (length points) - 1)).
  { rewrite Ftri, Hseg. rewrite wrap_int32_small; lia. }
  assert (Hv : line_vertices o = polyline_vertices width points).
  { unfold line_vertices. rewrite Fm, Fs, Fe, Fc, Fw.
    destruct mode; [done|].
    rewrite line_points_length. done. }
  split_and!.
  - unfold draw_size. rewrite Ft.
    destruct (decide (Line = Line)); [|done].
    rewrite Htri. rewrite wrap_int32_small; lia.
  - rewrite Hv, polyline_vertices_length. lia.
  - pose proof (kept_segments_bound points) as Hk. rewrite Hseg in Hk. lia.
Qed.
End DrawingProofs.

Lemma single_is_hd {A} (d : A) (l : list A) : length l = 1%nat -> l = [hd d l].
Proof. by destruct l as [|x [|y l]]. Qed.


Lemma some_default {A} (d : A) (x : option A) :
  match x with Some _ => true | None => false end = true ->
  x = Some (default d x).
Proof. by destruct x. Qed.

(** [AddLine] with a NaN width, then [Render]. *)
Lemma nan_line_width_hangs_render_witness :
  pool (DuckerNative_Render (run nan_line_session boot32)) = [] ++ nan_line :: [] /\
  feq (lineWidth nan_line) (lineWidth nan_line) = false /\
  main_pass 1000 (run nan_line_session boot32) <> Some (Done ([], [])).
Proof.
  assert (Hp : pool (DuckerNative_Render (run nan_line_session boot32))
               = [] ++ nan_line :: []).
  { apply single_is_hd. vm_compute. reflexivity. }
  assert (Hv : visible nan_line = true) by (vm_compute; reflexivity).
  assert (Ht : type nan_line = Line) by (vm_compute; reflexivity).
  assert (Hw : feq (lineWidth nan_line) (lineWidth nan_line) = false)
    by (vm_compute; reflexivity).
  assert (Hr : shader_ready (programs (DuckerNative_Render (run nan_line_session boot32)))
                 nan_line = true) by (vm_compute; reflexivity).
  split; [exact Hp|]. split; [exact Hw|].
  exact (nan_line_width_hangs_render 1000 (run nan_line_session boot32) [] nan_line []
           ([], []) Hp (Forall_nil_2 _) Hv Ht Hw Hr).
Defined.


(** Two lines and a rectangle, each in its own batch. *)
Lemma draw_calls_tile_the_vertex_buffer_witness :
  exists calls blocks,
    RenderObjects 3 (programs w_mixed) (pool w_mixed)
      = Done (default [] (fill_vertices (pool w_mixed)), calls) /\
    Forall2 (fun o b => object_vertices o = Some b)
      (List.filter visible (pool w_mixed)) blocks /\
    default [] (fill_vertices (pool w_mixed)) = concat blocks /\
    map (fun c => (draw_first c, draw_count c)) calls
      = spans 0 (map (fun b => Z.of_nat (length b)) blocks) /\
    map draw_program calls
      = map (program_of (programs w_mixed)) (List.filter visible (pool w_mixed)) /\
    map draw_texture calls = map textureId (List.filter visible (pool w_mixed)).
Proof.
  assert (Hfill : fill_vertices (pool w_mixed)
                  = Some (default [] (fill_vertices (pool w_mixed)))).
  { apply some_default. vm_compute. reflexivity. }
  assert (Hr : all_ready (programs w_mixed) (pool w_mixed) = true)
    by (vm_compute; reflexivity).
  assert (Hl : lines_exact (pool w_mixed) = true) by (vm_compute; reflexivity).
  assert (Hlen : Z.of_nat (length (default [] (fill_vertices (pool w_mixed)))) < 2 ^ 31)
    by (vm_compute; reflexivity).
  assert (Hfuel : (length (pool w_mixed) <= 3)%nat) by (vm_compute; lia).
  exact (draw_calls_tile_the_vertex_buffer 3 (programs w_mixed) (pool w_mixed)
           (default [] (fill_vertices (pool w_mixed))) Hfill Hr Hl Hlen Hfuel).
Defined.

(** A line whose second segment has length zero: drawn with twelve
    vertices, six in the buffer. *)
Lemma line_draw_size_counts_every_segment_witness :
  is_Some (state started) /\
  length (tessellate Straight (pt 0 0) [pt 10 0] (pt 10 0)) = 3%nat /\
  kept_segments (tessellate Straight (pt 0 0) [pt 10 0] (pt 10 0)) = 1%nat /\
  draw_size
    (default RenderObject_default
       (last (pool (fst (DuckerNative_AddLine (pt 0 0) (pt 10 0) white (fi 2) Straight [pt 10 0]
                       0 started)))))
    = 6 * (Z.of_nat (length (tessellate Straight (pt 0 0) [pt 10 0] (pt 10 0))) - 1) /\
  Z.of_nat
    (length (line_vertices
       (default RenderObject_default
          (last (pool (fst (DuckerNative_AddLine (pt 0 0) (pt 10 0) white (fi 2) Straight [pt 10 0]
                       0 started)))))))
    = 6 * Z.of_nat (kept_segments (tessellate Straight (pt 0 0) [pt 10 0] (pt 10 0))).
Proof.
  assert (Hs : is_Some (state started)).
  { assert (Hn : next_id started = 1) by (vm_compute; reflexivity).
    unfold next_id in Hn.
    destruct (state started) as [s|]; [exact (ex_intro _ s eq_refl)|discriminate Hn]. }
  assert (Hc : Z.of_nat (length [pt 10 0]) < 2 ^ 24) by (vm_compute; reflexivity).
  assert (Hlast :
    last (pool (fst (DuckerNative_AddLine (pt 0 0) (pt 10 0) white (fi 2) Straight [pt 10 0]
                       0 started)))
    = Some (default RenderObject_default
              (last (pool (fst (DuckerNative_AddLine (pt 0 0) (pt 10 0) white (fi 2) Straight [pt 10 0]
                       0 started)))))).
  { apply some_default. vm_compute. reflexivity. }
  split; [exact Hs|].
  split; [vm_compute; reflexivity|]. split; [vm_compute; reflexivity|].
  pose proof (line_draw_size_counts_every_segment (pt 0 0) (pt 10 0) white (fi 2)
                Straight [pt 10 0] 0 started _ Hs Hc Hlast) as H.
  exact (conj (proj1 H) (proj1 (proj2 H))).
Defined.

Section FastVectorProofs.
Import FastVector.
Context {T : Type} `{EqDecision T} {E : Element T}.
Implicit Types (v : @fast_vector T) (l xs : list T) (block pre rest cells : list (Cell T)).

Lemma read_middle pre (x : T) rest :
  read (pre ++ Obj x :: rest) (length pre) = Ok x.
Proof. unfold read. by rewrite list_lookup_middle. Qed.

Lemma write_middle pre (c c' : Cell T) rest :
  write (pre ++ c :: rest) (length pre) c' = Ok (pre ++ c' :: rest).
Proof.
  unfold write. rewrite length_app. cbn [length].
  replace (length pre <? length pre + S (length rest))%nat with true
    by (symmetry; apply Nat.ltb_lt; lia).
  f_equal. rewrite insert_app_r_alt by lia. by rewrite Nat.sub_diag.
Qed.

Lemma write_outside block (i : nat) (c : Cell T) :
  (length block <= i)%nat -> write block i c = Fails.
Proof.
  intros H0. unfold write.
  by replace (i <? length block)%nat with false by (symmetry; apply Nat.ltb_ge; lia).
Qed.

Lemma read_cells_middle xs : forall pre rest,
  read_cells (pre ++ map Obj xs ++ rest) (length pre) (length xs) = Ok xs.
Proof.
  induction xs as [|x xs IH]; intros pre rest; [done|].
  cbn [map app length read_cells]. rewrite read_middle. cbn.
  specialize (IH (pre ++ [Obj x]) rest).
  rewrite length_app, <- app_assoc in IH. cbn [length app] in IH.
  replace (length pre + 1)%nat with (S (length pre)) in IH by lia.
  by rewrite IH.
Qed.

Lemma write_cells_middle xs : forall pre cells rest,
  length cells = length xs ->
  write_cells (pre ++ cells ++ rest) (length pre) xs = Ok (pre ++ map Obj xs ++ rest).
Proof.
  induction xs as [|x xs IH]; intros pre cells rest Hlen.
  - by destruct cells.
  - destruct cells as [|c cells]; [done|]. cbn [map app write_cells].
    rewrite write_middle. cbn.
    specialize (IH (pre ++ [Obj x]) cells rest).
    rewrite length_app, <- !app_assoc in IH. cbn [length app] in IH.
    replace (length pre + 1)%nat with (S (length pre)) in IH by lia.
    apply IH. simpl in Hlen. lia.
Qed.

Lemma destruct_range_middle xs : forall pre rest,
  destruct_range (pre ++ map Obj xs ++ rest) (length pre) (length xs)
  = Ok (pre ++ replicate (length xs) Raw ++ rest).
Proof.
  induction xs as [|x xs IH]; intros pre rest; [done|].
  cbn [map app length destruct_range replicate].
  rewrite read_middle. cbn. rewrite write_middle. cbn.
  specialize (IH (pre ++ [Raw]) rest).
  rewrite length_app, <- !app_assoc in IH. cbn [length app] in IH.
  replace (length pre + 1)%nat with (S (length pre)) in IH by lia.
  exact IH.
Qed.

Lemma read_cells_front xs rest :
  read_cells (map Obj xs ++ rest) 0 (length xs) = Ok xs.
Proof. exact (read_cells_middle xs [] rest). Qed.

Lemma write_cells_front xs cells rest :
  length cells = length xs ->
  write_cells (cells ++ rest) 0 xs = Ok (map Obj xs ++ rest).
Proof. exact (write_cells_middle xs [] cells rest). Qed.

Lemma destruct_range_front xs rest :
  destruct_range (map Obj xs ++ rest) 0 (length xs)
  = Ok (replicate (length xs) Raw ++ rest).
Proof. exact (destruct_range_middle xs [] rest). Qed.

(** The block of a vector that holds [l]: the objects, then the spare
    cells. *)
Lemma represents_block v l :
  represents v l <->
  exists rest, m_data v = map Obj l ++ rest /\ m_size v = length l /\
               m_capacity v = (length l + length rest)%nat.
Proof.
  unfold represents. split.
  - intros (Hs & Hc & Ht). exists (drop (m_size v) (m_data v)).
    rewrite <- Ht, take_drop. split_and!; [done..|].
    rewrite <- Hc, <- Hs.
    rewrite <- (take_drop (m_size v) (m_data v)) at 1.
    rewrite length_app. f_equal.
    rewrite Ht, length_map. done.
  - intros (rest & Hd & Hs & Hc). rewrite Hd, Hs, Hc.
    split_and!; [done|by rewrite length_app, length_map|].
    rewrite take_app_length'; [done|by rewrite length_map].
Qed.

Lemma represents_intro (l : list T) rest :
  represents (mkVec (map Obj l ++ rest) (length l) (length l + length rest)) l.
Proof. apply represents_block. by exists rest. Qed.

Lemma relocate_spec v l (n : nat) :
  represents v l -> (length l <= n)%nat ->
  relocate v n = Ok (map Obj l ++ replicate (n - length l) Raw).
Proof.
  intros (rest & Hd & Hs & Hc)%represents_block Hn. unfold relocate.
  rewrite Hd, Hs.
  rewrite read_cells_front. cbn.
  rewrite destruct_range_front. cbn.
  unfold malloc.
  replace n with (length l + (n - length l))%nat at 1 by lia.
  rewrite replicate_add.
  rewrite write_cells_front; [done|].
  by rewrite length_replicate.
Qed.

Lemma realloc_grow (l : list T) rest (n : nat) :
  (length l + length rest <= n)%nat ->
  realloc (map Obj l ++ rest) n
  = map Obj l ++ rest ++ replicate (n - (length l + length rest)) Raw.
Proof.
  intros Hn. unfold realloc. rewrite take_ge, length_app, length_map, <- app_assoc.
  - done.
  - rewrite length_app, length_map. lia.
Qed.

Lemma reserve_spec (n : nat) v l :
  represents v l ->
  exists v', reserve n v = Ok v' /\ represents v' l /\
             m_capacity v' = Nat.max n (m_capacity v).
Proof.
  intros Hv. pose proof Hv as (rest & Hd & Hs & Hc)%represents_block.
  unfold reserve. destruct (m_capacity v <? n)%nat eqn:Hlt.
  2:{ apply Nat.ltb_ge in Hlt. exists v. split_and!; [done..|lia]. }
  apply Nat.ltb_lt in Hlt. destruct is_trivial.
  - set (k := ((n - (length l + length rest)) / sizeof_T)%nat).
    set (spare := replicate (n - (length l + length rest)) (@Raw T)).
    assert (Hk : (k <= n - (length l + length rest))%nat).
    { unfold k. destruct sizeof_T as [|s]; [rewrite Nat.div_0_r; lia|].
      apply Nat.Div0.div_le_upper_bound. nia. }
    assert (Hw : write_cells (realloc (m_data v) n) (m_capacity v)
                   (replicate ((n - m_capacity v) / sizeof_T) zero)
                 = Ok (map Obj l ++ rest ++ map Obj (replicate k zero)
                         ++ drop k spare)).
    { rewrite Hd, Hc, realloc_grow by lia. fold k spare.
      rewrite <- (take_drop k spare) at 1.
      rewrite (app_assoc (map Obj l)), (app_assoc (map Obj l ++ rest)).
      rewrite <- (app_assoc _ (take k spare)).
      replace (length l + length rest)%nat with (length (map Obj l ++ rest))
        by (by rewrite length_app, length_map).
      rewrite (write_cells_middle (replicate k zero)); [by rewrite <- !app_assoc|].
      rewrite length_take, length_replicate. unfold spare.
      rewrite length_replicate. lia. }
    rewrite Hw. cbn. eexists. split; [done|]. split; [|cbn [m_capacity]; lia].
    apply represents_block. eexists.
    split; [done|]. cbn. split; [done|].
    rewrite !length_app, length_map, length_replicate, length_drop.
    unfold spare. rewrite length_replicate. lia.
  - rewrite (relocate_spec v l n Hv) by lia. cbn.
    eexists. split; [done|]. split; [|cbn [m_capacity]; lia].
    apply represents_block. eexists. split; [done|]. cbn.
    rewrite length_replicate. split; [done|lia].
Qed.

Lemma read_after l (x : T) rest :
  read (map Obj l ++ Obj x :: rest) (length l) = Ok x.
Proof. pose proof (read_middle (map Obj l) x rest) as H0. by rewrite length_map in H0. Qed.

Lemma write_after l (c c' : Cell T) rest :
  write (map Obj l ++ c :: rest) (length l) c' = Ok (map Obj l ++ c' :: rest).
Proof.
  pose proof (write_middle (map Obj l) c c' rest) as H0. by rewrite length_map in H0.
Qed.

Lemma write_cells_after l xs cells rest :
  length cells = length xs ->
  write_cells (map Obj l ++ cells ++ rest) (length l) xs
  = Ok (map Obj l ++ map Obj xs ++ rest).
Proof.
  intros Hlen. pose proof (write_cells_middle xs (map Obj l) cells rest Hlen) as H0.
  by rewrite length_map in H0.
Qed.

Lemma destruct_range_after l xs rest :
  destruct_range (map Obj l ++ map Obj xs ++ rest) (length l) (length xs)
  = Ok (map Obj l ++ replicate (length xs) Raw ++ rest).
Proof.
  pose proof (destruct_range_middle xs (map Obj l) rest) as H0.
  by rewrite length_map in H0.
Qed.

Lemma represents_size v l : represents v l -> (m_size v <= m_capacity v)%nat.
Proof. intros (rest & _ & -> & ->)%represents_block. lia. Qed.

(** A write into the first spare cell. *)
Lemma push_spare (x : T) v l :
  represents v l -> (m_size v < m_capacity v)%nat ->
  exists b, write (m_data v) (m_size v) (Obj x) = Ok b /\
            represents (mkVec b (S (m_size v)) (m_capacity v)) (l ++ [x]).
Proof.
  intros (rest & Hd & Hs & Hc)%represents_block Hlt.
  destruct rest as [|c rest]; [simpl in Hc; lia|].
  rewrite Hd, Hs, write_after.
  eexists. split; [done|]. apply represents_block. exists rest.
  rewrite map_app, <- app_assoc, length_app. cbn [map app length m_data m_size m_capacity].
  split_and!; [done|lia|]. rewrite Hc. simpl. lia.
Qed.

Lemma push_back_spec (x : T) v l :
  represents v l ->
  exists v', push_back x v = Ok v' /\ represents v' (l ++ [x]).
Proof.
  intros Hv. unfold push_back.
  assert (H1 : exists v1,
            (if (m_size v =? m_capacity v)%nat
             then reserve (m_capacity v * 2 + 1) v else Ok v) = Ok v1 /\
            represents v1 l /\ (m_size v1 < m_capacity v1)%nat).
  { pose proof (represents_size v l Hv) as Hle.
    destruct (m_size v =? m_capacity v)%nat eqn:Heq.
    - apply Nat.eqb_eq in Heq.
      destruct (reserve_spec (m_capacity v * 2 + 1) v l Hv) as (v1 & Hr & Hv1 & Hc).
      exists v1. split_and!; [done..|].
      destruct Hv as (Hs & _). destruct Hv1 as (Hs1 & _). lia.
    - apply Nat.eqb_neq in Heq. exists v. split_and!; [done..|lia]. }
  destruct H1 as (v1 & -> & Hv1 & Hlt). cbn.
  destruct (push_spare x v1 l Hv1 Hlt) as (b & -> & Hb). cbn. by eexists.
Qed.

Lemma nonempty_snoc l : l <> [] -> exists l0 x, l = l0 ++ [x].
Proof.
  intros Hl. destruct (exists_last Hl) as (l0 & x & ->). by exists l0, x.
Qed.

Lemma pop_back_spec v l :
  represents v l -> l <> [] ->
  exists v', pop_back v = Ok v' /\ represents v' (removelast l).
Proof.
  intros (rest & Hd & Hs & Hc)%represents_block Hl.
  destruct (nonempty_snoc l Hl) as (l0 & x & ->).
  rewrite removelast_last. rewrite length_app in Hs, Hc. cbn [length] in Hs, Hc.
  rewrite map_app, <- app_assoc in Hd. cbn [map app] in Hd.
  unfold pop_back. replace (0 <? m_size v)%nat with true
    by (symmetry; apply Nat.ltb_lt; lia).
  replace (m_size v - 1)%nat with (length l0) by lia.
  destruct is_trivial.
  - eexists. split; [done|]. apply represents_block. exists (Obj x :: rest).
    cbn [m_data m_size m_capacity length]. split_and!; [done..|lia].
  - rewrite Hd. cbn [destruct_range].
    rewrite read_after. cbn. rewrite write_after. cbn.
    eexists. split; [done|]. apply represents_block. exists (Raw :: rest).
    cbn [m_data m_size m_capacity length]. split_and!; [done..|lia].
Qed.

Lemma clear_spec v l :
  represents v l -> exists v', clear v = Ok v' /\ represents v' [].
Proof.
  intros (rest & Hd & Hs & Hc)%represents_block. unfold clear.
  destruct is_trivial.
  - eexists. split; [done|]. apply represents_block. exists (m_data v).
    cbn. split_and!; [done..|]. by rewrite Hd, length_app, length_map.
  - rewrite Hd, Hs, destruct_range_front. cbn.
    eexists. split; [done|]. apply represents_block. eexists.
    cbn. split_and!; [done..|]. by rewrite length_app, length_replicate.
Qed.

Lemma resize_spec (count : nat) v l l' :
  represents v l -> list_step (Resize count) l = Some l' ->
  exists v', resize count v = Ok v' /\ represents v' l'.
Proof.
  intros Hv Hstep. cbn [list_step] in Hstep. unfold resize.
  pose proof Hv as (rest & Hd & Hs & Hc)%represents_block.
  destruct (count =? m_size v)%nat eqn:Heq.
  { apply Nat.eqb_eq in Heq.
    replace (count <=? length l)%nat with true in Hstep
      by (symmetry; apply Nat.leb_le; lia).
    injection Hstep as <-. rewrite take_ge by lia. by exists v. }
  apply Nat.eqb_neq in Heq.
  destruct (count <=? length l)%nat eqn:Hle.
  - apply Nat.leb_le in Hle. injection Hstep as <-.
    replace (m_capacity v <? count)%nat with false
      by (symmetry; apply Nat.ltb_ge; lia).
    cbn [mbind Res_bind].
    replace (m_size v <? count)%nat with false
      by (symmetry; apply Nat.ltb_ge; lia).
    assert (Hsplit : m_data v
      = map Obj (take count l) ++ map Obj (drop count l) ++ rest).
    { by rewrite app_assoc, <- map_app, take_drop. }
    destruct is_trivial.
    + cbn. eexists. split; [done|]. apply represents_block. eexists.
      cbn [m_data m_size m_capacity]. split; [exact Hsplit|].
      rewrite length_take, length_app, length_map, length_drop. lia.
    + rewrite Hsplit.
      replace (destruct_range _ count) with
        (destruct_range
           (map Obj (take count l) ++ map Obj (drop count l) ++ rest)
           (length (take count l)))
        by (f_equal; rewrite length_take; lia).
      replace (m_size v - count)%nat with (length (drop count l))
        by (rewrite length_drop; lia).
      rewrite destruct_range_after. cbn.
      eexists. split; [done|]. apply represents_block. eexists.
      cbn [m_data m_size m_capacity]. split; [done|].
      rewrite length_take, length_app, length_replicate, length_drop. lia.
  - apply Nat.leb_gt in Hle.
    destruct is_trivial eqn:Htriv; [done|]. injection Hstep as <-.
    assert (H1 : exists v1,
              (if (m_capacity v <? count)%nat then reserve count v else Ok v) = Ok v1 /\
              represents v1 l /\ (count <= m_capacity v1)%nat).
    { destruct (m_capacity v <? count)%nat eqn:Hlt.
      - destruct (reserve_spec count v l Hv) as (v1 & Hr & Hv1 & Hc1).
        exists v1. split_and!; [done..|lia].
      - apply Nat.ltb_ge in Hlt. by exists v. }
    destruct H1 as (v1 & -> & Hv1 & Hcap). cbn [mbind Res_bind].
    apply represents_block in Hv1 as (rest1 & Hd1 & Hs1 & Hc1).
    replace (m_size v1 <? count)%nat with true
      by (symmetry; apply Nat.ltb_lt; lia).
    rewrite Hd1, Hs1.
    rewrite <- (take_drop (count - length l) rest1).
    rewrite (write_cells_after l (replicate (count - length l) default_T)).
    2:{ rewrite length_take, length_replicate. lia. }
    cbn. eexists. split; [done|]. apply represents_block. eexists.
    cbn [m_data m_size m_capacity]. rewrite map_app, <- app_assoc.
    split; [done|].
    rewrite !length_app, length_replicate, length_drop. lia.
Qed.

Lemma find_item_absent (value : T) xs : forall pre rest,
  value ∉ xs ->
  find_item (pre ++ map Obj xs ++ rest) (length pre) (length xs) value
  = Ok (length pre + length xs)%nat.
Proof.
  induction xs as [|x xs IH]; intros pre rest Hn.
  - cbn. f_equal. lia.
  - apply not_elem_of_cons in Hn as [Hne Hn].
    cbn [map app length find_item]. rewrite read_middle. cbn.
    destruct (decide (x = value)) as [->|_]; [done|].
    specialize (IH (pre ++ [Obj x]) rest Hn).
    rewrite length_app, <- app_assoc in IH. cbn [length app] in IH.
    replace (length pre + 1)%nat with (S (length pre)) in IH by lia.
    rewrite IH. f_equal. lia.
Qed.

Lemma find_item_present (value : T) xs ys : forall pre rest,
  value ∉ xs ->
  find_item (pre ++ map Obj (xs ++ value :: ys) ++ rest) (length pre)
    (length (xs ++ value :: ys)) value
  = Ok (length pre + length xs)%nat.
Proof.
  induction xs as [|x xs IH]; intros pre rest Hn.
  - cbn [app map length find_item]. rewrite read_middle. cbn.
    destruct (decide (value = value)); [|done]. f_equal. lia.
  - apply not_elem_of_cons in Hn as [Hne Hn].
    cbn [map app length find_item]. rewrite read_middle. cbn.
    destruct (decide (x = value)) as [->|_]; [done|].
    specialize (IH (pre ++ [Obj x]) rest Hn).
    rewrite length_app, <- app_assoc in IH. cbn [length app] in IH.
    replace (length pre + 1)%nat with (S (length pre)) in IH by lia.
    rewrite IH. f_equal. lia.
Qed.

(** A list either lacks [value] or splits at its first occurrence. *)
Lemma first_occurrence (value : T) l :
  ((value ∉ l) /\ remove_first value l = l) \/
  exists xs ys, l = xs ++ value :: ys /\ (value ∉ xs) /\
                remove_first value l = xs ++ ys /\
                followers value l = length ys.
Proof.
  induction l as [|x l IH].
  - left. split; [apply not_elem_of_nil|done].
  - cbn [remove_first followers]. destruct (decide (x = value)) as [->|Hne].
    + right. exists [], l. split_and!; [done|apply not_elem_of_nil|done|done].
    + destruct IH as [[Hn Hr]|(xs & ys & -> & Hn & Hr & Hf)].
      * left. split; [|by rewrite Hr]. apply not_elem_of_cons. by split.
      * right. exists (x :: xs), ys. split_and!; [done| |by rewrite Hr|done].
        apply not_elem_of_cons. by split.
Qed.

Lemma move_down_spec ys : forall pre (x0 : T) rest,
  exists z,
    move_down (pre ++ Obj x0 :: map Obj ys ++ rest) (length pre) (length ys)
    = Ok (pre ++ map Obj ys ++ Obj z :: rest).
Proof.
  induction ys as [|y ys IH]; intros pre x0 rest.
  - by exists x0.
  - cbn [map app length move_down]. rewrite read_middle. cbn [mbind Res_bind].
    assert (Hr : read (pre ++ Obj x0 :: Obj y :: map Obj ys ++ rest) (S (length pre))
                 = Ok y).
    { pose proof (read_middle (pre ++ [Obj x0]) y (map Obj ys ++ rest)) as H0.
      rewrite length_app, <- app_assoc in H0. cbn [length app] in H0.
      by replace (length pre + 1)%nat with (S (length pre)) in H0 by lia. }
    rewrite Hr. cbn [mbind Res_bind]. rewrite write_middle. cbn [mbind Res_bind].
    assert (Hw : write (pre ++ Obj y :: Obj y :: map Obj ys ++ rest) (S (length pre))
                   (Obj (moved_from y))
                 = Ok (pre ++ Obj y :: Obj (moved_from y) :: map Obj ys ++ rest)).
    { pose proof (write_middle (pre ++ [Obj y]) (Obj y) (Obj (moved_from y))
                    (map Obj ys ++ rest)) as H0.
      rewrite length_app, <- !app_assoc in H0. cbn [length app] in H0.
      by replace (length pre + 1)%nat with (S (length pre)) in H0 by lia. }
    rewrite Hw. cbn [mbind Res_bind].
    destruct (IH (pre ++ [Obj y]) (moved_from y) rest) as (z & Hz).
    rewrite length_app, <- !app_assoc in Hz. cbn [length app] in Hz.
    replace (length pre + 1)%nat with (S (length pre)) in Hz by lia.
    exists z. exact Hz.
Qed.

Lemma erase_spec (value : T) v l l' :
  represents v l -> list_step (Erase value) l = Some l' ->
  exists v' found, erase value v = Ok (v', found) /\ represents v' l'.
Proof.
  intros Hv Hstep. cbn [list_step] in Hstep.
  pose proof Hv as (rest & Hd & Hs & Hc)%represents_block.
  unfold erase. rewrite Hd, Hs.
  destruct (first_occurrence value l) as [[Hn Hr]|(xs & ys & Hl & Hn & Hr & Hf)].
  - pose proof (find_item_absent value l [] rest Hn) as Hfind.
    cbn [app length Nat.add] in Hfind. rewrite Hfind. cbn [mbind Res_bind].
    rewrite Nat.ltb_irrefl.
    assert (l' = l) as ->.
    { destruct (is_trivial && _); [done|]. injection Hstep as <-. done. }
    by exists v, false.
  - rewrite Hf in Hstep. subst l.
    pose proof (find_item_present value xs ys [] rest Hn) as Hfind.
    cbn [app length Nat.add] in Hfind. rewrite Hfind. cbn [mbind Res_bind].
    rewrite length_app. cbn [length].
    replace (length xs <? length xs + S (length ys))%nat with true
      by (symmetry; apply Nat.ltb_lt; lia).
    replace (length xs + S (length ys) - length xs - 1)%nat with (length ys) by lia.
    replace (length xs + S (length ys) - 1)%nat with (length xs + length ys)%nat by lia.
    rewrite map_app, <- app_assoc. cbn [map app].
    assert (Hrep : forall cells : list (Cell T), length cells = 1%nat ->
              represents
                (mkVec (map Obj xs ++ map Obj ys ++ cells ++ rest)
                   (length xs + length ys) (m_capacity v)) (xs ++ ys)).
    { intros cells Hcells. apply represents_block. exists (cells ++ rest).
      cbn [m_data m_size m_capacity].
      rewrite map_app, <- app_assoc, !length_app, Hc, !length_app. cbn [length].
      split_and!; [done|done|lia]. }
    destruct is_trivial eqn:Htriv; cbn [andb] in Hstep.
    + destruct (1 <? length ys)%nat eqn:H1; [done|]. injection Hstep as <-.
      apply Nat.ltb_ge in H1. rewrite Hr.
      destruct ys as [|y [|y' ys]]; [| |simpl in H1; lia]; cbn [length Nat.ltb Nat.leb].
      * cbn [mbind Res_bind]. eexists _, true. split; [done|].
        apply (Hrep [Obj value]). done.
      * cbn [map app].
        assert (Hl : (map Obj xs ++ Obj value :: Obj y :: rest) !! S (length xs)
                     = Some (Obj y)).
        { pose proof (list_lookup_middle (map Obj xs ++ [Obj value]) rest (Obj y)
                        (S (length xs))) as H0.
          rewrite <- app_assoc in H0. apply H0.
          rewrite length_app, length_map. simpl. lia. }
        rewrite Hl, write_after. cbn [mbind Res_bind].
        eexists _, true. split; [done|]. apply (Hrep [Obj y]). done.
    + injection Hstep as <-. rewrite Hr.
      destruct ys as [|y ys]; cbn [length Nat.ltb Nat.leb].
      * cbn [destruct_range map app]. rewrite read_after. cbn [mbind Res_bind].
        rewrite write_after. cbn [mbind Res_bind].
        eexists _, true. split; [done|]. apply (Hrep [Raw]). done.
      * destruct (move_down_spec (y :: ys) (map Obj xs) value rest) as (z & Hz).
        rewrite length_map in Hz. cbn [length] in Hz. rewrite Hz.
        cbn [mbind Res_bind].
        eexists _, true. split; [done|]. apply (Hrep [Obj z]). done.
Qed.

Lemma write_cells_spare values v l :
  represents v l -> (m_size v + length values < m_capacity v)%nat ->
  exists b, write_cells (m_data v) (m_size v) values = Ok b /\
            represents (mkVec b (m_size v + length values) (m_capacity v))
              (l ++ values).
Proof.
  intros (rest & Hd & Hs & Hc)%represents_block Hlt.
  rewrite Hd, Hs. rewrite <- (take_drop (length values) rest).
  rewrite write_cells_after by (rewrite length_take; lia).
  eexists. split; [done|]. apply represents_block. eexists.
  cbn [m_data m_size m_capacity]. rewrite map_app, <- app_assoc, length_app.
  split_and!; [done|done|]. rewrite length_drop. lia.
Qed.

Lemma push_all_spec values : forall v l,
  represents v l ->
  exists v', foldl (fun r x => v' ← r; push_back x v') (Ok v) values = Ok v' /\
             represents v' (l ++ values).
Proof.
  induction values as [|x values IH]; intros v l Hv.
  - exists v. by rewrite app_nil_r.
  - cbn [foldl mbind Res_bind].
    destruct (push_back_spec x v l Hv) as (v1 & -> & Hv1).
    destruct (IH v1 (l ++ [x]) Hv1) as (v' & Hf & Hv').
    exists v'. split; [done|]. by rewrite <- app_assoc in Hv'.
Qed.

Lemma append_spec values v l :
  represents v l ->
  exists v', append values v = Ok v' /\ represents v' (l ++ values).
Proof.
  intros Hv. unfold append.
  destruct (m_capacity v <=? m_size v + length values)%nat eqn:Hle.
  - by apply push_all_spec.
  - apply Nat.leb_gt in Hle.
    destruct (write_cells_spare values v l Hv Hle) as (b & -> & Hb).
    cbn. by eexists.
Qed.

(** Every modifier with a defined list result keeps the vector in step
    with the list. *)
Lemma step_spec (op : Op) v l l' :
  represents v l -> list_step op l = Some l' ->
  exists v', step op v = Ok v' /\ represents v' l'.
Proof.
  intros Hv Hstep. destruct op; cbn [step].
  - injection Hstep as <-. by apply push_back_spec.
  - cbn [list_step] in Hstep. destruct l as [|x l]; [done|].
    assert (Hl' : l' = removelast (x :: l)) by congruence. rewrite Hl'.
    by apply pop_back_spec.
  - injection Hstep as <-. by eapply clear_spec.
  - injection Hstep as <-.
    destruct (reserve_spec new_cap v l Hv) as (v' & Hr & Hv' & _). by exists v'.
  - by eapply resize_spec.
  - destruct (erase_spec value v l l' Hv Hstep) as (v' & found & -> & Hv').
    cbn. by exists v'.
  - injection Hstep as <-. by apply append_spec.
  - done.
Qed.

Lemma run_ops_cons (op : Op) (ops : list Op) v v' :
  step op v = Ok v' -> run_ops (op :: ops) v = run_ops ops v'.
Proof. intros Hs. unfold run_ops. cbn [foldl mbind Res_bind]. by rewrite Hs. Qed.

Lemma run_ops_app (ops1 ops2 : list Op) v v' :
  run_ops ops1 v = Ok v' -> run_ops (ops1 ++ ops2) v = run_ops ops2 v'.
Proof. intros Hr. unfold run_ops in *. by rewrite foldl_app, Hr. Qed.

Lemma run_ops_spec (ops : list Op) : forall v l l',
  represents v l -> list_run ops l = Some l' ->
  exists v', run_ops ops v = Ok v' /\ represents v' l'.
Proof.
  induction ops as [|op ops IH]; intros v l l' Hv Hrun.
  - injection Hrun as <-. by exists v.
  - cbn [list_run] in Hrun.
    destruct (list_step op l) as [l1|] eqn:Hstep; [|done].
    destruct (step_spec op v l l1 Hv Hstep) as (v1 & Hs & Hv1).
    rewrite (run_ops_cons op ops v v1 Hs). by eapply IH.
Qed.

Lemma represents_empty : represents (@empty_vector T) [].
Proof. by apply represents_block; exists []. Qed.

Lemma at_spec (pos : nat) v l :
  represents v l ->
  at_ pos v = match l !! pos with Some x => Ok x | None => Throws end.
Proof.
  intros (rest & Hd & Hs & Hc)%represents_block. unfold at_, index.
  rewrite Hs. destruct (l !! pos) as [x|] eqn:Hx.
  - pose proof (lookup_lt_Some _ _ _ Hx) as Hlt.
    replace (length l <=? pos)%nat with false by (symmetry; apply Nat.leb_gt; lia).
    replace (pos <? length l)%nat with true by (symmetry; apply Nat.ltb_lt; lia).
    unfold read. rewrite Hd, lookup_app_l by (rewrite length_map; lia).
    by rewrite list_lookup_fmap, Hx.
  - apply lookup_ge_None in Hx.
    by replace (length l <=? pos)%nat with true by (symmetry; apply Nat.leb_le; lia).
Qed.



(** [shrink_to_fit] leaves [m_capacity] behind.  On a vector, reached from
    the empty one, that holds an element and has spare capacity,
    [shrink_to_fit] moves the elements to a block of [size] cells and
    keeps them, but [capacity] still reports the old value; the next
    [push_back] finds [size < capacity], does not grow the block and writes
    one cell past its end. *)
Theorem shrink_to_fit_then_push_back_overflows (ops : list Op) (l : list T)
    (v : fast_vector) (value : T) :
  list_run ops [] = Some l ->
  run_ops ops empty_vector = Ok v ->
  (0 < size v < capacity v)%nat ->
  exists v',
    shrink_to_fit v = Ok v' /\
    size v' = size v /\ capacity v' = capacity v /\
    length (m_data v') = size v /\
    (forall pos, at_ pos v' = at_ pos v) /\
    push_back value v' = Fails.
Proof.
  intros Hrun Hv0 [Hpos Hlt]. unfold size, capacity in *.
  destruct (run_ops_spec ops empty_vector [] l represents_empty Hrun) as (v1 & Hr & Hv).
  rewrite Hv0 in Hr. injection Hr as <-.
  pose proof Hv as (rest & Hd & Hs & Hc)%represents_block.
  assert (Hblock : exists b,
            (if is_trivial then Ok (realloc (m_data v) (m_size v))
             else relocate v (m_size v)) = Ok b /\ b = map Obj l).
  { destruct is_trivial.
    - eexists. split; [done|]. unfold realloc.
      rewrite Hd, Hs, take_app_length' by (by rewrite length_map).
      rewrite length_app, length_map.
      replace (length l - (length l + length rest))%nat with 0%nat by lia.
      by rewrite app_nil_r.
    - rewrite (relocate_spec v l (m_size v) Hv) by lia.
      eexists. split; [done|]. rewrite Hs, Nat.sub_diag. by rewrite app_nil_r. }
  destruct Hblock as (b & Hb & ->).
  assert (Hshrink : shrink_to_fit v
                    = Ok (mkVec (map Obj l) (m_size v) (m_capacity v))).
  { unfold shrink_to_fit.
    replace (0 <? m_size v)%nat with true by (symmetry; apply Nat.ltb_lt; lia).
    replace (m_size v <? m_capacity v)%nat with true
      by (symmetry; apply Nat.ltb_lt; lia).
    cbn [andb]. destruct is_trivial; [by injection Hb as ->|].
    by rewrite Hb. }
  eexists. split; [exact Hshrink|]. cbn [m_data m_size m_capacity].
  split_and!; [done|done|by rewrite length_map| |].
  - intros pos. rewrite (at_spec pos v l Hv). unfold at_, index.
    cbn [m_data m_size]. rewrite Hs.
    destruct (l !! pos) as [x|] eqn:Hx.
    + pose proof (lookup_lt_Some _ _ _ Hx) as Hl.
      replace (length l <=? pos)%nat with false by (symmetry; apply Nat.leb_gt; lia).
      replace (pos <? length l)%nat with true by (symmetry; apply Nat.ltb_lt; lia).
      unfold read. by rewrite list_lookup_fmap, Hx.
    + apply lookup_ge_None in Hx.
      by replace (length l <=? pos)%nat with true by (symmetry; apply Nat.leb_le; lia).
  - unfold push_back. cbn [m_data m_size m_capacity].
    replace (m_size v =? m_capacity v)%nat with false
      by (symmetry; apply Nat.eqb_neq; lia).
    cbn [mbind Res_bind m_data m_size]. rewrite write_outside; [done|].
    rewrite length_map. lia.
Qed.

(** [erase] on a vector of a trivial element type moves the tail down with
    [memcpy(position, position + 1, ...)]: as soon as two elements follow
    the first occurrence of the erased value, source and destination
    overlap, which [memcpy] does not allow. *)
Theorem erase_of_trivial_elements_overlaps (ops : list Op) (l : list T)
    (v : fast_vector) (value : T) :
  is_trivial = true ->
  list_run ops [] = Some l ->
  run_ops ops empty_vector = Ok v ->
  (1 < followers value l)%nat ->
  erase value v = Fails.
Proof.
  intros Htriv Hrun Hv0 Hfol.
  destruct (run_ops_spec ops empty_vector [] l represents_empty Hrun) as (v1 & Hr & Hv).
  rewrite Hv0 in Hr. injection Hr as <-.
  pose proof Hv as (rest & Hd & Hs & Hc)%represents_block.
  destruct (first_occurrence value l) as [[Hn Hrm]|(xs & ys & Hl & Hn & Hrm & Hf)].
  - exfalso. clear -Hn Hfol. induction l as [|x l IH]; [simpl in Hfol; lia|].
    apply not_elem_of_cons in Hn as [Hne Hn]. cbn [followers] in Hfol.
    destruct (decide (x = value)); [done|]. by apply IH.
  - rewrite Hf in Hfol. unfold erase. rewrite Hd, Hs. subst l.
    pose proof (find_item_present value xs ys [] rest Hn) as Hfind.
    cbn [app length Nat.add] in Hfind. rewrite Hfind. cbn [mbind Res_bind].
    rewrite length_app. cbn [length].
    replace (length xs <? length xs + S (length ys))%nat with true
      by (symmetry; apply Nat.ltb_lt; lia).
    replace (length xs + S (length ys) - length xs - 1)%nat with (length ys) by lia.
    rewrite Htriv.
    replace (0 <? length ys)%nat with true by (symmetry; apply Nat.ltb_lt; lia).
    replace (1 <? length ys)%nat with true by (symmetry; apply Nat.ltb_lt; lia).
    done.
Qed.
End FastVectorProofs.


(** Two bytes pushed leave a block of three cells. *)
Lemma shrink_to_fit_then_push_back_overflows_witness :
  @FastVector.run_ops Z _ FastVector.char_element
    [FastVector.Push 1; FastVector.Push 2] FastVector.empty_vector
  = FastVector.Ok FastVector.two_bytes /\
  exists v',
    @FastVector.shrink_to_fit Z FastVector.char_element FastVector.two_bytes
    = FastVector.Ok v' /\
    FastVector.size v' = FastVector.size FastVector.two_bytes /\
    FastVector.capacity v' = FastVector.capacity FastVector.two_bytes /\
    length (FastVector.m_data v') = FastVector.size FastVector.two_bytes /\
    (forall pos, FastVector.at_ pos v' = FastVector.at_ pos FastVector.two_bytes) /\
    @FastVector.push_back Z FastVector.char_element 9 v' = FastVector.Fails.
Proof.
  assert (Hrun : @FastVector.run_ops Z _ FastVector.char_element
                   [FastVector.Push 1; FastVector.Push 2] FastVector.empty_vector
                 = FastVector.Ok FastVector.two_bytes)
    by (vm_compute; reflexivity).
  split; [exact Hrun|].
  apply (@shrink_to_fit_then_push_back_overflows Z _ FastVector.char_element
           [FastVector.Push 1; FastVector.Push 2] [1; 2] FastVector.two_bytes 9).
  - vm_compute. reflexivity.
  - exact Hrun.
  - vm_compute. lia.
Defined.

(** Erasing the first of three bytes. *)
Lemma erase_of_trivial_elements_overlaps_witness :
  @FastVector.run_ops Z _ FastVector.char_element
    [FastVector.Push 1; FastVector.Push 2; FastVector.Push 3] FastVector.empty_vector
  = FastVector.Ok (FastVector.mkVec [FastVector.Obj 1; FastVector.Obj 2; FastVector.Obj 3] 3 3) /\
  @FastVector.erase Z _ FastVector.char_element 1
    (FastVector.mkVec [FastVector.Obj 1; FastVector.Obj 2; FastVector.Obj 3] 3 3)
  = FastVector.Fails.
Proof.
  assert (Hrun : @FastVector.run_ops Z _ FastVector.char_element
                   [FastVector.Push 1; FastVector.Push 2; FastVector.Push 3]
                   FastVector.empty_vector
                 = FastVector.Ok
                     (FastVector.mkVec
                        [FastVector.Obj 1; FastVector.Obj 2; FastVector.Obj 3] 3 3))
    by (vm_compute; reflexivity).
  split; [exact Hrun|].
  apply (@erase_of_trivial_elements_overlaps Z _ FastVector.char_element
           [FastVector.Push 1; FastVector.Push 2; FastVector.Push 3] [1; 2; 3]).
  - reflexivity.
  - vm_compute. reflexivity.
  - exact Hrun.
  - vm_compute. lia.
Defined.

Section MatrixProofs.
Context {F : Type} {FO : FloatOps F} {EX : External F}.
Context (val : F -> Q) (Hex : Exact FO val).

Lemma val_f1 : (val f1 == 1)%Q.
Proof. unfold f1. rewrite (val_of_int _ _ Hex). reflexivity. Qed.

Lemma val_f2 : (val f2 == 2)%Q.
Proof. unfold f2. rewrite (val_of_int _ _ Hex). reflexivity. Qed.

Lemma inject_Z_nonzero (z : Z) : z <> 0 -> ~ (inject_Z z == 0)%Q.
Proof. intros Hz Hq. apply Hz. unfold Qeq in Hq. simpl in Hq. lia. Qed.

(** The projection matrix, read the way it is uploaded (the four floats of
    [m[j]] are column j), maps the pixel (x, y) of a screen of non-zero
    width and height to (2x / width - 1, 1 - 2y / height, 0, 1) in exact
    arithmetic: the top left corner to (-1, 1), the bottom right one to
    (1, -1). *)
Theorem projection_maps_screen_to_clip (screenWidth screenHeight : Z) (x y : Q) :
  screenWidth <> 0 -> screenHeight <> 0 ->
  Forall2 Qeq
    (gl_mul (mat_val val (projection screenWidth screenHeight)) (gl_point x y))
    [ (2 * x / inject_Z screenWidth - 1)%Q;
      (1 - 2 * y / inject_Z screenHeight)%Q; 0%Q; 1%Q ].
Proof.
  intros Hw Hh.
  pose proof (inject_Z_nonzero _ Hw) as Hw'.
  pose proof (inject_Z_nonzero _ Hh) as Hh'.
  assert (HR : (val (fsub (f_of_int screenWidth) f0) == inject_Z screenWidth)%Q).
  { rewrite (val_sub _ _ Hex), (val_of_int _ _ Hex), (val_f0 val Hex). ring. }
  assert (HB : (val (fsub f0 (f_of_int screenHeight)) == - inject_Z screenHeight)%Q).
  { rewrite (val_sub _ _ Hex), (val_of_int _ _ Hex), (val_f0 val Hex). ring. }
  assert (HB' : ~ (- inject_Z screenHeight == 0)%Q).
  { intros Hq. apply Hh'. rewrite <- (Qopp_involutive (inject_Z screenHeight)), Hq.
    reflexivity. }
  unfold projection, gl_mul, gl_entry, gl_point, mat_val. cbn [map nth].
  repeat constructor.
  - rewrite (val_div _ _ Hex) by (by rewrite HR).
    rewrite (val_div _ _ Hex) by (by rewrite HR).
    rewrite HR, (val_neg _ _ Hex), (val_add _ _ Hex), (val_of_int _ _ Hex),
      !(val_f0 val Hex), val_f2.
    field. exact Hw'.
  - rewrite (val_div _ _ Hex) by (by rewrite HB).
    rewrite (val_div _ _ Hex) by (by rewrite HB).
    rewrite HB, (val_neg _ _ Hex), (val_add _ _ Hex), (val_of_int _ _ Hex),
      !(val_f0 val Hex), val_f2.
    field. exact Hh'.
  - rewrite (val_neg _ _ Hex), !(val_f0 val Hex), val_f1. ring.
  - rewrite !(val_f0 val Hex), val_f1. ring.
Qed.

(** The model matrix, read the way it is uploaded.  [CreateRotationMatrix]
    writes the rows of a rotation about the centre into [m[0]] and [m[1]],
    and [glUniformMatrix4fv] with [GL_FALSE] takes [m[j]] as column j: with
    c and s the cosine and sine of the angle and tx, ty the two translation
    entries, the shader maps (x, y, 0, 1) to
    (c x + s y, - s x + c y, 0, 1 + tx x + ty y), in exact arithmetic. *)
Theorem model_matrix_as_the_shader_reads_it (angle : F) (origin : Vec2 F)
    (bounds : RectF F) (x y : Q) :
  let rad := fdiv (fmul angle f_pi) (f_of_int 180) in
  let c := val (cosf rad) in
  let s := val (sinf rad) in
  let centerX := (val (rx bounds) + val (rw bounds) * val (vx origin))%Q in
  let centerY := (val (ry bounds) + val (rh bounds) * val (vy origin))%Q in
  Forall2 Qeq
    (gl_mul (mat_val val (CreateRotationMatrix angle origin bounds)) (gl_point x y))
    [ (c * x + s * y)%Q;
      (- s * x + c * y)%Q;
      0%Q;
      (1 + (centerX - c * centerX + s * centerY) * x
         + (centerY - s * centerX - c * centerY) * y)%Q ].
Proof.
  cbv zeta.
  unfold CreateRotationMatrix, gl_mul, gl_entry, gl_point, mat_val. cbn [map nth].
  repeat constructor.
  - rewrite !(val_f0 val Hex). ring.
  - rewrite (val_neg _ _ Hex), !(val_f0 val Hex). ring.
  - rewrite !(val_f0 val Hex), val_f1. ring.
  - rewrite (val_add _ _ Hex), !(val_sub _ _ Hex), !(val_mul _ _ Hex),
      !(val_add _ _ Hex), !(val_mul _ _ Hex), val_f1, !(val_f0 val Hex).
    ring.
Qed.
End MatrixProofs.

(** The corner (800, 600) of an 800 x 600 screen. *)
Lemma projection_maps_screen_to_clip_witness :
  Forall2 Qeq
    (gl_mul (mat_val (fun q => q) (@projection Q exactQ 800 600)) (gl_point 800 600))
    [ (2 * 800 / inject_Z 800 - 1)%Q; (1 - 2 * 600 / inject_Z 600)%Q; 0%Q; 1%Q ].
Proof.
  apply (@projection_maps_screen_to_clip Q exactQ (fun q => q) exactQ_Exact
           800 600 800%Q 600%Q); lia.
Defined.

(** A square of side 10 turned about its centre, and the point (3, 4). *)
Lemma model_matrix_as_the_shader_reads_it_witness :
  let rad := @fdiv Q exactQ (@fmul Q exactQ 90%Q (@f_pi Q exactQ))
               (@f_of_int Q exactQ 180) in
  let c := @cosf Q exact_collaborators rad in
  let s := @sinf Q exact_collaborators rad in
  let centerX := (0 + 10 * (1 # 2))%Q in
  let centerY := (0 + 10 * (1 # 2))%Q in
  Forall2 Qeq
    (gl_mul (mat_val (fun q => q)
               (@CreateRotationMatrix Q exactQ exact_collaborators 90%Q
                  (mkVec2 (1 # 2) (1 # 2)) (mkRectF 0%Q 0%Q 10%Q 10%Q)))
       (gl_point 3 4))
    [ (c * 3 + s * 4)%Q;
      (- s * 3 + c * 4)%Q;
      0%Q;
      (1 + (centerX - c * centerX + s * centerY) * 3
         + (centerY - s * centerX - c * centerY) * 4)%Q ].
Proof.
  exact (@model_matrix_as_the_shader_reads_it Q exactQ exact_collaborators
           (fun q => q) exactQ_Exact 90%Q (mkVec2 (1 # 2) (1 # 2))
           (mkRectF 0%Q 0%Q 10%Q 10%Q) 3%Q 4%Q).
Defined.

Section GlyphProofs.
Context {F : Type} {FO : FloatOps F} {EX : External F} {FI : FloatImage F}.

Lemma fill_vertices_none (objs : list (RenderObject F)) o :
  o ∈ objs -> object_vertices o = None -> fill_vertices objs = None.
Proof.
  intros Hin Ho. induction objs as [|x objs IH]; [by apply elem_of_nil in Hin|].
  cbn [fill_vertices]. apply elem_of_cons in Hin as [<-|Hin].
  - by rewrite Ho.
  - rewrite (IH Hin). by destruct (object_vertices x).
Qed.

Lemma read_vec2_short (u : UniformValue) :
  (length (data u) < 8)%nat -> read_vec2 u = None.
Proof.
  intros Hlen. unfold read_vec2.
  by replace (length (data u) <? 8)%nat with true by (symmetry; apply Nat.ltb_lt; lia).
Qed.

Lemma glyph_vertices_short_corner o (name : string) :
  name ∈ corner_names -> corner o name = None -> glyph_vertices o = None.
Proof.
  intros Hname Hc. unfold glyph_vertices, corner_names in *.
  repeat (apply elem_of_cons in Hname as [->|Hname]);
    [..|by apply elem_of_nil in Hname]; rewrite Hc.
  - done.
  - by destruct (corner o "v0").
  - by destruct (corner o "v0"), (corner o "v1").
  - by destruct (corner o "v0"), (corner o "v1"), (corner o "v2").
Qed.

(** A corner uniform that is too short faults the vertex pass.  After
    [SetObjectUniform] has stored a value of a four-byte type
    ([UNIFORM_FLOAT] or [UNIFORM_INT]) under one of the names [v0] .. [v3]
    of a visible glyph, [RenderObjects] copies [sizeof(Vec2)] = 8 bytes out
    of the four that are there: the pass over the pool has no defined
    result, whatever the shaders and the other objects. *)
Theorem short_corner_uniform_faults_the_draw_pass (k : Z) (name : string)
    (t : UniformType) (raw : list Z) (w : World) o fuel
    (progs : gmap Z ShaderProgram) :
  resolve k w = Some o -> type o = Glyph -> visible o = true ->
  name ∈ corner_names ->
  (uniform_size t <= length raw)%nat -> (uniform_size t < 8)%nat ->
  RenderObjects fuel progs (pool (DuckerNative_SetObjectUniform k name t raw w))
  = Undefined.
Proof.
  intros Hr Ht Hv Hname _ Hsize.
  assert (Hpos : (0 < uniform_size t)%nat) by (destruct t; simpl; lia).
  unfold DuckerNative_SetObjectUniform.
  match goal with |- context [update_object k ?f ?m w] =>
    destruct (update_object_scene k f m w)
      as [[_ Hnone]|(i & o0 & Hk & Hi & Hp & _)]; [congruence|]
  end.
  rewrite resolve_lookup, Hk, Hi in Hr. injection Hr as ->.
  rewrite Hp.
  replace (0 <? uniform_size t)%nat with true
    by (symmetry; apply Nat.ltb_lt; lia).
  set (o' := set_uniforms _ o).
  assert (Hin : o' ∈ <[i := o']> (pool w)).
  { apply list_elem_of_lookup. exists i. apply list_lookup_insert_eq.
    by eapply lookup_lt_Some. }
  assert (Hfault : object_vertices o' = None).
  { unfold object_vertices.
    change (visible o') with (visible o). change (type o') with (type o).
    rewrite Hv, Ht. cbn [negb].
    apply (glyph_vertices_short_corner o' name Hname).
    unfold corner. change (uniforms o') with
      (<[name := mkUniformValue t (take (uniform_size t) raw)]> (uniforms o)).
    rewrite lookup_insert_eq. apply read_vec2_short.
    cbn [data]. rewrite length_take. lia. }
  unfold RenderObjects. by rewrite (fill_vertices_none _ o' Hin Hfault).
Qed.

Section Corners.
Hypothesis float_size : forall x : F, length (fbytes x) = 4%nat.

Lemma read_vec2_uniform (v : Vec2 F) : is_Some (read_vec2 (uniform_vec2 v)).
Proof.
  unfold read_vec2, uniform_vec2, bytes_vec2. cbn [data].
  rewrite length_app, !float_size. by eexists.
Qed.

Lemma glyph_object_vertices (font : Font) (q : stbtt_aligned_quad F)
    (position : Vec2 F) (color : Vec4 F) (zIndex : Z) (cos_a sin_a : F)
    (origin : Vec2 F) (s : RendererState) :
  let o := stored s (glyph_object font q position color zIndex cos_a sin_a origin) in
  type o = Glyph /\ visible o = true /\ is_Some (glyph_vertices o).
Proof.
  cbv zeta. split; [done|]. split; [done|].
  unfold glyph_vertices, corner, stored, glyph_object. cbn [uniforms set_id
    set_scissorRect set_textureId set_zIndex set_color set_uniforms].
  rewrite !lookup_insert_eq.
  rewrite (lookup_insert_ne _ "v3"%string "v2"%string) by done.
  rewrite !lookup_insert_eq.
  rewrite (lookup_insert_ne _ "v3"%string "v1"%string) by done.
  rewrite (lookup_insert_ne _ "v2"%string "v1"%string) by done.
  rewrite !lookup_insert_eq.
  rewrite (lookup_insert_ne _ "v3"%string "v0"%string) by done.
  rewrite (lookup_insert_ne _ "v2"%string "v0"%string) by done.
  rewrite (lookup_insert_ne _ "v1"%string "v0"%string) by done.
  rewrite !lookup_insert_eq.
  repeat match goal with |- context [read_vec2 (uniform_vec2 ?v)] =>
    destruct (read_vec2_uniform v) as [? ->] end.
  by eexists.
Qed.

Lemma DrawText_loop_corners (font : Font) position color zIndex cos_a sin_a origin
    (fuel : nat) : forall (p : list Z) (x y : F) (w : World) (cps : list Z),
  is_Some (state w) ->
  codepoints fuel p = Done cps ->
  exists w' glyphs,
    DrawText_loop fuel font position color zIndex cos_a sin_a origin p x y w
      = Done w' /\
    pool w' = pool w ++ glyphs /\
    Forall (fun o => type o = Glyph /\ visible o = true /\
                     is_Some (glyph_vertices o)) glyphs.
Proof.
  induction fuel as [|fuel IH]; intros p x y w cps Hw Hcps.
  - destruct p; [|done]. exists w, []. by rewrite app_nil_r.
  - destruct p as [|b p].
    { exists w, []. by rewrite app_nil_r. }
    cbn [codepoints] in Hcps. cbn [DrawText_loop].
    destruct (utf8_to_codepoint (b :: p)) as [cp n].
    destruct (length (b :: p) <? n)%nat; [done|].
    destruct (codepoints fuel (drop n (b :: p))) as [rest| |] eqn:Hrest; try done.
    destruct (glyph_index cp =? -1) eqn:Hidx.
    + by eapply IH.
    + destruct (stbtt_GetPackedQuad _ _ _ _ _ _ _) as [[q x'] y'].
      set (obj := glyph_object font q position color zIndex cos_a sin_a origin).
      destruct Hw as [s E].
      destruct (add_effect obj w s E)
        as (o' & Ho' & _ & _ & Hp & _ & _ & _ & _ & E1).
      destruct (IH (drop n (b :: p)) x' y' (fst (AddObjectInternal obj w)) rest E1 Hrest)
        as (w' & glyphs & Hrun & Hpool & Hall).
      exists w', (o' :: glyphs). split_and!; [done| |].
      * rewrite Hpool, Hp, <- app_assoc. done.
      * constructor; [|done]. rewrite Ho'.
        apply (glyph_object_vertices font q position color zIndex cos_a sin_a origin s).
Qed.

Lemma fill_vertices_glyphs (glyphs : list (RenderObject F)) :
  Forall (fun o => type o = Glyph /\ visible o = true /\
                   is_Some (glyph_vertices o)) glyphs ->
  exists vs : list Vertex,
    fill_vertices glyphs = Some vs /\ length vs = (6 * length glyphs)%nat /\
    Forall (fun o => draw_size o = 6) glyphs.
Proof.
  induction 1 as [|o glyphs (Ht & Hv & [b Hb]) _ (vs & Hvs & Hlen & Hd)].
  - by exists [].
  - exists (b ++ vs). cbn [fill_vertices]. unfold object_vertices at 1.
    rewrite Hv, Ht, Hb, Hvs. cbn [negb]. split_and!; [done| |].
    + rewrite length_app, (glyph_vertices_length o b Hb), Hlen. simpl. lia.
    + constructor; [|done]. unfold draw_size. rewrite Ht.
      by destruct (decide (Glyph = Line)).
Qed.

(** The glyphs [DrawText] stores can be drawn.  With four-byte floats, on a
    live engine with the font loaded and a string whose UTF-8 sequences are
    complete, the objects [DrawText] appends to the pool each carry their
    four corners: the vertex pass over them reads no uniform out of bounds
    and emits six vertices per glyph, the count each is drawn with. *)
Theorem drawn_glyphs_have_their_corners
    (w : World) (fontId : Z) (text : list Z) (position : Vec2 F)
    (colour : Vec4 F) (z : Z) (angle : F) (origin : Vec2 F) (cps : list Z) :
  is_Some (loaded_font fontId w) ->
  utf8_decode text = Done cps ->
  exists w' glyphs (vs : list Vertex),
    DuckerNative_DrawText fontId (Some text) position colour z angle origin w
      = Done w' /\
    pool w' = pool w ++ glyphs /\
    fill_vertices glyphs = Some vs /\
    length vs = (6 * length glyphs)%nat /\
    Forall (fun o => draw_size o = 6) glyphs.
Proof.
  intros [font Hfont] Hcps. unfold loaded_font in Hfont.
  destruct (state w) as [s|] eqn:E; [|done].
  unfold DuckerNative_DrawText. rewrite E, Hfont.
  unfold utf8_decode in Hcps.
  edestruct DrawText_loop_corners as (w' & glyphs & Hrun & Hpool & Hall);
    [|exact Hcps|].
  { by rewrite E. }
  destruct (fill_vertices_glyphs glyphs Hall) as (vs & Hvs & Hlen & Hd).
  exists w', glyphs, vs. split_and!; done.
Qed.
End Corners.
End GlyphProofs.

Lemma is_Some_true {A} (x : option A) :
  match x with Some _ => true | None => false end = true -> is_Some x.
Proof. destruct x; [by eexists|done]. Qed.

(** A float written over the first corner of a drawn glyph. *)
Lemma short_corner_uniform_faults_the_draw_pass_witness :
  resolve 1 (run glyph_session boot32) = Some first_glyph /\
  type first_glyph = Glyph /\
  RenderObjects 10 (programs (run glyph_session boot32))
    (pool (DuckerNative_SetObjectUniform 1 "v0" UNIFORM_FLOAT [0; 0; 128; 63]
             (run glyph_session boot32)))
  = Undefined.
Proof.
  assert (Hr : resolve 1 (run glyph_session boot32) = Some first_glyph).
  { apply some_default. vm_compute. reflexivity. }
  assert (Ht : type first_glyph = Glyph) by (vm_compute; reflexivity).
  assert (Hv : visible first_glyph = true) by (vm_compute; reflexivity).
  assert (Hn : "v0"%string ∈ corner_names) by (apply list_elem_of_here).
  assert (Hl : (uniform_size UNIFORM_FLOAT <= length [0; 0; 128; 63])%nat)
    by (simpl; lia).
  assert (Hs : (uniform_size UNIFORM_FLOAT < 8)%nat) by (simpl; lia).
  split; [exact Hr|]. split; [exact Ht|].
  exact (short_corner_uniform_faults_the_draw_pass 1 "v0" UNIFORM_FLOAT
           [0; 0; 128; 63] (run glyph_session boot32) first_glyph 10
           (programs (run glyph_session boot32)) Hr Ht Hv Hn Hl Hs).
Defined.

(** The text [Hi] drawn on an engine with a font. *)
Lemma drawn_glyphs_have_their_corners_witness :
  is_Some (loaded_font 1 with_font) /\
  utf8_decode [72; 105] = Done [72; 105] /\
  exists w' glyphs (vs : list Vertex),
    DuckerNative_DrawText 1 (Some [72; 105]) (pt 0 0) white 0 (fi 0) (pt 0 0)
      with_font = Done w' /\
    pool w' = pool with_font ++ glyphs /\
    fill_vertices glyphs = Some vs /\
    length vs = (6 * length glyphs)%nat /\
    Forall (fun o => draw_size o = 6) glyphs.
Proof.
  assert (Hf : is_Some (loaded_font 1 with_font)).
  { apply is_Some_true. vm_compute. reflexivity. }
  assert (Hd : utf8_decode [72; 105] = Done [72; 105]) by (vm_compute; reflexivity).
  split; [exact Hf|]. split; [exact Hd|].
  exact (drawn_glyphs_have_their_corners (fun x : spec_float => eq_refl)
           with_font 1 [72; 105] (pt 0 0) white 0 (fi 0) (pt 0 0) [72; 105] Hf Hd).
Defined.

Section FreshIds.
Context {F : Type} {FO : FloatOps F} {EX : External F}.


End FreshIds.


